(** * merkle-go: a shallow embedding of the flat and the node-graph Merkle trees

    The development follows the two Go source files of the package
    [merklego]:

    - [flatmerkletree.go]: the array-indexed tree with its
      insert / finalize / proof / verify life cycle (module [Flat]);
    - [merkletree.go]: the pointer-linked tree built once by [NewTree]
      (module [Graph]).

    Conventions of the embedding.

    - In the flat engine a Go [[]byte] is an [option (list byte)]:
      [None] is the nil slice, [Some l] a non-nil slice with contents
      [l].  Capacity is not modelled there: every slice the flat engine
      appends to was produced by [make] with its exact length or by
      slicing a [[32]byte] array, so [append] always reallocates.  The
      caller is taken not to write to a block after handing it to the
      tree.
    - The node-graph tree appends to the slices that [CalculateHash]
      returned, which it does not own.  There a [[]byte] is kept with
      the array it looks into, its offset, length and capacity, and
      [append] writes in place when there is room (module [Slices]).
    - A Go [int] is a [Z].  Division and remainder are the truncating
      [Z.quot] and [Z.rem] of Go, not the flooring [Z.div] / [Z.modulo].
      Overflow is not modelled: every integer is bounded by twice the
      length of a slice.
    - A call returns an [outcome]: a value, a Go [error], or a crash
      (a run-time panic, or the recursion budget of the model running
      out).  Methods that write to the receiver are state transformers
      over the receiver ([M]); methods that only read take it as an
      argument.
    - The digest [sha256.Sum256] is a parameter of the sections; module
      [SHA256] implements FIPS 180-4 and is used to run the code on
      concrete inputs.

    The file has two parts: the definitions (the code, then the
    vocabulary of its specification), and the facts proved about them. *)

From Stdlib Require Import ZArith List Bool String Ascii Lia.
From Stdlib.Strings Require Import Byte.
From stdpp Require Import base tactics option list numbers.
Import ListNotations.

Local Open Scope Z_scope.

(** ** Go values *)

Module Go.

Definition bytes := list byte.

(** A byte slice; [None] is [nil]. *)
Definition slice := option bytes.

Definition content (s : slice) : bytes :=
  match s with
  | Some l => l
  | None => []
  end.

Definition is_nil (s : slice) : bool :=
  match s with
  | Some _ => false
  | None => true
  end.

(** [len(l)] as a Go [int]. *)
Definition len {A : Type} (l : list A) : Z := Z.of_nat (length l).

Definition byte_eqb (a b : byte) : bool := Byte.eqb a b.

Fixpoint bytes_eqb (a b : bytes) : bool :=
  match a, b with
  | [], [] => true
  | x :: a', y :: b' => byte_eqb x y && bytes_eqb a' b'
  | _, _ => false
  end.

(** [bytes.Equal]: nil and the empty slice are equal. *)
Definition bytes_Equal (a b : slice) : bool := bytes_eqb (content a) (content b).

(** [append(a, b...)]: when nothing is appended the first slice is
    returned as it is, nil included. *)
Definition append (a b : slice) : slice :=
  match a, content b with
  | None, [] => None
  | _, _ => Some (content a ++ content b)
  end.

(** [make([]T, n)] for a slice of slices: [n] nil entries. *)
Definition make_nil (n : Z) : list slice := replicate (Z.to_nat n) None.

(** [hex.EncodeToString]. *)
Definition hex_digit (n : N) : ascii :=
  match n with
  | 0 => "0" | 1 => "1" | 2 => "2" | 3 => "3" | 4 => "4" | 5 => "5"
  | 6 => "6" | 7 => "7" | 8 => "8" | 9 => "9" | 10 => "a" | 11 => "b"
  | 12 => "c" | 13 => "d" | 14 => "e" | _ => "f"
  end%N%char.

Fixpoint hex_EncodeToString (l : bytes) : string :=
  match l with
  | [] => EmptyString
  | b :: l' =>
      String (hex_digit (N.div (Byte.to_N b) 16))
        (String (hex_digit (N.modulo (Byte.to_N b) 16)) (hex_EncodeToString l'))
  end.

(** Errors.  The four sentinels of [flatmerkletree.go] are created by
    [errors.New]; every other error is built by [fmt.Errorf] (or by an
    [errors.New] at the place of the return) and is kept as its format
    string with its arguments. *)
Inductive error : Type :=
| ErrNilBlock
| ErrEmptyMerkleTree
| ErrTreeAlreadyFinalized
| ErrTreeNotFinalized
| Errorf (format : string) (args : list fmt_arg)
with fmt_arg : Type :=
| ArgErr (e : error)
| ArgInt (i : Z)
| ArgBytes (s : slice)
| ArgString (s : string).

(** The text of the sentinels, as in the [var] block of the source. *)
Definition sentinel_text (e : error) : string :=
  match e with
  | ErrNilBlock => "Block to insert cannot be nil"
  | ErrEmptyMerkleTree => "Merkle tree cannot be empty; insert some blocks"
  | ErrTreeAlreadyFinalized => "Merkle tree already finalized"
  | ErrTreeNotFinalized => "Merkle tree not finalized"
  | Errorf format _ => format
  end%string.

Inductive crash : Type :=
| IndexOutOfRange
| MakeLenOutOfRange
| NilDereference
| OutOfFuel.

Inductive outcome (A : Type) : Type :=
| Ok (a : A)
| Err (e : error)
| Crash (c : crash).

Arguments Ok {A} a.
Arguments Err {A} e.
Arguments Crash {A} c.

Definition obind {A B : Type} (o : outcome A) (k : A -> outcome B) : outcome B :=
  match o with
  | Ok a => k a
  | Err e => Err e
  | Crash c => Crash c
  end.

(** [l[i]], with the bounds check of the run time. *)
Definition index {A : Type} (l : list A) (i : Z) : outcome A :=
  if (0 <=? i) && (i <? len l)
  then match l !! Z.to_nat i with
       | Some x => Ok x
       | None => Crash IndexOutOfRange
       end
  else Crash IndexOutOfRange.

(** [l[i] = x], with the bounds check of the run time. *)
Definition store {A : Type} (l : list A) (i : Z) (x : A) : outcome (list A) :=
  if (0 <=? i) && (i <? len l)
  then Ok (<[Z.to_nat i := x]> l)
  else Crash IndexOutOfRange.

End Go.

(** ** Slices of bytes and the arrays behind them *)

Module Slices.

Import Go.

(** The arrays of bytes that several slices look into; array [a] is the
    [a]-th of the list. *)
Abbreviation mem := (list bytes).

(** A [[]byte] of the node-graph tree.  That tree appends to slices it
    was given, and Go's [append] writes into the array behind a slice
    when there is room after the slice, so a slice is kept with its
    place:

    - [Nil] is the nil slice;
    - [View a off n c] is the slice of length [n] and capacity [c] that
      starts at index [off] of the shared array [a];
    - [Fresh b] is a slice with the bytes [b] whose array no slice with
      other bounds looks into (the result of [h.Sum(nil)], or of an
      [append] that had to copy).  Appending to it, in place or not,
      changes the bytes of no other slice, and the code uses the result
      of an [append] before it appends again, so such a slice is kept
      as its bytes. *)
Inductive bslice : Type :=
| Nil
| Fresh (content : bytes)
| View (a off n c : nat).

(** The bytes that a slice shows. *)
Definition view (m : mem) (s : bslice) : bytes :=
  match s with
  | Nil => []
  | Fresh b => b
  | View a off n _ => take n (drop off (default [] (m !! a)))
  end.

(** [s == nil] *)
Definition is_nil_slice (s : bslice) : bool :=
  match s with
  | Nil => true
  | _ => false
  end.

(** [copy(l[pos:], bs)] *)
Fixpoint splice (l : bytes) (pos : nat) (bs : bytes) : bytes :=
  match bs with
  | [] => l
  | b :: bs' => splice (<[pos := b]> l) (S pos) bs'
  end.

Definition write (m : mem) (a pos : nat) (bs : bytes) : mem :=
  alter (fun l => splice l pos bs) a m.

(** [append(s, t...)]: when the bytes of [t] fit into the capacity of
    [s] they are written behind [s] into its array, over whatever was
    there, and the result is the longer slice of the same array;
    otherwise the result is a slice of a new array.  The bytes of [t]
    are read before anything is written. *)
Definition bappend (s t : bslice) (m : mem) : bslice * mem :=
  let tb := view m t in
  match s with
  | Nil =>
      (match tb with
       | [] => Nil
       | _ => Fresh tb
       end, m)
  | Fresh b => (Fresh (b ++ tb), m)
  | View a off n c =>
      if (n + length tb <=? c)%nat
      then (View a off (n + length tb) c, write m a (off + n) tb)
      else (Fresh (view m s ++ tb), m)
  end.

(** A slice without room after it: [len(s) == cap(s)], or a slice alone
    on its array. *)
Definition tight (s : bslice) : Prop :=
  match s with
  | View _ _ n c => c = n
  | _ => True
  end.

End Slices.

Export Go.

Declare Scope outcome_scope.
Delimit Scope outcome_scope with outcome.
Notation "'let*' x ':=' o 'in' k" := (obind o (fun x => k))
  (at level 10, x name, o at level 100, k at level 200) : outcome_scope.

(** ** The flat tree engine ([flatmerkletree.go]) *)

Module Flat.

Definition TreeNode := slice.
Definition Block := slice.

Definition internalNodePrefix : byte := x01.
Definition leafNodePrefix : byte := x00.

Record FlatMerkleTree : Type := mkTree {
  blocks : list Block;
  nodes : list TreeNode;
  root : TreeNode;
  finalized : bool
}.

Definition set_blocks (b : list Block) (mt : FlatMerkleTree) : FlatMerkleTree :=
  mkTree b (nodes mt) (root mt) (finalized mt).
Definition set_nodes (n : list TreeNode) (mt : FlatMerkleTree) : FlatMerkleTree :=
  mkTree (blocks mt) n (root mt) (finalized mt).
Definition set_root (r : TreeNode) (mt : FlatMerkleTree) : FlatMerkleTree :=
  mkTree (blocks mt) (nodes mt) r (finalized mt).
Definition set_finalized (f : bool) (mt : FlatMerkleTree) : FlatMerkleTree :=
  mkTree (blocks mt) (nodes mt) (root mt) f.

(** Methods that write to the receiver. *)
Definition M (A : Type) : Type := FlatMerkleTree -> outcome A * FlatMerkleTree.

Definition ret {A : Type} (a : A) : M A := fun mt => (Ok a, mt).
Definition raise {A : Type} (e : error) : M A := fun mt => (Err e, mt).
Definition bind {A B : Type} (m : M A) (k : A -> M B) : M B :=
  fun mt =>
    match m mt with
    | (Ok a, mt') => k a mt'
    | (Err e, mt') => (Err e, mt')
    | (Crash c, mt') => (Crash c, mt')
    end.
Definition get : M FlatMerkleTree := fun mt => (Ok mt, mt).
Definition modify (f : FlatMerkleTree -> FlatMerkleTree) : M unit :=
  fun mt => (Ok tt, f mt).
Definition lift {A : Type} (o : outcome A) : M A := fun mt => (o, mt).

Declare Scope go_scope.
Delimit Scope go_scope with go.
Notation "'let*' x ':=' m 'in' k" := (bind m (fun x => k))
  (at level 10, x name, m at level 100, k at level 200) : go_scope.

Section Engine.

(** [sha256.Sum256], as the bytes of the digest. *)
Variable Sum256 : bytes -> bytes.

Definition NewMerkleTree (bs : list Block) : FlatMerkleTree :=
  mkTree bs [] None false.

(** [hashNode]: the buffer [raw] is one byte longer than [data]; its first
    byte stays zero for a leaf and is set to [internalNodePrefix] for an
    internal node; the digest of the buffer is returned as a fresh,
    non-nil slice. *)
Definition hashNode (data : slice) (internal : bool) : TreeNode :=
  let raw0 := if internal then internalNodePrefix else leafNodePrefix in
  Some (Sum256 (raw0 :: content data)).

Definition copyNode (node : TreeNode) : TreeNode := Some (content node).

Definition hasChild (mt : FlatMerkleTree) (idx : Z) : bool :=
  let n := len (nodes mt) in
  let l := 2 * idx + 1 in
  let r := 2 * idx + 2 in
  (l <? n) || (r <? n).

Definition read_node (idx : Z) : M TreeNode :=
  fun mt => (index (nodes mt) idx, mt).

Definition write_node (idx : Z) (x : TreeNode) : M unit :=
  fun mt =>
    match store (nodes mt) idx x with
    | Ok ns => (Ok tt, set_nodes ns mt)
    | Err e => (Err e, mt)
    | Crash c => (Crash c, mt)
    end.

(** The recursive [finalize].  [fuel] bounds the depth of the recursion. *)
Fixpoint finalize (fuel : nat) (idx : Z) : M TreeNode :=
  match fuel with
  | O => lift (Crash OutOfFuel)
  | S fuel' =>
      (let* mt := get in
       if negb (hasChild mt idx) then read_node idx
       else
         let* left := finalize fuel' (2 * idx + 1) in
         let* right := finalize fuel' (2 * idx + 2) in
         let* _ := write_node idx (hashNode (append left right) true) in
         read_node idx)%go
  end.

(** The loop of [Finalize] that fills the leaf slots. *)
Fixpoint fill_leaves (bs : list Block) (j : Z) : M unit :=
  match bs with
  | [] => ret tt
  | b :: bs' =>
      (let* _ := write_node j (hashNode b false) in
       fill_leaves bs' (j + 1))%go
  end.

Definition Finalize : M unit :=
  (let* mt := get in
   if len (blocks mt) =? 0
   then raise (Errorf "Failed to finalize: %s" [ArgErr ErrEmptyMerkleTree])
   else if finalized mt then raise ErrTreeAlreadyFinalized
   else
     let* _ :=
       (if negb (Z.rem (len (blocks mt)) 2 =? 0)
        then let* last := lift (index (blocks mt) (len (blocks mt) - 1)) in
             modify (set_blocks (blocks mt ++ [last]))
        else ret tt) in
     let* mt := get in
     let* _ := modify (set_nodes (make_nil (2 * len (blocks mt) - 1))) in
     let* mt := get in
     let* _ := fill_leaves (blocks mt) (len (nodes mt) - len (blocks mt)) in
     let* mt := get in
     let* r := finalize (length (nodes mt)) 0 in
     let* _ := modify (set_root r) in
     let* _ := modify (set_finalized true) in
     ret tt)%go.

(** [Insert].  The replacement of a nil [mt.blocks] by an empty slice
    before the append is not visible: both are the empty list. *)
Definition Insert (block : Block) : M unit :=
  (if is_nil block then raise ErrNilBlock
   else
     let* mt := get in
     if finalized mt then raise ErrTreeAlreadyFinalized
     else let* _ := modify (set_blocks (blocks mt ++ [block])) in ret tt)%go.

Definition RootHash (mt : FlatMerkleTree) : outcome slice :=
  if negb (finalized mt)
  then Err (Errorf "invalid root hash: %v" [ArgErr ErrTreeNotFinalized])
  else Ok (copyNode (root mt)).

(** The loop of [findLeaf], from position [i] on; [bs] is [mt.blocks[i:]]. *)
Fixpoint findLeaf_from (mt : FlatMerkleTree) (block : Block) (bs : list Block) (i : Z)
  : outcome Z :=
  match bs with
  | [] => Err (Errorf "block does not exist: %v"
                 [ArgString (hex_EncodeToString (content block))])
  | b :: bs' =>
      if bytes_Equal b block
      then Ok (len (nodes mt) - len (blocks mt) + i)
      else findLeaf_from mt block bs' (i + 1)
  end.

Definition findLeaf (mt : FlatMerkleTree) (block : Block) : outcome Z :=
  if is_nil block then Err ErrNilBlock
  else findLeaf_from mt block (blocks mt) 0.

(** [int(math.Log2(float64(n)))].  For [n >= 1] this is the integer
    part of the binary logarithm (the float computation is exact enough
    for every length below [2^47]); for [n = 0] the conversion of
    [-Inf] gives a negative length and [make] panics. *)
Definition int_Log2 (n : Z) : Z := Z.log2 n.

(** The loop [for nodeIdx > 0] of [Proof]; [fuel] bounds its iterations. *)
Fixpoint proof_loop (fuel : nat) (mt : FlatMerkleTree) (nodeIdx k : Z)
    (proof : list TreeNode) : outcome (list TreeNode) :=
  if nodeIdx >? 0 then
    match fuel with
    | O => Crash OutOfFuel
    | S fuel' =>
        (let* sibling := (if Z.rem nodeIdx 2 =? 0
                     then index (nodes mt) (nodeIdx - 1)
                     else index (nodes mt) (nodeIdx + 1)) in
         let* proof' := store proof k (copyNode sibling) in
         proof_loop fuel' mt (Z.quot (nodeIdx - 1) 2) (k + 1) proof')%outcome
    end
  else Ok proof.

Definition Proof (mt : FlatMerkleTree) (block : Block) : outcome (list TreeNode) :=
  if is_nil block then Err ErrNilBlock
  else if negb (finalized mt) then Err ErrTreeNotFinalized
  else
    (let* idx := findLeaf mt block in
     if len (nodes mt) =? 0 then Crash MakeLenOutOfRange
     else
       let proof := make_nil (int_Log2 (len (nodes mt))) in
       let* proof := proof_loop (Z.to_nat idx) mt idx 0 proof in
       let* last := index proof (len proof - 1) in
       if is_nil last
       then Ok (take (Z.to_nat (len proof - 1)) proof)
       else Ok proof)%outcome.

(** The loop [for i, proofChunk := range proof] of [Verify]. *)
Fixpoint verify_loop (mt : FlatMerkleTree) (block : Block) (proof : list TreeNode)
    (i currNodeIdx : Z) : outcome unit :=
  match proof with
  | [] => Ok tt
  | proofChunk :: rest =>
      let proofNodeBytes := copyNode proofChunk in
      (let* current := index (nodes mt) currNodeIdx in
       let currentNodeBytes := copyNode current in
       let reconstructedNode :=
         if Z.rem currNodeIdx 2 =? 0
         then hashNode (append proofNodeBytes currentNodeBytes) true
         else hashNode (append currentNodeBytes proofNodeBytes) true in
       let parentIdx := Z.quot (currNodeIdx - 1) 2 in
       let* parentNode := index (nodes mt) parentIdx in
       if negb (bytes_Equal parentNode reconstructedNode)
       then Err (Errorf "invalid proof at index %d for block %X; got: %X, want: %X"
                   [ArgInt i; ArgBytes block; ArgBytes reconstructedNode;
                    ArgBytes parentNode])
       else verify_loop mt block rest (i + 1) parentIdx)%outcome
  end.

Definition Verify (mt : FlatMerkleTree) (block : Block) (proof : list TreeNode)
  : outcome unit :=
  if negb (finalized mt) then Err ErrTreeNotFinalized
  else
    (let* leafIdx := findLeaf mt block in
     verify_loop mt block proof 0 leafIdx)%outcome.

End Engine.

End Flat.

(** ** The node-graph tree of [merkletree.go] *)

Module Graph.

Import Go Slices.

(** The interface [Storable].  [CalculateHash] returns the same slice
    each time it is called on an item, and writes to no array. *)
Class Storable (T : Type) : Type := {
  CalculateHash : T -> outcome bslice;
  Equals : T -> T -> outcome bool
}.

(** A [*Node] is an address of the heap of nodes; [None] is the nil
    pointer. *)
Abbreviation ptr := nat.

Record Node (T : Type) : Type := mkNode {
  Left : option ptr;
  Right : option ptr;
  Parent : option ptr;
  leaf : bool;
  dup : bool;
  Hash : bslice;
  Item : option T
}.

Arguments mkNode {T}.
Arguments Left {T}.
Arguments Right {T}.
Arguments Parent {T}.
Arguments leaf {T}.
Arguments dup {T}.
Arguments Hash {T}.
Arguments Item {T}.

(** [MerkleTree]; the field [hashFunc] is always [sha256.New] and is the
    parameter [Sum256] of the section below. *)
Record MerkleTree : Type := mkMerkleTree {
  Root : option ptr;
  merkleRoot : bslice;
  Leaves : list ptr
}.

Definition MerkleRoot (m : MerkleTree) : bslice := merkleRoot m.

Section Builder.

Context {T : Type} {ST : Storable T}.

Variable Sum256 : bytes -> bytes.

(** The heap of nodes; an address is a position in it. *)
Local Abbreviation heap := (list (Node T)).

(** Code that allocates and updates nodes and appends to slices: a
    state transformer over the arrays of bytes and the heap of nodes. *)
Definition HeapM (A : Type) : Type := mem * heap -> outcome A * (mem * heap).

Definition ret {A : Type} (a : A) : HeapM A := fun w => (Ok a, w).
Definition bind {A B : Type} (m : HeapM A) (k : A -> HeapM B) : HeapM B :=
  fun w =>
    match m w with
    | (Ok a, w') => k a w'
    | (Err e, w') => (Err e, w')
    | (Crash c, w') => (Crash c, w')
    end.
Definition lift {A : Type} (o : outcome A) : HeapM A := fun w => (o, w).

(** [&Node{...}] *)
Definition alloc (n : Node T) : HeapM ptr :=
  fun w => (Ok (length (snd w)), (fst w, snd w ++ [n])).

(** [*p] *)
Definition deref (p : ptr) : HeapM (Node T) :=
  fun w =>
    match snd w !! p with
    | Some n => (Ok n, w)
    | None => (Crash NilDereference, w)
    end.

Definition with_Parent (q : ptr) (n : Node T) : Node T :=
  mkNode (Left n) (Right n) (Some q) (leaf n) (dup n) (Hash n) (Item n).

(** [p.Parent = q] *)
Definition set_Parent (p q : ptr) : HeapM unit :=
  fun w =>
    match snd w !! p with
    | Some n => (Ok tt, (fst w, <[p := with_Parent q n]> (snd w)))
    | None => (Crash NilDereference, w)
    end.

(** [append(s, t...)] *)
Definition append_bytes (s t : bslice) : HeapM bslice :=
  fun w => (Ok (fst (bappend s t (fst w))), (snd (bappend s t (fst w)), snd w)).

(** [h.Write(data)] on a new [hashFunc()], then [h.Sum(nil)]: the
    digest of the bytes that [data] shows, in an array of its own.
    [Write] on a SHA-256 state never returns an error. *)
Definition hash_sum (data : bslice) : HeapM bslice :=
  fun w => (Ok (Fresh (Sum256 (view (fst w) data))), w).

Local Notation "'let*' x ':=' m 'in' k" := (bind m (fun x => k))
  (at level 10, x name, m at level 100, k at level 200).

(** The loop of [buildIntermediate] over one level, from index [i] on.
    It returns the single parent when the level has two nodes, and the
    parents of the level otherwise. *)
Fixpoint level_loop (fuel : nat) (leaves : list ptr) (i : Z) (nodes : list ptr)
  : HeapM (ptr + list ptr) :=
  if i <? len leaves then
    match fuel with
    | O => lift (Crash OutOfFuel)
    | S fuel' =>
        let left := i in
        let right := if i + 1 =? len leaves then i else i + 1 in
        let* pl := lift (index leaves left) in
        let* nl := deref pl in
        let* pr := lift (index leaves right) in
        let* nr := deref pr in
        let* itemHash := append_bytes (Hash nl) (Hash nr) in
        let* digest := hash_sum itemHash in
        let* n := alloc (mkNode (Some pl) (Some pr) None false false digest None) in
        let nodes := nodes ++ [n] in
        let* _ := set_Parent pl n in
        let* _ := set_Parent pr n in
        if len leaves =? 2 then ret (inl n)
        else level_loop fuel' leaves (i + 2) nodes
    end
  else ret (inr nodes).

Fixpoint buildIntermediate (fuel : nat) (leaves : list ptr) : HeapM ptr :=
  match fuel with
  | O => lift (Crash OutOfFuel)
  | S fuel' =>
      let* r := level_loop (length leaves) leaves 0 [] in
      match r with
      | inl n => ret n
      | inr nodes => buildIntermediate fuel' nodes
      end
  end.

(** The first loop of [buildTree]. *)
Fixpoint make_leaves (content : list T) (leaves : list ptr) : HeapM (list ptr) :=
  match content with
  | [] => ret leaves
  | c :: content' =>
      let* hash := lift (CalculateHash c) in
      let* p := alloc (mkNode None None None true false hash (Some c)) in
      make_leaves content' (leaves ++ [p])
  end.

Definition buildTree (content : list T) : HeapM (ptr * list ptr) :=
  let* leaves := make_leaves content [] in
  let* leaves :=
    (if Z.rem (len leaves) 2 =? 1
     then
       let* pl := lift (index leaves (len leaves - 1)) in
       let* l := deref pl in
       let* duplicate := alloc (mkNode None None None true true (Hash l) (Item l)) in
       ret (leaves ++ [duplicate])
     else ret leaves) in
  let* root := buildIntermediate (length leaves) leaves in
  ret (root, leaves).

Definition NewTree (content : list T) : HeapM MerkleTree :=
  if len content =? 0
  then lift (Err (Errorf "error: cannot make a merkle tree without any contents." []))
  else
    let* built := buildTree content in
    let root := fst built in
    let leafs := snd built in
    let* r := deref root in
    ret (mkMerkleTree (Some root) (Hash r) leafs).

End Builder.

End Graph.

(** ** SHA-256 (FIPS 180-4), the digest of [crypto/sha256] *)

Module SHA256.

Definition w32 (x : Z) : Z := Z.land x 4294967295.
Definition add32 (x y : Z) : Z := w32 (x + y).
Definition rotr (n x : Z) : Z := Z.lor (Z.shiftr x n) (w32 (Z.shiftl x (32 - n))).
Definition shr (n x : Z) : Z := Z.shiftr x n.
Definition not32 (x : Z) : Z := Z.lxor x 4294967295.

Definition Ch (x y z : Z) : Z := Z.lxor (Z.land x y) (Z.land (not32 x) z).
Definition Maj (x y z : Z) : Z :=
  Z.lxor (Z.lxor (Z.land x y) (Z.land x z)) (Z.land y z).
Definition Sigma0 (x : Z) : Z := Z.lxor (Z.lxor (rotr 2 x) (rotr 13 x)) (rotr 22 x).
Definition Sigma1 (x : Z) : Z := Z.lxor (Z.lxor (rotr 6 x) (rotr 11 x)) (rotr 25 x).
Definition sigma0 (x : Z) : Z := Z.lxor (Z.lxor (rotr 7 x) (rotr 18 x)) (shr 3 x).
Definition sigma1 (x : Z) : Z := Z.lxor (Z.lxor (rotr 17 x) (rotr 19 x)) (shr 10 x).

(** The constants of the standard are fractional parts of roots of the
    first primes: [frac_root k p] is the first 32 bits of the fractional
    part of the [k]-th root of [p], found bit by bit. *)
Fixpoint root_bits (k : Z) (bits : nat) (n r : Z) : Z :=
  match bits with
  | O => r
  | S bits' =>
      let c := r + 2 ^ Z.of_nat bits' in
      if c ^ k <=? n then root_bits k bits' n c else root_bits k bits' n r
  end.

Definition frac_root (k p : Z) : Z := w32 (root_bits k 40 (p * 2 ^ (32 * k)) 0).

Definition is_prime (n : Z) : bool :=
  forallb (fun d => negb (n mod d =? 0)) (map Z.of_nat (seq 2 (Z.to_nat n - 2))).

(** The first 64 primes, 2 to 311. *)
Definition primes64 : list Z := filter (fun n => is_prime n = true) (map Z.of_nat (seq 2 310)).

(** The round constants: cube roots of the first 64 primes. *)
Definition K : list Z := Eval vm_compute in map (frac_root 3) primes64.

Definition byte_to_Z (b : byte) : Z := Z.of_N (Byte.to_N b).
Definition byte_of_Z (z : Z) : byte :=
  match Byte.of_N (Z.to_N (Z.land z 255)) with
  | Some b => b
  | None => x00
  end.

(** Big-endian bytes of a number, [n] of them. *)
Fixpoint be_bytes (n : nat) (z : Z) : bytes :=
  match n with
  | O => []
  | S n' => byte_of_Z (Z.shiftr z (8 * Z.of_nat n')) :: be_bytes n' z
  end.

(** The message followed by the bit 1, zeros up to 56 modulo 64 bytes,
    and the length of the message in bits on 8 bytes. *)
Definition pad (msg : bytes) : bytes :=
  let l := Z.of_nat (length msg) in
  let zeros := Z.to_nat ((55 - l) mod 64) in
  msg ++ x80 :: replicate zeros x00 ++ be_bytes 8 (8 * l).

Fixpoint words (fuel : nat) (l : bytes) : list Z :=
  match fuel, l with
  | S fuel', a :: b :: c :: d :: l' =>
      (Z.shiftl (byte_to_Z a) 24 + Z.shiftl (byte_to_Z b) 16
       + Z.shiftl (byte_to_Z c) 8 + byte_to_Z d) :: words fuel' l'
  | _, _ => []
  end.

(** The message schedule, most recent word first. *)
Fixpoint schedule (n : nat) (rev_w : list Z) : list Z :=
  match n with
  | O => rev_w
  | S n' =>
      let w := fun t => nth t rev_w 0 in
      schedule n' (add32 (add32 (sigma1 (w 1%nat)) (w 6%nat))
                         (add32 (sigma0 (w 14%nat)) (w 15%nat)) :: rev_w)
  end.

Definition state : Type := (Z * Z * Z * Z * Z * Z * Z * Z)%type.

Definition round (s : state) (kw : Z * Z) : state :=
  let '(a, b, c, d, e, f, g, h) := s in
  let t1 := add32 (add32 (add32 h (Sigma1 e)) (add32 (Ch e f g) (fst kw))) (snd kw) in
  let t2 := add32 (Sigma0 a) (Maj a b c) in
  (add32 t1 t2, a, b, c, add32 d t1, e, f, g).

Definition compress (hs : state) (block : list Z) : state :=
  let w := rev (schedule 48 (rev block)) in
  let '(a, b, c, d, e, f, g, h) := fold_left round (combine K w) hs in
  let '(a0, b0, c0, d0, e0, f0, g0, h0) := hs in
  (add32 a0 a, add32 b0 b, add32 c0 c, add32 d0 d,
   add32 e0 e, add32 f0 f, add32 g0 g, add32 h0 h).

Fixpoint blocks (fuel : nat) (ws : list Z) (hs : state) : state :=
  match fuel, ws with
  | S fuel', _ :: _ => blocks fuel' (drop 16 ws) (compress hs (take 16 ws))
  | _, _ => hs
  end.

(** The initial hash value: square roots of the first 8 primes. *)
Definition init : state :=
  Eval vm_compute in
    match map (frac_root 2) (take 8 primes64) with
    | [a; b; c; d; e; f; g; h] => (a, b, c, d, e, f, g, h)
    | _ => (0, 0, 0, 0, 0, 0, 0, 0)
    end.

Definition Sum256 (msg : bytes) : bytes :=
  let p := pad msg in
  let ws := words (length p) p in
  let '(a, b, c, d, e, f, g, h) := blocks (length ws) ws init in
  be_bytes 4 a ++ be_bytes 4 b ++ be_bytes 4 c ++ be_bytes 4 d ++
  be_bytes 4 e ++ be_bytes 4 f ++ be_bytes 4 g ++ be_bytes 4 h.

End SHA256.

(** ** The items of [merkletree_test.go], and items with a hash in a shared buffer *)

Module GraphTest.

Import Slices.

(** [TestSHA256Content], with its two methods.  [CalculateHash] returns
    [h.Sum(nil)], a slice of an array of its own. *)
Record TestSHA256Content : Type := mkContent { x : string }.

#[export] Instance TestSHA256Content_Storable : Graph.Storable TestSHA256Content := {
  CalculateHash t := Ok (Fresh (SHA256.Sum256 (list_byte_of_string (x t))));
  Equals t other := Ok (String.eqb (x t) (x other))
}.

(** The contents of the three cases of the test table. *)
Definition contents0 : list TestSHA256Content :=
  [mkContent "Hello"; mkContent "Hi"; mkContent "Hey"; mkContent "Hola"].
Definition contents1 : list TestSHA256Content :=
  [mkContent "Hello"; mkContent "Hi"; mkContent "Hey"].
Definition contents2 : list TestSHA256Content :=
  [mkContent "Hello"; mkContent "Hi"; mkContent "Hey"; mkContent "Greetings";
   mkContent "Hola"].

(** A literal [[]byte{...}] of the test table. *)
Definition byte_literal (l : list Z) : bytes := map SHA256.byte_of_Z l.

(** The bytes of [NewTree(contents).MerkleRoot()], with no array and no
    node before the call. *)
Definition root_of (contents : list TestSHA256Content) : outcome bytes :=
  match Graph.NewTree SHA256.Sum256 contents ([], []) with
  | (Ok t, (m, _)) => Ok (view m (Graph.MerkleRoot t))
  | (Err e, _) => Err e
  | (Crash c, _) => Crash c
  end.

(** An item that holds its hash: [CalculateHash] returns the slice kept
    in the item ([type item struct{ h []byte }] with
    [func (i item) CalculateHash() ([]byte, error) { return i.h, nil }]). *)
Record Cached : Type := mkCached { h : bslice }.

Definition bslice_eqb (s t : bslice) : bool :=
  match s, t with
  | Nil, Nil => true
  | Fresh a, Fresh b => bytes_eqb a b
  | View a off n c, View a' off' n' c' =>
      Nat.eqb a a' && Nat.eqb off off' && Nat.eqb n n' && Nat.eqb c c'
  | _, _ => false
  end.

#[export] Instance Cached_Storable : Graph.Storable Cached := {
  CalculateHash t := Ok (h t);
  Equals t other := Ok (bslice_eqb (h t) (h other))
}.

(** [buf := []byte{1, 2, 3, 4, 5, 6, 7, 8}], the only array. *)
Definition buf : mem := [map SHA256.byte_of_Z [1; 2; 3; 4; 5; 6; 7; 8]].

(** [buf[i:j]]: its capacity reaches to the end of the array. *)
Definition buf_slice (i j : nat) : bslice := View 0 i (j - i) (8 - i).

(** Four items whose hashes are the four quarters of [buf], the first
    two in exchanged order. *)
Definition shared_items : list Cached :=
  [mkCached (buf_slice 2 4); mkCached (buf_slice 0 2);
   mkCached (buf_slice 4 6); mkCached (buf_slice 6 8)].


End GraphTest.

(** ** Concrete trees of the flat engine *)

Module FlatTest.

Import Flat.

Definition block (s : string) : Block := Some (list_byte_of_string s).

Definition blocks3 : list Block := [block "Hello"; block "Hi"; block "Hey"].
Definition blocks4 : list Block := [block "Hello"; block "Hi"; block "Hey"; block "Hey"].

(** [NewMerkleTree(bl...)] followed by [Finalize()]. *)
Definition finalized_tree (bl : list Block) : FlatMerkleTree :=
  snd (Finalize SHA256.Sum256 (NewMerkleTree bl)).

(** [NewMerkleTree()] followed by one [Insert] for each block, then
    [Finalize()]. *)
Definition inserted_tree (bl : list Block) : FlatMerkleTree :=
  snd (Finalize SHA256.Sum256
         (fold_left (fun mt b => snd (Insert b mt)) bl (NewMerkleTree []))).

End FlatTest.

(** ** The implicit binary tree of the node array *)

Module Shape.

(** The parent index, as the code computes it: [(i - 1) / 2] with Go's
    truncating division. *)
Definition parent (i : Z) : Z := Z.quot (i - 1) 2.

(** The sibling index, as [Proof] chooses it. *)
Definition sibling (i : Z) : Z := if Z.rem i 2 =? 0 then i - 1 else i + 1.

(** The [k]-th ancestor. *)
Definition ancestor (k : nat) (j : Z) : Z := Nat.iter k parent j.

(** [desc i j]: [j] lies in the subtree rooted at [i]. *)
Definition desc (i j : Z) : Prop := exists k, ancestor k j = i.

(** The number of edges between index [i] and the root. *)
Definition depth (i : Z) : Z := Z.log2 (i + 1).

End Shape.

(** ** The vocabulary of the specification of the flat engine *)

Module FlatSpec.

Import Flat Shape.

Section Spec.

Variable Sum256 : bytes -> bytes.

Local Abbreviation hashNode := (Flat.hashNode Sum256).
Local Abbreviation Finalize := (Flat.Finalize Sum256).

(** The slot [i] of a node array, when it exists. *)
Definition sel (ns : list TreeNode) (i : Z) : option TreeNode := ns !! Z.to_nat i.

(** Slot [j] holds the internal digest of its two children. *)
Definition good (ns : list TreeNode) (j : Z) : Prop :=
  exists l r,
    sel ns (2 * j + 1) = Some l /\ sel ns (2 * j + 2) = Some r /\
    sel ns j = Some (hashNode (append l r) true).

(** The block list after the padding step of [Finalize]. *)
Definition padded (bl : list Block) : list Block :=
  if Z.rem (len bl) 2 =? 0 then bl
  else match list.last bl with
       | Some b => bl ++ [b]
       | None => bl
       end.

(** What a successful [Finalize] leaves in the receiver. *)
Record finalized_shape (bl : list Block) (mt : FlatMerkleTree) : Prop := {
  fs_blocks : blocks mt = padded bl;
  fs_even : exists m, 1 <= m /\ len (blocks mt) = 2 * m;
  fs_len : len (nodes mt) = 2 * len (blocks mt) - 1;
  fs_leaves : forall (i : nat) b, blocks mt !! i = Some b ->
      sel (nodes mt) (len (nodes mt) - len (blocks mt) + Z.of_nat i)
      = Some (hashNode b false);
  fs_internal : forall j, 0 <= j < len (nodes mt) - len (blocks mt) -> good (nodes mt) j;
  fs_root : sel (nodes mt) 0 = Some (root mt);
  fs_finalized : finalized mt = true
}.

(** The position of the first block of [bl] that is byte-equal to [b]. *)
Fixpoint first_match (bl : list Block) (b : Block) : option nat :=
  match bl with
  | [] => None
  | x :: bl' => if bytes_Equal x b then Some 0%nat else S <$> first_match bl' b
  end.

(** [built bl mt]: the tree [mt] was obtained through the exported
    operations, and [bl] is the sequence of blocks given to it, in order
    (the arguments of [NewMerkleTree], then those of the successful
    [Insert] calls).  [RootHash], [Proof] and [Verify] do not write to
    the receiver and need no rule. *)
Inductive built : list Block -> FlatMerkleTree -> Prop :=
| built_new bl : built bl (NewMerkleTree bl)
| built_insert bl mt b mt' :
    built bl mt -> Insert b mt = (Ok tt, mt') -> built (bl ++ [b]) mt'
| built_insert_err bl mt b e mt' :
    built bl mt -> Insert b mt = (Err e, mt') -> built bl mt'
| built_finalize bl mt o mt' :
    built bl mt -> Finalize mt = (o, mt') -> built bl mt'.

(** The content of slot [i]; nil when there is no such slot. *)
Definition slot (ns : list TreeNode) (i : Z) : TreeNode := default None (sel ns i).

(** The siblings met on the first [d] steps from [idx] towards the root,
    each as the copy [Proof] stores. *)
Definition sib_path (ns : list TreeNode) (idx : Z) (d : nat) : list TreeNode :=
  (fun k => copyNode (slot ns (sibling (ancestor k idx)))) <$> seq 0 d.

(** The array index of the leaf of the block at position [k]. *)
Definition leaf_index (mt : FlatMerkleTree) (k : nat) : Z :=
  len (nodes mt) - len (blocks mt) + Z.of_nat k.

(** The walk of the specification: while the index is positive, take the
    sibling ([index - 1] for an even index, [index + 1] for an odd one),
    record a copy of its digest, and move to the parent
    [floor ((index - 1) / 2)].  [bound] is a number of steps that is
    never reached. *)
Fixpoint walk_up (bound : nat) (ns : list TreeNode) (i : Z) : list TreeNode :=
  match bound with
  | O => []
  | S bound' =>
      if 0 <? i
      then copyNode (slot ns (if Z.even i then i - 1 else i + 1))
             :: walk_up bound' ns ((i - 1) / 2)
      else []
  end.

Definition sibling_sequence (ns : list TreeNode) (leaf : Z) : list TreeNode :=
  walk_up (Z.to_nat leaf) ns leaf.

End Spec.

End FlatSpec.

(** ** The vocabulary of the node-graph tree *)

Module GraphSpec.

Import Slices Graph.

Section Spec.

Context {T : Type} {ST : Storable T}.

Variable Sum256 : bytes -> bytes.

(** Two nodes that differ at most in their [Parent] field. *)
Definition same_but_Parent (n n' : Node T) : Prop :=
  Left n = Left n' /\ Right n = Right n' /\ leaf n = leaf n' /\
  dup n = dup n' /\ Hash n = Hash n' /\ Item n = Item n'.

(** [h'] has every node of [h], at the same address, up to [Parent]. *)
Definition extends (h h' : list (Node T)) : Prop :=
  forall p n, h !! p = Some n -> exists n', h' !! p = Some n' /\ same_but_Parent n n'.

(** The hash of [n] is the digest of the bytes that the hashes of its
    two children show in [m], one after the other, with nothing before
    or between them. *)
Definition parent_hash_ok (m : mem) (h : list (Node T)) (n : Node T) : Prop :=
  exists l r nl nr,
    Left n = Some l /\ Right n = Some r /\
    h !! l = Some nl /\ h !! r = Some nr /\
    Hash n = Fresh (Sum256 (view m (Hash nl) ++ view m (Hash nr))).

(** The hash of [n] is the slice that [CalculateHash] returns for its
    item, one of [contents]. *)
Definition leaf_hash_ok (contents : list T) (n : Node T) : Prop :=
  exists c, c ∈ contents /\ Item n = Some c /\ CalculateHash c = Ok (Hash n).

Definition node_ok (contents : list T) (m : mem) (h : list (Node T)) (n : Node T) : Prop :=
  if leaf n then leaf_hash_ok contents n else parent_hash_ok m h n.

Definition heap_ok (contents : list T) (m : mem) (h : list (Node T)) : Prop :=
  forall p n, h !! p = Some n -> node_ok contents m h n.

(** Without the bytes: every leaf holds an item of [contents] and the
    slice that [CalculateHash] returns for it, and every other node has
    its two children. *)
Definition has_children (h : list (Node T)) (n : Node T) : Prop :=
  exists l r nl nr,
    Left n = Some l /\ Right n = Some r /\ h !! l = Some nl /\ h !! r = Some nr.

Definition shape_ok (contents : list T) (h : list (Node T)) : Prop :=
  forall p n, h !! p = Some n ->
    if leaf n then leaf_hash_ok contents n else has_children h n.

(** Every pointer of [ps] points into [h]. *)
Definition valid (h : list (Node T)) (ps : list ptr) : Prop :=
  Forall (fun p => (p < length h)%nat) ps.

(** The hash of the node at [p]; nil when there is no node there. *)
Definition hash_of (h : list (Node T)) (p : ptr) : bslice :=
  match h !! p with
  | Some n => Hash n
  | None => Nil
  end.

(** Children are older than their parent: [Left] and [Right] point to
    lower addresses. *)
Definition ordered (h : list (Node T)) : Prop :=
  forall p n c, h !! p = Some n -> Left n = Some c \/ Right n = Some c -> (c < p)%nat.

(** A [Parent] pointer leads to a node of which the node is a child. *)
Definition parent_ok (h : list (Node T)) : Prop :=
  forall p n q, h !! p = Some n -> Parent n = Some q ->
    exists m, h !! q = Some m /\ leaf m = false /\ (Left m = Some p \/ Right m = Some p).

(** A child of a node has that node as its [Parent]. *)
Definition children_ok (h : list (Node T)) : Prop :=
  forall p n c, h !! p = Some n -> Left n = Some c \/ Right n = Some c ->
    exists nc, h !! c = Some nc /\ Parent nc = Some p.

(** The nodes without parent are exactly those at the addresses [ps]. *)
Definition orphans (h : list (Node T)) (ps : list ptr) : Prop :=
  forall p n, h !! p = Some n -> (Parent n = None <-> p ∈ ps).

(** *** The hashes, without the nodes *)

(** What one round of the loop of [buildIntermediate] does to the
    arrays, and the hash of the parent it makes, from the hashes of the
    two nodes. *)
Definition pair_step (m : mem) (a b : bslice) : bslice * mem :=
  let r := bappend a b m in
  (Fresh (Sum256 (view (snd r) (fst r))), snd r).

(** One level: the hashes are taken two by two, in order, and a last
    one without neighbour with itself; each round sees the arrays as
    the rounds before it left them. *)
Fixpoint level_run (m : mem) (hs : list bslice) : list bslice * mem :=
  match hs with
  | [] => ([], m)
  | a :: tl =>
      match tl with
      | [] => ([fst (pair_step m a a)], snd (pair_step m a a))
      | b :: rest =>
          let r := level_run (snd (pair_step m a b)) rest in
          (fst (pair_step m a b) :: fst r, snd r)
      end
  end.

(** The levels: a level of two gives the root, any other level is
    replaced by the level of its parents.  [fuel] bounds the number of
    levels. *)
Fixpoint root_run (fuel : nat) (m : mem) (hs : list bslice) : bslice * mem :=
  match fuel with
  | O => (Nil, m)
  | S fuel' =>
      match hs with
      | [a; b] => pair_step m a b
      | _ => root_run fuel' (snd (level_run m hs)) (fst (level_run m hs))
      end
  end.

(** The same on bytes, for hashes that never change: the digests of
    the parents of one level, and the root. *)
Fixpoint pair_hashes (hs : list bytes) : list bytes :=
  match hs with
  | [] => []
  | a :: tl =>
      match tl with
      | [] => [Sum256 (a ++ a)]
      | b :: rest => Sum256 (a ++ b) :: pair_hashes rest
      end
  end.

Fixpoint merkle_root (fuel : nat) (hs : list bytes) : bytes :=
  match fuel with
  | O => []
  | S fuel' =>
      match hs with
      | [a; b] => Sum256 (a ++ b)
      | _ => merkle_root fuel' (pair_hashes hs)
      end
  end.

(** The hash of an item; nil when [CalculateHash] fails. *)
Definition item_hash (c : T) : bslice :=
  match CalculateHash c with
  | Ok s => s
  | _ => Nil
  end.

(** The hashes of the leaves of a tree over [contents]: one for each
    item, and the last one once more when their number is odd. *)
Definition leaf_hashes (contents : list T) : list bslice :=
  let hs := map item_hash contents in
  if Z.rem (len hs) 2 =? 1
  then match list.last hs with
       | Some s => hs ++ [s]
       | None => hs
       end
  else hs.

(** No hash of [contents] has room after it. *)
Definition tight_items (contents : list T) : Prop :=
  forall c, c ∈ contents -> tight (item_hash c).

(** *** The heap during the loop of [buildIntermediate] *)

(** The nodes after one round on the nodes at [pl] and [pr], whose
    parent gets the hash [d]: a new parent at the end, and the two
    nodes pointing to it. *)
Definition link_step (h : list (Node T)) (pl pr : ptr) (d : bslice) : list (Node T) :=
  let n := length h in
  alter (with_Parent n) pr
    (alter (with_Parent n) pl (h ++ [mkNode (Some pl) (Some pr) None false false d None])).

(** The arrays and the nodes after one round. *)
Definition level_step (w : mem * list (Node T)) (pl pr : ptr) : mem * list (Node T) :=
  let r := pair_step (fst w) (hash_of (snd w) pl) (hash_of (snd w) pr) in
  (snd r, link_step (snd w) pl pr (fst r)).

(** The state of the loop of [buildIntermediate] over the level [leaves],
    which was entered with the arrays [m0], a heap of [base] nodes and
    the hashes [hs]: at index [i], with the parents [nodes] made so
    far. *)
Record level_inv (leaves : list ptr) (m0 : mem) (base : nat) (hs : list bslice)
    (i : Z) (nodes : list ptr) (w : mem * list (Node T)) : Prop := {
  li_even : Z.even i = true;
  li_range : 0 <= i <= len leaves + 1;
  li_base : (base <= length (snd w))%nat;
  li_leaves : Forall (fun p => (p < base)%nat) leaves;
  li_nodes : Forall (fun p => (base <= p < length (snd w))%nat) nodes;
  li_nodup_leaves : NoDup leaves;
  li_nodup_nodes : NoDup nodes;
  li_ordered : ordered (snd w);
  li_parent : parent_ok (snd w);
  li_children : children_ok (snd w);
  li_orphans : orphans (snd w) (drop (Z.to_nat i) leaves ++ nodes);
  li_hs : map (hash_of (snd w)) leaves = hs;
  li_run : level_run m0 (take (Z.to_nat i) hs) = (map (hash_of (snd w)) nodes, fst w)
}.

(** The state when no hash has room after it: the arrays are still
    [m0], and the hashes of the heap are in order. *)
Record tight_inv (contents : list T) (m0 : mem) (w : mem * list (Node T)) : Prop := {
  ti_mem : fst w = m0;
  ti_heap : heap_ok contents m0 (snd w);
  ti_tight : forall p n, snd w !! p = Some n -> tight (Hash n)
}.

(** The leaf that [buildTree] makes for the item [c], and the copy it
    makes of the last leaf when the number of items is odd. *)
Definition leaf_node (c : T) : Node T :=
  mkNode None None None true false (item_hash c) (Some c).

Definition dup_node (c : T) : Node T :=
  mkNode None None None true true (item_hash c) (Some c).

(** The heap when [buildTree] calls [buildIntermediate], on a heap that
    was empty: the leaves in the order of the items, then the copy. *)
Definition leaf_heap (contents : list T) : list (Node T) :=
  map leaf_node contents ++
  (if Z.rem (len contents) 2 =? 1
   then match list.last contents with
        | Some c => [dup_node c]
        | None => []
        end
   else []).

(** Two heaps with the same tree: the same nodes with the same
    children, the same [leaf] flag and the same item; the hashes and
    whatever else they hold may differ. *)
Definition same_tree (h h' : list (Node T)) : Prop :=
  length h' = length h /\
  forall p n, h !! p = Some n ->
    exists n', h' !! p = Some n' /\
      Left n' = Left n /\ Right n' = Right n /\ leaf n' = leaf n /\ Item n' = Item n.

End Spec.

End GraphSpec.

(** ** More of the flat engine: [String], and what callers do *)

Module FlatMore.

Import Flat.

(** The method [String]: ["0x"] and the hexadecimal root hash, or the
    empty string when [RootHash] fails. *)
Definition String (mt : FlatMerkleTree) : string :=
  match RootHash mt with
  | Ok rh => ("0x" ++ hex_EncodeToString (content rh))%string
  | _ => EmptyString
  end.

(** A caller that inserts the blocks of [bs] one after the other and
    stops at the first error. *)
Fixpoint Insert_each (bs : list Block) : M unit :=
  match bs with
  | [] => ret tt
  | b :: bs' => bind (Insert b) (fun _ => Insert_each bs')
  end.

Section Digests.

Variable Sum256 : bytes -> bytes.

(** The digest that belongs in slot [i] of the node array of a tree over
    the (padded) blocks [bl]: the leaf digest of the block of a leaf slot,
    the internal digest of the two children otherwise.  [fuel] bounds the
    depth. *)
Fixpoint digest_at (fuel : nat) (bl : list Block) (i : Z) : TreeNode :=
  match fuel with
  | O => None
  | S fuel' =>
      if 2 * i + 1 <? 2 * len bl - 1
      then hashNode Sum256
             (append (digest_at fuel' bl (2 * i + 1)) (digest_at fuel' bl (2 * i + 2)))
             true
      else hashNode Sum256 (default None (bl !! Z.to_nat (i - (len bl - 1)))) false
  end.

(** The root digest as a function of the blocks given to the tree. *)
Definition root_digest (bl : list Block) : TreeNode :=
  digest_at (Z.to_nat (2 * len (FlatSpec.padded bl))) (FlatSpec.padded bl) 0.

(** What a holder of a proof computes, without the tree: starting from a
    digest [cur] at index [idx], each entry is hashed with the running
    digest, on the left for an even index and on the right for an odd one,
    as [Verify] does. *)
Fixpoint reconstruct (cur : TreeNode) (idx : Z) (proof : list TreeNode) : TreeNode :=
  match proof with
  | [] => cur
  | e :: rest =>
      let next :=
        if Z.rem idx 2 =? 0
        then hashNode Sum256 (append e cur) true
        else hashNode Sum256 (append cur e) true in
      reconstruct next (Z.quot (idx - 1) 2) rest
  end.

End Digests.

End FlatMore.

(** ** More of the node-graph tree: [VerifyNode] *)

Module GraphMore.

Import Slices Graph.

Section Builder.

Context {T : Type} {ST : Storable T}.

Variable Sum256 : bytes -> bytes.

(** [VerifyNode], of the revision of [merkletree.go] that is kept in
    [merkletree_test.go]: there every node is created with [Tree: t],
    and [n.Tree.hashFunc] is [sha256.New], the parameter [Sum256] here.
    The receiver is the pointer [p] into the nodes [h]; the call reads
    the nodes and may write to the arrays, through [append].  [fuel]
    bounds the depth of the recursion. *)
Fixpoint VerifyNode (fuel : nat) (h : list (Node T)) (p : ptr) (m : mem)
  : outcome bslice * mem :=
  match fuel with
  | O => (Crash OutOfFuel, m)
  | S fuel' =>
      match h !! p with
      | None => (Crash NilDereference, m)
      | Some n =>
          if leaf n then
            match Item n with
            | Some c => (CalculateHash c, m)
            | None => (Crash NilDereference, m)
            end
          else
            match Left n with
            | None => (Crash NilDereference, m)
            | Some l =>
                match VerifyNode fuel' h l m with
                | (Ok leftBytes, m1) =>
                    match Right n with
                    | None => (Crash NilDereference, m1)
                    | Some r =>
                        match VerifyNode fuel' h r m1 with
                        | (Ok rightBytes, m2) =>
                            let a := bappend leftBytes rightBytes m2 in
                            (Ok (Fresh (Sum256 (view (snd a) (fst a)))), snd a)
                        | (Err e, m2) => (Err e, m2)
                        | (Crash c, m2) => (Crash c, m2)
                        end
                    end
                | (Err e, m1) => (Err e, m1)
                | (Crash c, m1) => (Crash c, m1)
                end
            end
      end
  end.

End Builder.

End GraphMore.

(** ** Items whose hash can fail *)

Module GraphMoreTest.

Import Slices.

(** An item with a text has the digest of the text as its hash; an item
    without text has none. *)
#[export] Instance option_Storable : Graph.Storable (option string) := {
  CalculateHash t :=
    match t with
    | Some s => Ok (Fresh (SHA256.Sum256 (list_byte_of_string s)))
    | None => Err (Errorf "item without text" [])
    end;
  Equals t other :=
    match t, other with
    | Some a, Some b => Ok (String.eqb a b)
    | None, None => Ok true
    | _, _ => Ok false
    end
}.

End GraphMoreTest.

(** ** Facts about the Go values *)

Module GoFacts.

Lemma byte_eqb_refl (b : byte) : byte_eqb b b = true.
Proof. unfold byte_eqb. apply Byte.byte_dec_lb. reflexivity. Qed.

Lemma bytes_eqb_refl (l : bytes) : bytes_eqb l l = true.
Proof. induction l as [|b l IH]; simpl; [reflexivity|]. now rewrite byte_eqb_refl, IH. Qed.

Lemma bytes_eqb_eq (a b : bytes) : bytes_eqb a b = true <-> a = b.
Proof.
  split; [|intros ->; apply bytes_eqb_refl].
  revert b; induction a as [|x a IH]; intros [|y b]; simpl; try congruence.
  intros [Hxy Hab]%andb_true_iff. apply Byte.byte_dec_bl in Hxy.
  f_equal; [exact Hxy | now apply IH].
Qed.

Lemma bytes_Equal_content (a b : slice) :
  bytes_Equal a b = true <-> content a = content b.
Proof. unfold bytes_Equal. apply bytes_eqb_eq. Qed.

Lemma content_append (a b : slice) : content (append a b) = content a ++ content b.
Proof. destruct a as [a|], b as [[|y b]|]; reflexivity. Qed.

Lemma len_nonneg {A : Type} (l : list A) : 0 <= len l.
Proof. unfold len. lia. Qed.

Lemma len_app {A : Type} (l k : list A) : len (l ++ k) = len l + len k.
Proof. unfold len. rewrite length_app. lia. Qed.

Lemma len_make_nil (n : Z) : 0 <= n -> len (make_nil n) = n.
Proof. intros Hn. unfold len, make_nil. rewrite length_replicate. lia. Qed.

Lemma index_Ok_iff {A : Type} (l : list A) (i : Z) (x : A) :
  index l i = Ok x <-> 0 <= i /\ l !! Z.to_nat i = Some x.
Proof.
  unfold index. split.
  - destruct (0 <=? i) eqn:H0; simpl; [|discriminate].
    destruct (i <? len l); [|discriminate].
    destruct (l !! Z.to_nat i); intros [= ->]. split; [lia | reflexivity].
  - intros [H0 Hx]. pose proof (lookup_lt_Some _ _ _ Hx) as Hlt.
    replace (0 <=? i) with true by lia.
    replace (i <? len l) with true by (unfold len; lia).
    simpl. now rewrite Hx.
Qed.

Lemma index_in_range {A : Type} (l : list A) (i : Z) :
  0 <= i < len l -> exists x, index l i = Ok x.
Proof.
  intros Hi. destruct (lookup_lt_is_Some_2 l (Z.to_nat i)) as [x Hx].
  { unfold len in Hi. lia. }
  exists x. apply index_Ok_iff. split; [lia | exact Hx].
Qed.

Lemma index_not_Err {A : Type} (l : list A) (i : Z) (e : error) : index l i <> Err e.
Proof.
  unfold index. destruct (_ && _); [|discriminate].
  destruct (l !! Z.to_nat i); discriminate.
Qed.

Lemma store_in_range {A : Type} (l : list A) (i : Z) (x : A) :
  0 <= i < len l -> store l i x = Ok (<[Z.to_nat i := x]> l).
Proof.
  intros Hi. unfold store.
  replace (0 <=? i) with true by lia. replace (i <? len l) with true by lia.
  reflexivity.
Qed.

Lemma store_not_Err {A : Type} (l : list A) (i : Z) (x : A) (e : error) :
  store l i x <> Err e.
Proof. unfold store. destruct (_ && _); discriminate. Qed.

Lemma rem2_mod (n : Z) : 0 <= n -> Z.rem n 2 = n mod 2.
Proof. intros Hn. apply Z.rem_mod_nonneg; lia. Qed.

Lemma index_last {A : Type} (l : list A) (x : A) :
  list.last l = Some x -> index l (len l - 1) = Ok x.
Proof.
  intros Hl. apply index_Ok_iff.
  assert (length l <> 0%nat) by (destruct l; [discriminate | simpl; lia]).
  split; [unfold len; lia|].
  rewrite last_lookup in Hl. rewrite <- Hl. f_equal. unfold len. lia.
Qed.

End GoFacts.

(** ** Facts about the implicit binary tree *)

Module ShapeFacts.

Import Shape.

Lemma parent_root : parent 0 = 0.
Proof. reflexivity. Qed.

Lemma parent_left (i : Z) : 0 <= i -> parent (2 * i + 1) = i.
Proof. intros Hi. unfold parent. replace (2 * i + 1 - 1) with (i * 2) by lia.
  apply Z.quot_mul. lia. Qed.

Lemma parent_right (i : Z) : 0 <= i -> parent (2 * i + 2) = i.
Proof.
  intros Hi. unfold parent. rewrite Z.quot_div_nonneg by lia.
  symmetry. apply Z.div_unique with (r := 1); lia.
Qed.

Lemma parent_bounds (i : Z) : 0 <= i -> 0 <= parent i <= i.
Proof.
  intros Hi. destruct (Z.eq_dec i 0) as [->|Hne]; [rewrite parent_root; lia|].
  unfold parent. rewrite Z.quot_div_nonneg by lia.
  split; [apply Z.div_pos; lia|].
  apply Z.le_trans with (i - 1); [|lia]. apply Z.div_le_upper_bound; lia.
Qed.

Lemma parent_lt (i : Z) : 0 < i -> parent i < i.
Proof.
  intros Hi. unfold parent. rewrite Z.quot_div_nonneg by lia.
  apply Z.div_lt_upper_bound; lia.
Qed.

Lemma parent_inv (m i : Z) :
  0 <= m -> parent m = i -> m = 2 * i + 1 \/ m = 2 * i + 2 \/ (m = 0 /\ i = 0).
Proof.
  intros Hm <-. destruct (Z.eq_dec m 0) as [->|Hne]; [right; right; split; reflexivity|].
  unfold parent. rewrite Z.quot_div_nonneg by lia.
  pose proof (Z.div_mod (m - 1) 2 ltac:(lia)) as Hdm.
  pose proof (Z.mod_pos_bound (m - 1) 2 ltac:(lia)). lia.
Qed.

Lemma ancestor_S (k : nat) (j : Z) : ancestor (S k) j = parent (ancestor k j).
Proof. reflexivity. Qed.

Lemma ancestor_S_r (k : nat) (j : Z) : ancestor (S k) j = ancestor k (parent j).
Proof. unfold ancestor. apply Nat.iter_succ_r. Qed.

Lemma ancestor_bounds (k : nat) (j : Z) : 0 <= j -> 0 <= ancestor k j <= j.
Proof.
  intros Hj. induction k as [|k IH]; [simpl; lia|].
  rewrite ancestor_S. pose proof (parent_bounds (ancestor k j)). lia.
Qed.

Lemma ancestor_add (a b : nat) (j : Z) :
  ancestor (a + b) j = ancestor a (ancestor b j).
Proof. unfold ancestor. apply Nat.iter_add. Qed.

Lemma desc_refl (i : Z) : desc i i.
Proof. now exists 0%nat. Qed.

Lemma desc_le (i j : Z) : 0 <= j -> desc i j -> 0 <= i <= j.
Proof. intros Hj [k <-]. now apply ancestor_bounds. Qed.

Lemma desc_left (i j : Z) : 0 <= j -> desc i j -> desc i (2 * j + 1).
Proof.
  intros Hj [k Hk]. exists (S k). now rewrite ancestor_S_r, parent_left.
Qed.

Lemma desc_right (i j : Z) : 0 <= j -> desc i j -> desc i (2 * j + 2).
Proof.
  intros Hj [k Hk]. exists (S k). now rewrite ancestor_S_r, parent_right.
Qed.

Lemma desc_from_left (i j : Z) : 0 <= i -> desc (2 * i + 1) j -> desc i j.
Proof.
  intros Hi [k Hk]. exists (S k). now rewrite ancestor_S, Hk, parent_left.
Qed.

Lemma desc_from_right (i j : Z) : 0 <= i -> desc (2 * i + 2) j -> desc i j.
Proof.
  intros Hi [k Hk]. exists (S k). now rewrite ancestor_S, Hk, parent_right.
Qed.

Lemma desc_root (j : Z) : 0 <= j -> desc 0 j.
Proof.
  intros Hj. exists (Z.to_nat j).
  assert (H : forall n j, 0 <= j <= Z.of_nat n -> ancestor n j = 0).
  { clear. induction n as [|n IH]; intros j Hj.
    - simpl. lia.
    - rewrite ancestor_S_r. apply IH.
      destruct (Z.eq_dec j 0) as [->|Hne]; [rewrite parent_root; lia|].
      pose proof (parent_bounds j). pose proof (parent_lt j). lia. }
  apply H. lia.
Qed.

(** A descendant of [i] is [i] itself or lies below one of its children. *)
Lemma desc_cases (i j : Z) :
  0 <= j -> desc i j -> j = i \/ desc (2 * i + 1) j \/ desc (2 * i + 2) j.
Proof.
  intros Hj [k Hk]. revert Hk. induction k as [|k IH]; intros Hk.
  - left. simpl in Hk. congruence.
  - rewrite ancestor_S in Hk.
    pose proof (ancestor_bounds k j Hj) as Hb.
    destruct (parent_inv _ _ (proj1 Hb) Hk) as [Hm|[Hm|[Hm Hi]]].
    + right; left. now exists k.
    + right; right. now exists k.
    + apply IH. congruence.
Qed.

(** The two subtrees below an index are disjoint. *)
Lemma desc_disjoint (i j : Z) :
  0 <= i -> 0 <= j -> desc (2 * i + 1) j -> desc (2 * i + 2) j -> False.
Proof.
  intros Hi Hj [a Ha] [b Hb].
  destruct (Nat.le_gt_cases a b) as [Hab|Hab].
  - replace b with ((b - a) + a)%nat in Hb by lia.
    rewrite ancestor_add, Ha in Hb.
    pose proof (ancestor_bounds (b - a) (2 * i + 1)). lia.
  - replace a with (S (a - S b) + b)%nat in Ha by lia.
    rewrite ancestor_add, Hb, ancestor_S_r, parent_right in Ha by lia.
    pose proof (ancestor_bounds (a - S b) i). lia.
Qed.

End ShapeFacts.

(** ** Facts about the flat engine *)

Module FlatFacts.

Import Flat Shape FlatSpec GoFacts ShapeFacts.

Section Engine.

Variable Sum256 : bytes -> bytes.

Local Abbreviation hashNode := (Flat.hashNode Sum256).
Local Abbreviation finalize := (Flat.finalize Sum256).
Local Abbreviation fill_leaves := (Flat.fill_leaves Sum256).
Local Abbreviation Finalize := (Flat.Finalize Sum256).
Local Abbreviation Verify := (Flat.Verify Sum256).
Local Abbreviation verify_loop := (Flat.verify_loop Sum256).
Local Abbreviation good := (FlatSpec.good Sum256).
Local Abbreviation finalized_shape := (FlatSpec.finalized_shape Sum256).
Local Abbreviation built := (FlatSpec.built Sum256).
Local Abbreviation fs_blocks := (FlatSpec.fs_blocks Sum256).
Local Abbreviation fs_even := (FlatSpec.fs_even Sum256).
Local Abbreviation fs_len := (FlatSpec.fs_len Sum256).
Local Abbreviation fs_leaves := (FlatSpec.fs_leaves Sum256).
Local Abbreviation fs_internal := (FlatSpec.fs_internal Sum256).
Local Abbreviation fs_root := (FlatSpec.fs_root Sum256).
Local Abbreviation fs_finalized := (FlatSpec.fs_finalized Sum256).

Lemma sel_index (ns : list TreeNode) (i : Z) (x : TreeNode) :
  0 <= i -> sel ns i = Some x -> index ns i = Ok x.
Proof. intros Hi Hx. apply index_Ok_iff. now split. Qed.

Lemma sel_insert_eq (ns : list TreeNode) (i : Z) (x : TreeNode) :
  0 <= i < len ns -> sel (<[Z.to_nat i := x]> ns) i = Some x.
Proof. intros Hi. unfold sel. apply list_lookup_insert_eq. unfold len in Hi. lia. Qed.

Lemma sel_insert_ne (ns : list TreeNode) (i j : Z) (x : TreeNode) :
  0 <= i -> 0 <= j -> i <> j -> sel (<[Z.to_nat i := x]> ns) j = sel ns j.
Proof. intros Hi Hj Hne. unfold sel. apply list_lookup_insert_ne. lia. Qed.

Lemma len_insert (ns : list TreeNode) (i : nat) (x : TreeNode) :
  len (<[i := x]> ns) = len ns.
Proof. unfold len. now rewrite length_insert. Qed.

Lemma sel_is_Some (ns : list TreeNode) (i : Z) :
  0 <= i < len ns -> exists x, sel ns i = Some x.
Proof.
  intros Hi. destruct (lookup_lt_is_Some_2 ns (Z.to_nat i)) as [x Hx].
  { unfold len in Hi. lia. }
  now exists x.
Qed.

Lemma read_node_sel (mt : FlatMerkleTree) (i : Z) (x : TreeNode) :
  0 <= i -> sel (nodes mt) i = Some x -> read_node i mt = (Ok x, mt).
Proof. intros Hi Hx. unfold read_node. now rewrite (sel_index _ _ _ Hi Hx). Qed.

Lemma write_node_in_range (mt : FlatMerkleTree) (i : Z) (x : TreeNode) :
  0 <= i < len (nodes mt) ->
  write_node i x mt = (Ok tt, set_nodes (<[Z.to_nat i := x]> (nodes mt)) mt).
Proof. intros Hi. unfold write_node. now rewrite store_in_range. Qed.

Lemma set_nodes_set_nodes (a b : list TreeNode) (mt : FlatMerkleTree) :
  set_nodes a (set_nodes b mt) = set_nodes a mt.
Proof. reflexivity. Qed.

Lemma set_nodes_id (mt : FlatMerkleTree) : set_nodes (nodes mt) mt = mt.
Proof. now destruct mt. Qed.

(** The recursion [finalize idx], run on an array of odd length with enough
    fuel, returns the digest it leaves in slot [idx]; it writes only below
    [idx], never to a leaf slot, and leaves every internal slot of the
    subtree holding the digest of its children. *)
Lemma finalize_spec (n : Z) (fuel : nat) :
  forall (idx : Z) (mt : FlatMerkleTree),
    len (nodes mt) = 2 * n - 1 ->
    0 <= idx < len (nodes mt) ->
    len (nodes mt) - idx <= Z.of_nat fuel ->
    exists x ns',
      finalize fuel idx mt = (Ok x, set_nodes ns' mt) /\
      len ns' = len (nodes mt) /\
      sel ns' idx = Some x /\
      (forall j, 0 <= j -> ~ desc idx j -> sel ns' j = sel (nodes mt) j) /\
      (forall j, 0 <= j -> len (nodes mt) <= 2 * j + 1 -> sel ns' j = sel (nodes mt) j) /\
      (forall j, 0 <= j -> desc idx j -> 2 * j + 1 < len (nodes mt) -> good ns' j).
Proof.
  induction fuel as [|fuel IH]; intros idx mt Hn Hidx Hfuel; [lia|].
  cbn [Flat.finalize]. unfold bind at 1, get at 1.
  unfold hasChild.
  destruct (2 * idx + 1 <? len (nodes mt)) eqn:Hl; cycle 1.
  - (* no child *)
    replace (2 * idx + 2 <? len (nodes mt)) with false by lia. cbn [orb negb].
    destruct (sel_is_Some (nodes mt) idx Hidx) as [x Hx].
    exists x, (nodes mt). rewrite set_nodes_id.
    split; [apply read_node_sel; [lia | exact Hx]|].
    repeat split; try reflexivity; try exact Hx.
    intros j Hj Hd Hin. apply (desc_le _ _ Hj) in Hd. lia.
  - cbn [orb negb].
    assert (Hr : 2 * idx + 2 < len (nodes mt)) by lia.
    destruct (IH (2 * idx + 1) mt Hn ltac:(lia) ltac:(lia))
      as (l & ns1 & E1 & Hlen1 & Hl1 & Hout1 & Hleaf1 & Hgood1).
    unfold bind at 1. rewrite E1.
    destruct (IH (2 * idx + 2) (set_nodes ns1 mt)) as (r & ns2 & E2 & Hlen2 & Hr2 & Hout2 & Hleaf2 & Hgood2);
      cbn [nodes set_nodes]; try lia.
    cbn [nodes set_nodes] in *.
    unfold bind at 1. rewrite E2, set_nodes_set_nodes.
    unfold bind at 1. rewrite write_node_in_range by (cbn [nodes set_nodes]; lia).
    cbn [nodes set_nodes]. rewrite set_nodes_set_nodes.
    set (h := hashNode (append l r) true).
    set (ns3 := <[Z.to_nat idx := h]> ns2).
    assert (Hh : sel ns3 idx = Some h) by (apply sel_insert_eq; lia).
    exists h, ns3. split; [apply read_node_sel; [lia | exact Hh]|].
    assert (Hkeep1 : forall j, 0 <= j -> desc (2 * idx + 1) j -> sel ns3 j = sel ns1 j).
    { intros j Hj Hd. pose proof (desc_le _ _ Hj Hd).
      unfold ns3. rewrite sel_insert_ne by lia. apply Hout2; [lia|].
      intros Hd2. exact (desc_disjoint idx j ltac:(lia) Hj Hd Hd2). }
    assert (Hkeep2 : forall j, 0 <= j -> desc (2 * idx + 2) j -> sel ns3 j = sel ns2 j).
    { intros j Hj Hd. pose proof (desc_le _ _ Hj Hd).
      unfold ns3. now rewrite sel_insert_ne by lia. }
    split; [unfold ns3; rewrite len_insert; lia|].
    split; [exact Hh|].
    split; [|split].
    + intros j Hj Hnd.
      assert (j <> idx) by (intros ->; apply Hnd, desc_refl).
      unfold ns3. rewrite sel_insert_ne by lia.
      rewrite Hout2, Hout1; auto.
      * intros Hd. apply Hnd. apply desc_from_left; [lia | exact Hd].
      * intros Hd. apply Hnd. apply desc_from_right; [lia | exact Hd].
    + intros j Hj Hleaf.
      unfold ns3. rewrite sel_insert_ne by lia.
      rewrite Hleaf2, Hleaf1; auto; lia.
    + intros j Hj Hd Hin.
      destruct (desc_cases _ _ Hj Hd) as [->|[Hd1|Hd2]].
      * exists l, r. repeat split.
        -- rewrite Hkeep1; [exact Hl1 | lia | apply desc_refl].
        -- rewrite Hkeep2; [exact Hr2 | lia | apply desc_refl].
        -- exact Hh.
      * destruct (Hgood1 j Hj Hd1 Hin) as (a & b & Ha & Hb & Hab).
        exists a, b. rewrite !Hkeep1; auto using desc_left, desc_right; lia.
      * destruct (Hgood2 j Hj Hd2 ltac:(lia)) as (a & b & Ha & Hb & Hab).
        exists a, b. rewrite !Hkeep2; auto using desc_left, desc_right; lia.
Qed.

Lemma len_padded (bl : list Block) :
  bl <> [] -> exists m, 1 <= m /\ len (padded bl) = 2 * m.
Proof.
  intros Hne. unfold padded.
  assert (Hpos : 1 <= len bl) by (destruct bl; [congruence | unfold len; simpl; lia]).
  pose proof (rem2_mod (len bl) ltac:(lia)) as Hrem. rewrite Hrem.
  pose proof (Z.div_mod (len bl) 2 ltac:(lia)) as Hdm.
  pose proof (Z.mod_pos_bound (len bl) 2 ltac:(lia)) as Hmb.
  destruct (len bl mod 2 =? 0) eqn:He.
  - exists (len bl / 2). lia.
  - destruct (list.last bl) as [b|] eqn:Hl.
    + exists (len bl / 2 + 1). rewrite len_app. change (len [b]) with 1. lia.
    + apply last_None in Hl. congruence.
Qed.

Lemma fill_leaves_spec (bs : list Block) :
  forall (j : Z) (mt : FlatMerkleTree),
    0 <= j -> j + len bs <= len (nodes mt) ->
    exists ns',
      fill_leaves bs j mt = (Ok tt, set_nodes ns' mt) /\
      len ns' = len (nodes mt) /\
      (forall (i : nat) b, bs !! i = Some b ->
         sel ns' (j + Z.of_nat i) = Some (hashNode b false)) /\
      (forall i, 0 <= i < j -> sel ns' i = sel (nodes mt) i).
Proof.
  induction bs as [|b bs IH]; intros j mt Hj Hlen.
  - exists (nodes mt). rewrite set_nodes_id.
    split; [reflexivity|]. split; [reflexivity|]. split; [|reflexivity].
    intros i b Hi. discriminate.
  - change (len (b :: bs)) with (Z.of_nat (S (length bs))) in Hlen.
    assert (Hlen' : j + 1 + len bs <= len (nodes mt)) by (unfold len in *; lia).
    cbn [Flat.fill_leaves]. unfold bind at 1.
    rewrite write_node_in_range by (pose proof (len_nonneg bs); lia).
    destruct (IH (j + 1) (set_nodes (<[Z.to_nat j := hashNode b false]> (nodes mt)) mt))
      as (ns' & E & Hl & Hleaf & Hlow); cbn [nodes set_nodes]; rewrite ?len_insert; try lia.
    cbn [nodes set_nodes] in *. rewrite len_insert in Hl.
    exists ns'. rewrite E, set_nodes_set_nodes.
    split; [reflexivity|]. split; [exact Hl|]. split.
    + intros [|i] x Hx.
      * injection Hx as <-. rewrite Z.add_0_r, Hlow by lia.
        apply sel_insert_eq. pose proof (len_nonneg bs). lia.
      * replace (j + Z.of_nat (S i)) with (j + 1 + Z.of_nat i) by lia.
        now apply Hleaf.
    + intros i Hi. rewrite Hlow by lia. apply sel_insert_ne; lia.
Qed.

Lemma Finalize_ok (mt : FlatMerkleTree) :
  blocks mt <> [] -> finalized mt = false ->
  exists mt', Finalize mt = (Ok tt, mt') /\ finalized_shape (blocks mt) mt'.
Proof.
  intros Hne Hfin.
  destruct (len_padded _ Hne) as (m & Hm & Hpad).
  assert (Hpos : 1 <= len (blocks mt)).
  { destruct (blocks mt); [congruence | unfold len; simpl; lia]. }
  unfold Flat.Finalize. unfold bind at 1, get at 1.
  replace (len (blocks mt) =? 0) with false by lia. rewrite Hfin.
  unfold bind at 1.
  assert (Epad : (if negb (Z.rem (len (blocks mt)) 2 =? 0)
          then (let* last := lift (index (blocks mt) (len (blocks mt) - 1)) in
                modify (set_blocks (blocks mt ++ [last])))%go
          else ret tt) mt = (Ok tt, set_blocks (padded (blocks mt)) mt)).
  { unfold padded. destruct (Z.rem (len (blocks mt)) 2 =? 0); cbn [negb].
    - unfold ret. f_equal. now destruct mt.
    - destruct (list.last (blocks mt)) as [b|] eqn:Hl.
      + unfold bind, lift. now rewrite (index_last _ _ Hl).
      + apply last_None in Hl. congruence. }
  rewrite Epad. clear Epad.
  set (bl := padded (blocks mt)) in *.
  unfold bind at 1, get at 1. unfold bind at 1, modify at 1.
  unfold bind at 1, get at 1. cbn [blocks nodes set_nodes set_blocks].
  rewrite len_make_nil by lia.
  destruct (fill_leaves_spec bl (2 * len bl - 1 - len bl)
              (set_nodes (make_nil (2 * len bl - 1)) (set_blocks bl mt)))
    as (ns1 & E1 & Hl1 & Hleaf1 & _);
    cbn [nodes set_nodes]; rewrite ?len_make_nil; try lia.
  cbn [nodes set_nodes] in *. rewrite len_make_nil in Hl1 by lia.
  unfold bind at 1. rewrite E1, set_nodes_set_nodes.
  unfold bind at 1, get at 1. cbn [nodes set_nodes].
  destruct (finalize_spec (len bl) (length ns1) 0 (set_nodes ns1 (set_blocks bl mt)))
    as (r & ns2 & E2 & Hl2 & Hr2 & _ & Hleaf2 & Hgood2);
    cbn [nodes set_nodes]; try (unfold len in *; lia).
  cbn [nodes set_nodes] in *.
  unfold bind at 1. rewrite E2, set_nodes_set_nodes.
  unfold bind, modify, ret.
  eexists. split; [reflexivity|].
  constructor; cbn [blocks nodes root finalized set_blocks set_nodes set_root set_finalized].
  - reflexivity.
  - exists m. split; [exact Hm | exact Hpad].
  - lia.
  - intros i b Hb. rewrite Hl2, Hl1.
    pose proof (lookup_lt_Some _ _ _ Hb) as Hlt.
    rewrite Hleaf2 by (unfold len in *; lia).
    now apply Hleaf1.
  - intros j Hj. apply Hgood2; [lia | apply desc_root; lia | lia].
  - exact Hr2.
  - reflexivity.
Qed.

Lemma Insert_cases (b : Block) (mt : FlatMerkleTree) :
  Insert b mt =
    if is_nil b then (Err ErrNilBlock, mt)
    else if finalized mt then (Err ErrTreeAlreadyFinalized, mt)
    else (Ok tt, set_blocks (blocks mt ++ [b]) mt).
Proof.
  unfold Insert. destruct (is_nil b); [reflexivity|].
  unfold bind, get. now destruct (finalized mt).
Qed.

Lemma Finalize_empty (mt : FlatMerkleTree) :
  blocks mt = [] ->
  Finalize mt = (Err (Errorf "Failed to finalize: %s" [ArgErr ErrEmptyMerkleTree]), mt).
Proof. intros H. unfold Flat.Finalize, bind, get. now rewrite H. Qed.

Lemma Finalize_again (mt : FlatMerkleTree) :
  blocks mt <> [] -> finalized mt = true ->
  Finalize mt = (Err ErrTreeAlreadyFinalized, mt).
Proof.
  intros Hne Hf. unfold Flat.Finalize, bind, get.
  replace (len (blocks mt) =? 0) with false.
  - now rewrite Hf.
  - destruct (blocks mt); [congruence | unfold len; simpl; lia].
Qed.

Lemma padded_nonempty (bl : list Block) : bl <> [] -> padded bl <> [].
Proof.
  intros Hne Hp. destruct (len_padded bl Hne) as (m & Hm & Hl).
  rewrite Hp in Hl. change (len []) with 0 in Hl. lia.
Qed.

(** A tree obtained through the exported operations is either still
    being built, and then it is [NewMerkleTree] of its blocks, or it is
    the result of the one successful [Finalize]. *)
Lemma built_inv (bl : list Block) (mt : FlatMerkleTree) :
  built bl mt ->
  (finalized mt = false /\ mt = NewMerkleTree bl) \/
  (finalized mt = true /\ bl <> [] /\ Finalize (NewMerkleTree bl) = (Ok tt, mt)).
Proof.
  induction 1 as [bl | bl mt b mt' _ IH HI | bl mt b e mt' _ IH HI | bl mt o mt' _ IH HF].
  - left. split; reflexivity.
  - rewrite Insert_cases in HI. destruct (is_nil b); [discriminate|].
    destruct IH as [[Hf ->]|[Hf _]]; rewrite Hf in HI; [|discriminate].
    injection HI as <-. left. split; reflexivity.
  - rewrite Insert_cases in HI.
    destruct (is_nil b); [injection HI as _ <-; exact IH|].
    destruct (finalized mt) eqn:Hfm; [|discriminate].
    injection HI as _ <-. rewrite Hfm. exact IH.
  - destruct IH as [[Hf ->]|(Hf & Hne & HF0)].
    + destruct bl as [|b bl].
      * rewrite Finalize_empty in HF by reflexivity. injection HF as _ <-.
        left. split; reflexivity.
      * destruct (Finalize_ok (NewMerkleTree (b :: bl))) as (mt2 & E & Hs);
          [discriminate | reflexivity |].
        rewrite E in HF. injection HF as <- <-.
        right. split; [apply (fs_finalized _ _ Hs)|]. split; [discriminate | exact E].
    + destruct (Finalize_ok (NewMerkleTree bl)) as (mt2 & E & Hs);
        [exact Hne | reflexivity |].
      rewrite E in HF0. injection HF0 as ->.
      rewrite Finalize_again in HF.
      * injection HF as _ <-. right. split; [exact Hf|]. split; [exact Hne | exact E].
      * rewrite (fs_blocks _ _ Hs). now apply padded_nonempty.
      * exact Hf.
Qed.

Lemma built_finalized (bl : list Block) (mt : FlatMerkleTree) :
  built bl mt -> finalized mt = true ->
  bl <> [] /\ Finalize (NewMerkleTree bl) = (Ok tt, mt) /\ finalized_shape bl mt.
Proof.
  intros Hb Hf. destruct (built_inv _ _ Hb) as [[Hf' _]|(_ & Hne & E)]; [congruence|].
  split; [exact Hne|]. split; [exact E|].
  destruct (Finalize_ok (NewMerkleTree bl)) as (mt2 & E2 & Hs); [exact Hne | reflexivity |].
  rewrite E in E2. now injection E2 as <-.
Qed.

(** *** Locating a leaf *)

Lemma first_match_lt (bl : list Block) (b : Block) (k : nat) :
  first_match bl b = Some k -> (k < length bl)%nat.
Proof.
  revert k. induction bl as [|x bl IH]; intros k; simpl; [discriminate|].
  destruct (bytes_Equal x b); [intros [= <-]; lia|].
  destruct (first_match bl b) as [k'|]; [|discriminate].
  intros [= <-]. specialize (IH k' eq_refl). lia.
Qed.

Lemma first_match_app (bl bl' : list Block) (b : Block) (k : nat) :
  first_match bl b = Some k -> first_match (bl ++ bl') b = Some k.
Proof.
  revert k. induction bl as [|x bl IH]; intros k; simpl; [discriminate|].
  destruct (bytes_Equal x b); [trivial|].
  destruct (first_match bl b) as [k'|]; [|discriminate].
  intros [= <-]. now rewrite (IH k' eq_refl).
Qed.

Lemma first_match_padded (bl : list Block) (b : Block) (k : nat) :
  first_match bl b = Some k -> first_match (padded bl) b = Some k.
Proof.
  intros H. unfold padded. destruct (Z.rem (len bl) 2 =? 0); [exact H|].
  destruct (list.last bl); [now apply first_match_app | exact H].
Qed.

(** A block byte-equal to one of [bl] has a first matching position. *)
Lemma first_match_present (bl : list Block) (b x : Block) :
  x ∈ bl -> bytes_Equal x b = true -> exists k, first_match bl b = Some k.
Proof.
  intros Hin Heq. induction Hin as [x bl | x y bl _ IH]; simpl.
  - rewrite Heq. now exists 0%nat.
  - destruct (bytes_Equal y b); [now exists 0%nat|].
    destruct (IH Heq) as [k ->]. now exists (S k).
Qed.

Lemma first_match_sound (bl : list Block) (b : Block) (k : nat) :
  first_match bl b = Some k ->
  (exists x, bl !! k = Some x /\ bytes_Equal x b = true) /\
  (forall j y, (j < k)%nat -> bl !! j = Some y -> bytes_Equal y b = false).
Proof.
  revert k. induction bl as [|x bl IH]; intros k; simpl; [discriminate|].
  destruct (bytes_Equal x b) eqn:E.
  - intros [= <-]. split; [now exists x | intros; lia].
  - destruct (first_match bl b) as [k'|]; [|discriminate].
    intros [= <-]. destruct (IH k' eq_refl) as [Hx Hlow]. split; [exact Hx|].
    intros [|j] y Hj Hy; [simpl in Hy; congruence|].
    apply (Hlow j); [lia | exact Hy].
Qed.

Lemma findLeaf_from_spec (mt : FlatMerkleTree) (b : Block) (bs : list Block) :
  forall i : Z,
    findLeaf_from mt b bs i =
      match first_match bs b with
      | Some k => Ok (len (nodes mt) - len (blocks mt) + (i + Z.of_nat k))
      | None => Err (Errorf "block does not exist: %v"
                       [ArgString (hex_EncodeToString (content b))])
      end.
Proof.
  induction bs as [|x bs IH]; intros i; simpl; [reflexivity|].
  destruct (bytes_Equal x b); [do 2 f_equal; lia|].
  rewrite IH. destruct (first_match bs b); simpl; [do 2 f_equal; lia | reflexivity].
Qed.

Lemma findLeaf_first_match (mt : FlatMerkleTree) (b : bytes) (k : nat) :
  first_match (blocks mt) (Some b) = Some k ->
  findLeaf mt (Some b) = Ok (len (nodes mt) - len (blocks mt) + Z.of_nat k).
Proof.
  intros H. unfold findLeaf. cbn [is_nil]. rewrite findLeaf_from_spec, H.
  do 2 f_equal.
Qed.

(** *** The path of a leaf *)

Lemma sib_path_S (ns : list TreeNode) (idx : Z) (d : nat) :
  sib_path ns idx (S d)
  = copyNode (slot ns (sibling idx)) :: sib_path ns (parent idx) d.
Proof.
  unfold sib_path. cbn [seq fmap list_fmap]. f_equal.
  rewrite <- fmap_S_seq, <- list_fmap_compose.
  apply list_fmap_ext. intros _ k _. unfold compose. now rewrite ancestor_S_r.
Qed.

Lemma length_sib_path (ns : list TreeNode) (idx : Z) (d : nat) :
  length (sib_path ns idx d) = d.
Proof. unfold sib_path. now rewrite length_fmap, length_seq. Qed.

Lemma take_sib_path (ns : list TreeNode) (idx : Z) (d d' : nat) :
  (d' <= d)%nat -> take d' (sib_path ns idx d) = sib_path ns idx d'.
Proof.
  intros H. unfold sib_path. rewrite <- fmap_take, take_seq. do 2 f_equal. lia.
Qed.

Lemma depth_root : depth 0 = 0.
Proof. reflexivity. Qed.

Lemma depth_nonneg (i : Z) : 0 <= depth i.
Proof. apply Z.log2_nonneg. Qed.

Lemma depth_step (i : Z) : 0 < i -> depth i = 1 + depth (parent i).
Proof.
  intros Hi. destruct (parent_inv i (parent i) ltac:(lia) eq_refl) as [H|[H|[H _]]]; [| |lia].
  - pose proof (parent_bounds i ltac:(lia)).
    rewrite H at 1. unfold depth.
    replace (2 * parent i + 1 + 1) with (2 * (parent i + 1)) by lia.
    rewrite Z.log2_double by lia. lia.
  - pose proof (parent_bounds i ltac:(lia)).
    rewrite H at 1. unfold depth.
    replace (2 * parent i + 2 + 1) with (2 * (parent i + 1) + 1) by lia.
    rewrite Z.log2_succ_double by lia. lia.
Qed.

Lemma depth_pos (i : Z) : 0 < i -> 1 <= depth i.
Proof. intros Hi. rewrite depth_step by exact Hi. pose proof (depth_nonneg (parent i)). lia. Qed.

Lemma sibling_even (i : Z) : 0 <= i -> Z.rem i 2 = 0 -> sibling i = i - 1.
Proof. intros _ H. unfold sibling. now rewrite H. Qed.

Lemma sibling_odd (i : Z) : 0 <= i -> Z.rem i 2 <> 0 -> sibling i = i + 1.
Proof. intros _ H. unfold sibling. destruct (Z.rem i 2 =? 0) eqn:E; [lia | reflexivity]. Qed.

(** In an array of odd length the sibling of a slot other than the
    root is again a slot. *)
Lemma sibling_in_range (n i : Z) :
  0 < i < 2 * n - 1 -> 0 <= sibling i < 2 * n - 1.
Proof.
  intros Hi. unfold sibling. rewrite rem2_mod by lia.
  pose proof (Z.div_mod i 2 ltac:(lia)). pose proof (Z.mod_pos_bound i 2 ltac:(lia)).
  destruct (i mod 2 =? 0) eqn:E; lia.
Qed.

Lemma slot_index (ns : list TreeNode) (i : Z) :
  0 <= i < len ns -> index ns i = Ok (slot ns i).
Proof.
  intros Hi. destruct (sel_is_Some ns i Hi) as [x Hx].
  unfold slot. rewrite Hx. apply sel_index; [lia | exact Hx].
Qed.

(** The loop of [Proof] overwrites the entries [k], [k+1], ... of the
    proof array with the siblings on the way up, and nothing else. *)
Lemma proof_loop_spec (mt : FlatMerkleTree) (n : Z) (fuel : nat) :
  len (nodes mt) = 2 * n - 1 ->
  forall (idx : Z) (k : nat) (pf : list TreeNode),
    0 <= idx < len (nodes mt) ->
    idx <= Z.of_nat fuel ->
    (k + Z.to_nat (depth idx) <= length pf)%nat ->
    proof_loop fuel mt idx (Z.of_nat k) pf
    = Ok (take k pf ++ sib_path (nodes mt) idx (Z.to_nat (depth idx))
            ++ drop (k + Z.to_nat (depth idx)) pf).
Proof.
  intros Hn.
  assert (Hroot : forall f k pf,
    proof_loop f mt 0 (Z.of_nat k) pf
    = Ok (take k pf ++ sib_path (nodes mt) 0 (Z.to_nat (depth 0))
            ++ drop (k + Z.to_nat (depth 0)) pf)).
  { intros f k pf. rewrite depth_root. change (Z.to_nat 0) with 0%nat.
    rewrite Nat.add_0_r. unfold sib_path. cbn [seq fmap list_fmap app].
    rewrite take_drop. now destruct f. }
  induction fuel as [|fuel IH]; intros idx k pf Hidx Hfuel Hk.
  - assert (idx = 0) as -> by lia. apply Hroot.
  - destruct (Z.eq_dec idx 0) as [->|Hne].
    + apply Hroot.
    + cbn [proof_loop]. replace (idx >? 0) with true by lia.
      pose proof (depth_step idx ltac:(lia)) as Hd.
      pose proof (depth_nonneg (parent idx)) as Hdp.
      pose proof (parent_bounds idx ltac:(lia)) as Hpb.
      pose proof (parent_lt idx ltac:(lia)) as Hpl.
      pose proof (sibling_in_range n idx ltac:(lia)) as Hsr.
      assert (Es : (if Z.rem idx 2 =? 0 then index (nodes mt) (idx - 1)
                    else index (nodes mt) (idx + 1))
                   = Ok (slot (nodes mt) (sibling idx))).
      { unfold sibling in *. destruct (Z.rem idx 2 =? 0); apply slot_index; lia. }
      rewrite Es. cbn [obind].
      rewrite store_in_range by (unfold len; lia). cbn [obind].
      replace (Z.of_nat k + 1) with (Z.of_nat (S k)) by lia.
      rewrite Nat2Z.id.
      fold (parent idx).
      rewrite IH; [|lia|lia|rewrite length_insert; lia].
      f_equal. rewrite Hd.
      replace (Z.to_nat (1 + depth (parent idx))) with (S (Z.to_nat (depth (parent idx)))) by lia.
      rewrite sib_path_S.
      assert (Hklt : (k < length pf)%nat) by lia.
      destruct (lookup_lt_is_Some_2 pf k Hklt) as [y Hy].
      rewrite (take_S_r _ _ (copyNode (slot (nodes mt) (sibling idx))))
        by (apply list_lookup_insert_eq; lia).
      rewrite take_insert_ge by lia.
      rewrite drop_insert_lt by lia.
      rewrite <- app_assoc. cbn. do 4 f_equal. lia.
Qed.

(** Every leaf of a finalized tree lies on the last level of the array
    or on the one above it. *)
Lemma leaf_depth (bl : list Block) (mt : FlatMerkleTree) (k : nat) :
  finalized_shape bl mt -> (k < length (blocks mt))%nat ->
  0 < leaf_index mt k < len (nodes mt) /\
  1 <= depth (leaf_index mt k) /\
  depth (leaf_index mt k) <= int_Log2 (len (nodes mt)) <= depth (leaf_index mt k) + 1.
Proof.
  intros Hs Hk. destruct (fs_even _ _ Hs) as (m & Hm & Hlen).
  pose proof (fs_len _ _ Hs) as HN. unfold leaf_index.
  set (n := len (blocks mt)) in *. set (N := len (nodes mt)) in *.
  assert (Hkn : Z.of_nat k < n) by (unfold n, len; lia).
  split; [lia|]. split; [apply depth_pos; lia|].
  unfold depth, int_Log2. split.
  - apply Z.log2_le_mono. lia.
  - apply Z.le_trans with (Z.log2 (2 * n)); [apply Z.log2_le_mono; lia|].
    rewrite Z.log2_double by lia.
    pose proof (Z.log2_le_mono n (N - n + Z.of_nat k + 1) ltac:(lia)). lia.
Qed.

Lemma len_replicate {A : Type} (n : nat) (x : A) : len (replicate n x) = Z.of_nat n.
Proof. unfold len. now rewrite length_replicate. Qed.

Lemma last_sib_path (ns : list TreeNode) (idx : Z) (d : nat) :
  (0 < d)%nat -> exists y, list.last (sib_path ns idx d) = Some (Some y).
Proof.
  intros Hd. destruct d as [|d']; [lia|].
  exists (content (slot ns (sibling (ancestor d' idx)))).
  unfold sib_path. rewrite seq_S, fmap_app. cbn [fmap list_fmap].
  rewrite last_snoc. reflexivity.
Qed.

(** [Proof] on a finalized tree returns the siblings on the path of the
    first leaf that matches the block. *)
Lemma Proof_ok (bl : list Block) (mt : FlatMerkleTree) (b : bytes) (k : nat) :
  finalized_shape bl mt ->
  first_match (blocks mt) (Some b) = Some k ->
  Proof mt (Some b)
  = Ok (sib_path (nodes mt) (leaf_index mt k) (Z.to_nat (depth (leaf_index mt k)))).
Proof.
  intros Hs Hk.
  pose proof (first_match_lt _ _ _ Hk) as Hlt.
  destruct (leaf_depth bl mt k Hs Hlt) as (Hidx & Hd1 & Hd2).
  unfold Flat.Proof. cbn [is_nil]. rewrite (fs_finalized _ _ Hs). cbn [negb].
  rewrite (findLeaf_first_match _ _ _ Hk). cbn [obind]. fold (leaf_index mt k).
  set (idx := leaf_index mt k) in *.
  replace (len (nodes mt) =? 0) with false by lia.
  pose proof (proof_loop_spec mt (len (blocks mt)) (Z.to_nat idx) (fs_len _ _ Hs)
                idx 0 (make_nil (int_Log2 (len (nodes mt))))) as Hloop.
  change (Z.of_nat 0) with 0 in Hloop.
  rewrite Hloop; [| lia | lia | unfold make_nil; rewrite length_replicate; lia].
  clear Hloop. cbn [obind]. unfold make_nil. rewrite drop_replicate, firstn_O.
  cbn [app].
  set (d := Z.to_nat (depth idx)) in *.
  set (D := Z.to_nat (int_Log2 (len (nodes mt)))) in *.
  assert (HD : D = d \/ D = S d) by lia.
  destruct HD as [->| ->].
  - replace (d - (0 + d))%nat with 0%nat by lia. cbn [replicate]. rewrite app_nil_r.
    destruct (last_sib_path (nodes mt) idx d ltac:(lia)) as [y Hlast].
    rewrite (index_last _ _ Hlast). reflexivity.
  - replace (S d - (0 + d))%nat with 1%nat by lia. cbn [replicate].
    match goal with
    | |- context [index ?l ?i] =>
        assert (Hlast : index l i = Ok None) by apply index_last, last_snoc
    end.
    rewrite Hlast. cbn [obind is_nil]. f_equal.
    rewrite len_app.
    match goal with
    | |- take (Z.to_nat (?a + ?b - 1)) _ = _ =>
        replace (Z.to_nat (a + b - 1))
          with (length (sib_path (nodes mt) idx d)) by (unfold len; simpl; lia)
    end.
    now rewrite take_app_length.
Qed.

(** *** Checking a path *)

Lemma hashNode_content (x y : slice) (internal : bool) :
  content x = content y -> hashNode x internal = hashNode y internal.
Proof. intros H. unfold Flat.hashNode. now rewrite H. Qed.

Lemma bytes_Equal_refl (x : slice) : bytes_Equal x x = true.
Proof. apply bytes_eqb_refl. Qed.

(** A slot other than the root and its sibling are the two children of
    the parent slot. *)
Lemma children_of_parent (i : Z) :
  0 < i ->
  (Z.rem i 2 = 0 /\ i = 2 * parent i + 2 /\ sibling i = 2 * parent i + 1) \/
  (Z.rem i 2 <> 0 /\ i = 2 * parent i + 1 /\ sibling i = 2 * parent i + 2).
Proof.
  intros Hi. pose proof (parent_bounds i ltac:(lia)) as Hp.
  unfold sibling. rewrite rem2_mod by lia.
  pose proof (Z.div_mod i 2 ltac:(lia)). pose proof (Z.mod_pos_bound i 2 ltac:(lia)).
  destruct (parent_inv i (parent i) ltac:(lia) eq_refl) as [H1|[H1|[H1 _]]]; [| |lia].
  - right. assert (i mod 2 = 1) by lia.
    replace (i mod 2 =? 0) with false by lia. lia.
  - left. assert (i mod 2 = 0) by lia.
    replace (i mod 2 =? 0) with true by lia. lia.
Qed.

(** One round of the loop of [Verify], at a slot other than the root,
    against the sibling that [Proof] recorded: the digest rebuilt from
    the two children is the one stored in the parent slot. *)
Lemma verify_step (mt : FlatMerkleTree) (blk : Block) (n i idx : Z)
    (rest : list TreeNode) :
  len (nodes mt) = 2 * n - 1 ->
  (forall j, 0 <= j -> 2 * j + 1 < len (nodes mt) -> good (nodes mt) j) ->
  0 < idx < len (nodes mt) ->
  verify_loop mt blk (copyNode (slot (nodes mt) (sibling idx)) :: rest) i idx
  = verify_loop mt blk rest (i + 1) (parent idx).
Proof.
  intros Hn Hgood Hidx.
  pose proof (parent_bounds idx ltac:(lia)) as Hp.
  pose proof (parent_lt idx ltac:(lia)) as Hpl.
  cbn [Flat.verify_loop]. fold (parent idx).
  rewrite (slot_index (nodes mt) idx) by lia. cbn [obind].
  rewrite (slot_index (nodes mt) (parent idx)) by lia. cbn [obind].
  assert (Hin : 2 * parent idx + 1 < len (nodes mt)).
  { destruct (children_of_parent idx ltac:(lia)) as [(_ & H & _)|(_ & H & _)]; lia. }
  destruct (Hgood (parent idx) ltac:(lia) Hin) as (l & r & Hl & Hr & Hh).
  assert (Hsp : slot (nodes mt) (parent idx) = hashNode (append l r) true)
    by (unfold slot; now rewrite Hh).
  rewrite Hsp.
  destruct (children_of_parent idx ltac:(lia)) as [(He & Hi & Hsib)|(Ho & Hi & Hsib)].
  - rewrite He. cbn [Z.eqb].
    assert (Hsl : slot (nodes mt) (sibling idx) = l)
      by (unfold slot; now rewrite Hsib, Hl).
    assert (Hsr : slot (nodes mt) idx = r)
      by (unfold slot; rewrite Hi at 1; now rewrite Hr).
    rewrite Hsl, Hsr.
    rewrite (hashNode_content (append (copyNode (copyNode l)) (copyNode r)) (append l r))
      by (now rewrite !content_append).
    now rewrite bytes_Equal_refl.
  - replace (Z.rem idx 2 =? 0) with false by lia.
    assert (Hsr : slot (nodes mt) (sibling idx) = r)
      by (unfold slot; now rewrite Hsib, Hr).
    assert (Hsl : slot (nodes mt) idx = l)
      by (unfold slot; rewrite Hi at 1; now rewrite Hl).
    rewrite Hsl, Hsr.
    rewrite (hashNode_content (append (copyNode l) (copyNode (copyNode r))) (append l r))
      by (now rewrite !content_append).
    now rewrite bytes_Equal_refl.
Qed.

(** The loop of [Verify] accepts the first [d] siblings of a path, for
    every [d] up to the depth of the starting slot, and goes on with the
    rest of the proof at the [d]-th ancestor. *)
Lemma verify_loop_sib_path_app (mt : FlatMerkleTree) (blk : Block) (n : Z)
    (rest : list TreeNode) :
  len (nodes mt) = 2 * n - 1 ->
  (forall j, 0 <= j -> 2 * j + 1 < len (nodes mt) -> good (nodes mt) j) ->
  forall (d : nat) (i idx : Z),
    0 <= idx < len (nodes mt) ->
    Z.of_nat d <= depth idx ->
    verify_loop mt blk (sib_path (nodes mt) idx d ++ rest) i idx
    = verify_loop mt blk rest (i + Z.of_nat d) (ancestor d idx).
Proof.
  intros Hn Hgood. induction d as [|d IH]; intros i idx Hidx Hd.
  - cbn [sib_path seq fmap list_fmap app ancestor Nat.iter]. f_equal. lia.
  - assert (Hpos : 0 < idx).
    { destruct (Z.eq_dec idx 0) as [->|]; [rewrite depth_root in Hd; lia | lia]. }
    rewrite sib_path_S. cbn [app].
    rewrite (verify_step mt blk n) by (auto; lia).
    pose proof (parent_bounds idx ltac:(lia)). pose proof (depth_step idx Hpos).
    rewrite IH by lia. rewrite ancestor_S_r. f_equal. lia.
Qed.

Lemma verify_loop_sib_path (mt : FlatMerkleTree) (blk : Block) (n : Z) :
  len (nodes mt) = 2 * n - 1 ->
  (forall j, 0 <= j -> 2 * j + 1 < len (nodes mt) -> good (nodes mt) j) ->
  forall (d : nat) (i idx : Z),
    0 <= idx < len (nodes mt) ->
    Z.of_nat d <= depth idx ->
    verify_loop mt blk (sib_path (nodes mt) idx d) i idx = Ok tt.
Proof.
  intros Hn Hgood d i idx Hidx Hd.
  rewrite <- (app_nil_r (sib_path _ _ _)).
  now rewrite (verify_loop_sib_path_app mt blk n []).
Qed.

(** After [depth idx] steps towards the root the root is reached. *)
Lemma ancestor_depth (idx : Z) : 0 <= idx -> ancestor (Z.to_nat (depth idx)) idx = 0.
Proof.
  intros Hidx. remember (Z.to_nat (depth idx)) as d eqn:Hd.
  revert idx Hidx Hd. induction d as [|d IH]; intros idx Hidx Hd.
  - pose proof (depth_nonneg idx). assert (H0 : depth idx = 0) by lia.
    unfold depth in H0. apply Z.log2_null in H0. cbn. lia.
  - assert (Hpos : 0 < idx).
    { destruct (Z.eq_dec idx 0) as [->|]; [rewrite depth_root in Hd; lia | lia]. }
    pose proof (depth_step idx Hpos). pose proof (depth_nonneg (parent idx)).
    pose proof (parent_bounds idx ltac:(lia)).
    rewrite ancestor_S_r. apply IH; lia.
Qed.

(** The loop of [Verify] never leaves the array: from a slot of the
    array it ends in success or in a mismatch error, whatever the proof. *)
Lemma verify_loop_total (mt : FlatMerkleTree) (blk : Block) (proof : list TreeNode) :
  forall i idx : Z,
    0 <= idx < len (nodes mt) ->
    verify_loop mt blk proof i idx = Ok tt \/
    exists i' got want,
      verify_loop mt blk proof i idx
      = Err (Errorf "invalid proof at index %d for block %X; got: %X, want: %X"
               [ArgInt i'; ArgBytes blk; ArgBytes got; ArgBytes want]).
Proof.
  induction proof as [|chunk rest IH]; intros i idx Hidx; [now left|].
  cbn [Flat.verify_loop]. fold (parent idx).
  pose proof (parent_bounds idx ltac:(lia)) as Hp.
  rewrite (slot_index (nodes mt) idx) by lia. cbn [obind].
  rewrite (slot_index (nodes mt) (parent idx)) by lia. cbn [obind].
  destruct (bytes_Equal _ _); cbn [negb].
  - apply IH. lia.
  - right. eauto.
Qed.

(** *** The path as the specification words it *)

Lemma even_rem2 (i : Z) : 0 <= i -> Z.even i = (Z.rem i 2 =? 0).
Proof.
  intros Hi. rewrite rem2_mod by lia. rewrite Zmod_even.
  destruct (Z.even i); reflexivity.
Qed.

Lemma walk_up_sib_path (ns : list TreeNode) (bound : nat) :
  forall i : Z, 0 <= i <= Z.of_nat bound ->
    walk_up bound ns i = sib_path ns i (Z.to_nat (depth i)).
Proof.
  induction bound as [|bound IH]; intros i Hi.
  - assert (i = 0) as -> by lia. reflexivity.
  - cbn [walk_up]. destruct (Z.eq_dec i 0) as [->|Hne]; [reflexivity|].
    replace (0 <? i) with true by lia.
    pose proof (depth_step i ltac:(lia)) as Hd.
    pose proof (depth_nonneg (parent i)).
    pose proof (parent_bounds i ltac:(lia)). pose proof (parent_lt i ltac:(lia)).
    rewrite Hd.
    replace (Z.to_nat (1 + depth (parent i))) with (S (Z.to_nat (depth (parent i)))) by lia.
    rewrite sib_path_S. f_equal.
    + unfold sibling. now rewrite even_rem2 by lia.
    + replace ((i - 1) / 2) with (parent i)
        by (unfold parent; apply Z.quot_div_nonneg; lia).
      apply IH. lia.
Qed.

Lemma first_match_complete (bl : list Block) (b x : Block) (k : nat) :
  bl !! k = Some x -> bytes_Equal x b = true ->
  (forall j y, (j < k)%nat -> bl !! j = Some y -> bytes_Equal y b = false) ->
  first_match bl b = Some k.
Proof.
  revert k. induction bl as [|z bl IH]; intros k Hk Hx Hlow; [discriminate|].
  destruct k as [|k]; simpl in *.
  - injection Hk as ->. now rewrite Hx.
  - rewrite (Hlow 0%nat z) by (reflexivity || lia).
    rewrite (IH k Hk Hx); [reflexivity|].
    intros j y Hj Hy. apply (Hlow (S j) y); [lia | exact Hy].
Qed.

Lemma shape_good (bl : list Block) (mt : FlatMerkleTree) :
  finalized_shape bl mt ->
  forall j, 0 <= j -> 2 * j + 1 < len (nodes mt) -> good (nodes mt) j.
Proof.
  intros Hs j Hj Hin. apply (fs_internal _ _ Hs).
  pose proof (fs_len _ _ Hs). lia.
Qed.

Lemma Verify_sib_path (bl : list Block) (mt : FlatMerkleTree) (b : bytes) (k d : nat) :
  finalized_shape bl mt ->
  first_match (blocks mt) (Some b) = Some k ->
  Z.of_nat d <= depth (leaf_index mt k) ->
  Verify mt (Some b) (sib_path (nodes mt) (leaf_index mt k) d) = Ok tt.
Proof.
  intros Hs Hk Hd.
  destruct (leaf_depth bl mt k Hs (first_match_lt _ _ _ Hk)) as (Hidx & _).
  unfold Flat.Verify. rewrite (fs_finalized _ _ Hs). cbn [negb].
  rewrite (findLeaf_first_match _ _ _ Hk). cbn [obind]. fold (leaf_index mt k).
  apply (verify_loop_sib_path mt _ (len (blocks mt)));
    [apply (fs_len _ _ Hs) | apply (shape_good _ _ Hs) | lia | exact Hd].
Qed.

(** *** The properties of the flat engine *)

(** C1.  Inclusion soundness: on every finalized tree, for every block
    [b] byte-equal to one of the blocks given to the tree, [Proof b]
    returns a proof and [Verify] accepts [b] with that proof. *)
Theorem proof_verifies (bl : list Block) (mt : FlatMerkleTree) (x : Block) (b : bytes) :
  built bl mt -> finalized mt = true ->
  x ∈ bl -> bytes_Equal x (Some b) = true ->
  exists p, Flat.Proof mt (Some b) = Ok p /\ Verify mt (Some b) p = Ok tt.
Proof.
  intros Hb Hf Hx Heq.
  destruct (built_finalized _ _ Hb Hf) as (_ & _ & Hs).
  destruct (first_match_present _ _ _ Hx Heq) as [k Hk].
  apply first_match_padded in Hk. rewrite <- (fs_blocks _ _ Hs) in Hk.
  eexists. split; [apply (Proof_ok bl); eassumption|].
  apply (Verify_sib_path bl); [assumption | assumption|].
  pose proof (depth_nonneg (leaf_index mt k)). lia.
Qed.

(** C2.  What [Finalize] leaves behind: on a tree with at least one block
    that is not yet finalized, [Finalize] succeeds; an even block list is
    kept, an odd one gets a copy of its last block appended; the node
    array has [2 * len(blocks) - 1] slots; its last [len(blocks)] slots
    hold [H(0x00 || block)] in block order; every other slot [j] holds
    [H(0x01 || nodes[2j+1] || nodes[2j+2])]; the cached root is
    [nodes[0]]; and [finalized] is set. *)
Theorem Finalize_postcondition (mt : FlatMerkleTree) :
  blocks mt <> [] -> finalized mt = false ->
  exists mt',
    Finalize mt = (Ok tt, mt') /\
    (Z.rem (len (blocks mt)) 2 = 0 -> blocks mt' = blocks mt) /\
    (Z.rem (len (blocks mt)) 2 <> 0 ->
       exists b, list.last (blocks mt) = Some b /\ blocks mt' = blocks mt ++ [b]) /\
    Z.rem (len (blocks mt')) 2 = 0 /\
    len (nodes mt') = 2 * len (blocks mt') - 1 /\
    (forall (i : nat) (b : Block), blocks mt' !! i = Some b ->
       index (nodes mt') (len (nodes mt') - len (blocks mt') + Z.of_nat i)
       = Ok (Some (Sum256 (x00 :: content b)))) /\
    (forall j, 0 <= j < len (nodes mt') - len (blocks mt') ->
       exists l r,
         index (nodes mt') (2 * j + 1) = Ok l /\
         index (nodes mt') (2 * j + 2) = Ok r /\
         index (nodes mt') j = Ok (Some (Sum256 (x01 :: content l ++ content r)))) /\
    index (nodes mt') 0 = Ok (root mt') /\
    finalized mt' = true.
Proof.
  intros Hne Hf. destruct (Finalize_ok mt Hne Hf) as (mt' & E & Hs).
  exists mt'. split; [exact E|].
  pose proof (fs_blocks _ _ Hs) as Hbl. unfold padded in Hbl.
  destruct (fs_even _ _ Hs) as (m & Hm & Hlen).
  split; [intros H0; now rewrite H0 in Hbl|].
  split.
  { intros H1. destruct (Z.rem (len (blocks mt)) 2 =? 0) eqn:E0;
      [apply Z.eqb_eq in E0; contradiction|].
    destruct (list.last (blocks mt)) as [b|] eqn:Hl; [now exists b|].
    apply last_None in Hl. congruence. }
  split; [rewrite rem2_mod, Hlen by lia;
          rewrite Z.mul_comm; apply Z.mod_mul; lia|].
  split; [apply (fs_len _ _ Hs)|].
  split.
  { intros i b Hb. apply sel_index; [|now apply (fs_leaves _ _ Hs)].
    pose proof (fs_len _ _ Hs). lia. }
  split.
  { intros j Hj. destruct (fs_internal _ _ Hs j Hj) as (l & r & Hl & Hr & Hh).
    exists l, r. split; [apply sel_index; [lia | exact Hl]|].
    split; [apply sel_index; [lia | exact Hr]|].
    apply sel_index; [lia|]. rewrite Hh. unfold Flat.hashNode.
    now rewrite content_append. }
  split; [apply sel_index; [lia | apply (fs_root _ _ Hs)]|].
  apply (fs_finalized _ _ Hs).
Qed.

(** C3.  The proof that [Proof] returns: on a finalized tree, when [k] is
    the first position of the given blocks whose block is byte-equal to
    [b], [Proof b] starts at the array index
    [len(nodes) - len(blocks) + k] and returns the sibling sequence of
    the walk of the specification from that index; the sequence has one
    entry for each level between the leaf and the root, none of them
    empty. *)
Theorem Proof_is_sibling_sequence (bl : list Block) (mt : FlatMerkleTree)
    (x : Block) (b : bytes) (k : nat) :
  built bl mt -> finalized mt = true ->
  bl !! k = Some x -> bytes_Equal x (Some b) = true ->
  (forall j y, (j < k)%nat -> bl !! j = Some y -> bytes_Equal y (Some b) = false) ->
  let leaf := len (nodes mt) - len (blocks mt) + Z.of_nat k in
  findLeaf mt (Some b) = Ok leaf /\
  Flat.Proof mt (Some b) = Ok (sibling_sequence (nodes mt) leaf) /\
  len (sibling_sequence (nodes mt) leaf) = depth leaf /\
  Forall (fun s => is_nil s = false) (sibling_sequence (nodes mt) leaf).
Proof.
  intros Hb Hf Hk Heq Hlow leaf.
  destruct (built_finalized _ _ Hb Hf) as (_ & _ & Hs).
  pose proof (first_match_complete _ _ _ _ Hk Heq Hlow) as Hfm.
  apply first_match_padded in Hfm. rewrite <- (fs_blocks _ _ Hs) in Hfm.
  destruct (leaf_depth bl mt k Hs (first_match_lt _ _ _ Hfm)) as (Hidx & Hd & _).
  subst leaf. fold (leaf_index mt k). set (leaf := leaf_index mt k) in *.
  assert (Hw : sibling_sequence (nodes mt) leaf
               = sib_path (nodes mt) leaf (Z.to_nat (depth leaf))).
  { unfold sibling_sequence. apply walk_up_sib_path. lia. }
  split; [now apply findLeaf_first_match|].
  split; [rewrite Hw; now apply (Proof_ok bl)|].
  split; [rewrite Hw; unfold len; rewrite length_sib_path; lia|].
  rewrite Hw. unfold sib_path. apply Forall_fmap, Forall_forall. intros; reflexivity.
Qed.

(** C4.  Life-cycle guards, as the code has them.  On a finalized tree
    [Insert] returns [ErrTreeAlreadyFinalized], unless the block is nil:
    then it returns [ErrNilBlock]; either way it changes nothing.  On a
    tree that is not finalized [Proof] returns [ErrTreeNotFinalized],
    unless the block is nil: then it returns [ErrNilBlock]; [Verify]
    returns [ErrTreeNotFinalized] for every block; and [RootHash]
    returns a new error, made by [fmt.Errorf] from the text
    "invalid root hash: " and the text of [ErrTreeNotFinalized], which
    is not the error [ErrTreeNotFinalized] itself.  After a [Finalize]
    that succeeded a second [Finalize] returns
    [ErrTreeAlreadyFinalized] and changes nothing. *)
Theorem lifecycle_guards (mt mt1 mt2 : FlatMerkleTree) (blk : Block)
    (p : list TreeNode) :
  finalized mt1 = true ->
  finalized mt2 = false ->
  Finalize mt = (Ok tt, mt1) ->
  Insert blk mt1
  = (Err (if is_nil blk then ErrNilBlock else ErrTreeAlreadyFinalized), mt1) /\
  RootHash mt2 = Err (Errorf "invalid root hash: %v" [ArgErr ErrTreeNotFinalized]) /\
  Flat.Proof mt2 blk = Err (if is_nil blk then ErrNilBlock else ErrTreeNotFinalized) /\
  Verify mt2 blk p = Err ErrTreeNotFinalized /\
  Finalize mt1 = (Err ErrTreeAlreadyFinalized, mt1).
Proof.
  intros H1 H2 HF.
  split; [rewrite Insert_cases; destruct (is_nil blk); [reflexivity | now rewrite H1]|].
  split; [unfold RootHash; now rewrite H2|].
  split; [unfold Flat.Proof; destruct (is_nil blk); [reflexivity | now rewrite H2]|].
  split; [unfold Flat.Verify; now rewrite H2|].
  assert (Hne : blocks mt <> []).
  { intros He. rewrite Finalize_empty in HF by exact He. discriminate. }
  assert (Hf0 : finalized mt = false).
  { destruct (finalized mt) eqn:E; [|reflexivity].
    rewrite Finalize_again in HF by assumption. discriminate. }
  destruct (Finalize_ok mt Hne Hf0) as (mt' & E & Hs).
  rewrite E in HF. injection HF as <-.
  apply Finalize_again; [|exact H1].
  rewrite (fs_blocks _ _ Hs). now apply padded_nonempty.
Qed.

(** C5.  Padding equivalence: a finalized tree built from the blocks
    [a, b, c] and one built from [a, b, c, c] have the same root hash
    (the blocks need not even be distinct). *)
Theorem padding_equivalence (a b c : Block) (mt3 mt4 : FlatMerkleTree) :
  built [a; b; c] mt3 -> finalized mt3 = true ->
  built [a; b; c; c] mt4 -> finalized mt4 = true ->
  exists h, RootHash mt3 = Ok h /\ RootHash mt4 = Ok h.
Proof.
  intros Hb3 Hf3 Hb4 Hf4.
  destruct (built_finalized _ _ Hb3 Hf3) as (_ & E3 & _).
  destruct (built_finalized _ _ Hb4 Hf4) as (_ & E4 & _).
  assert (E : Finalize (NewMerkleTree [a; b; c]) = Finalize (NewMerkleTree [a; b; c; c]))
    by reflexivity.
  rewrite E3, E4 in E. injection E as ->.
  exists (copyNode (root mt4)). unfold RootHash. now rewrite Hf4.
Qed.

(** C6.  [Finalize] is atomic on failure: when it returns an error, the
    error is the empty-tree error (and the tree has no block) or
    [ErrTreeAlreadyFinalized] (and the tree is finalized), and the
    receiver is exactly as it was before the call. *)
Theorem Finalize_error_keeps_tree (mt mt' : FlatMerkleTree) (e : error) :
  Finalize mt = (Err e, mt') ->
  mt' = mt /\
  ((e = Errorf "Failed to finalize: %s" [ArgErr ErrEmptyMerkleTree] /\ blocks mt = []) \/
   (e = ErrTreeAlreadyFinalized /\ blocks mt <> [] /\ finalized mt = true)).
Proof.
  intros HF. destruct (blocks mt) as [|b0 bs] eqn:Hbl.
  - rewrite Finalize_empty in HF by exact Hbl. injection HF as <- <-.
    split; [reflexivity | left; split; reflexivity].
  - assert (Hne : blocks mt <> []) by (rewrite Hbl; discriminate).
    destruct (finalized mt) eqn:Hf.
    + rewrite Finalize_again in HF by assumption. injection HF as <- <-.
      split; [reflexivity | right; repeat split; congruence].
    + destruct (Finalize_ok mt Hne Hf) as (mt2 & E & _). rewrite E in HF. discriminate.
Qed.

(** C7.  Determinism: two finalized trees obtained from the same ordered
    sequence of blocks, however each was built, return the same root
    hash. *)
Theorem root_deterministic (bl : list Block) (mt1 mt2 : FlatMerkleTree) :
  built bl mt1 -> finalized mt1 = true ->
  built bl mt2 -> finalized mt2 = true ->
  exists h, RootHash mt1 = Ok h /\ RootHash mt2 = Ok h.
Proof.
  intros Hb1 Hf1 Hb2 Hf2.
  destruct (built_finalized _ _ Hb1 Hf1) as (_ & E1 & _).
  destruct (built_finalized _ _ Hb2 Hf2) as (_ & E2 & _).
  rewrite E1 in E2. injection E2 as ->.
  exists (copyNode (root mt2)). unfold RootHash. now rewrite Hf2.
Qed.

(** C9.  Truncated proofs verify: on a finalized tree, for a block [b]
    that is present, [Verify] accepts [b] with every prefix of
    [Proof b], the empty proof included. *)
Theorem prefix_of_proof_verifies (bl : list Block) (mt : FlatMerkleTree)
    (x : Block) (b : bytes) :
  built bl mt -> finalized mt = true ->
  x ∈ bl -> bytes_Equal x (Some b) = true ->
  exists full,
    Flat.Proof mt (Some b) = Ok full /\
    Verify mt (Some b) [] = Ok tt /\
    forall p, p `prefix_of` full -> Verify mt (Some b) p = Ok tt.
Proof.
  intros Hb Hf Hx Heq.
  destruct (built_finalized _ _ Hb Hf) as (_ & _ & Hs).
  destruct (first_match_present _ _ _ Hx Heq) as [k Hk].
  apply first_match_padded in Hk. rewrite <- (fs_blocks _ _ Hs) in Hk.
  pose proof (depth_nonneg (leaf_index mt k)) as Hd.
  eexists. split; [apply (Proof_ok bl); eassumption|].
  assert (Hpre : forall p,
    p `prefix_of` sib_path (nodes mt) (leaf_index mt k) (Z.to_nat (depth (leaf_index mt k))) ->
    Verify mt (Some b) p = Ok tt).
  { intros p [q Hq].
    assert (Hlen : (length p <= Z.to_nat (depth (leaf_index mt k)))%nat).
    { apply (f_equal length) in Hq. rewrite length_sib_path, length_app in Hq. lia. }
    assert (Hp : p = sib_path (nodes mt) (leaf_index mt k) (length p)).
    { rewrite <- (take_sib_path _ _ _ _ Hlen), Hq. now rewrite take_app_length. }
    rewrite Hp. apply (Verify_sib_path bl); [assumption | assumption | lia]. }
  split; [apply Hpre, prefix_nil | exact Hpre].
Qed.

(** C10.  [Verify] is total on arbitrary proofs: on a finalized tree, for
    a block [b] that is present and any proof whatsoever, [Verify]
    returns success or a mismatch error and never crashes; every index it
    visits (the ancestors of the leaf, with Go's [(i - 1) / 2]) is a slot
    of the array, and the parent of index 0 is 0; an entry beyond the
    proof of [b] is compared at index 0 and, unless the digest of
    [0x01 || entry || root] is the root itself, gives the mismatch error
    of that step. *)
Theorem Verify_total (bl : list Block) (mt : FlatMerkleTree) (x : Block) (b : bytes)
    (proof : list TreeNode) :
  built bl mt -> finalized mt = true ->
  x ∈ bl -> bytes_Equal x (Some b) = true ->
  (Verify mt (Some b) proof = Ok tt \/
   exists i got want,
     Verify mt (Some b) proof
     = Err (Errorf "invalid proof at index %d for block %X; got: %X, want: %X"
              [ArgInt i; ArgBytes (Some b); ArgBytes got; ArgBytes want])) /\
  (exists leaf, findLeaf mt (Some b) = Ok leaf /\
     forall k : nat, 0 <= ancestor k leaf < len (nodes mt)) /\
  parent 0 = 0 /\
  (exists full, Flat.Proof mt (Some b) = Ok full /\
     forall (e : TreeNode) (rest : list TreeNode),
       let got := hashNode (append (copyNode e) (copyNode (slot (nodes mt) 0))) true in
       bytes_Equal (slot (nodes mt) 0) got = false ->
       Verify mt (Some b) (full ++ e :: rest)
       = Err (Errorf "invalid proof at index %d for block %X; got: %X, want: %X"
                [ArgInt (len full); ArgBytes (Some b); ArgBytes got;
                 ArgBytes (slot (nodes mt) 0)])).
Proof.
  intros Hb Hf Hx Heq.
  destruct (built_finalized _ _ Hb Hf) as (_ & _ & Hs).
  destruct (first_match_present _ _ _ Hx Heq) as [k Hk].
  apply first_match_padded in Hk. rewrite <- (fs_blocks _ _ Hs) in Hk.
  destruct (leaf_depth bl mt k Hs (first_match_lt _ _ _ Hk)) as (Hidx & Hd1 & _).
  pose proof (findLeaf_first_match _ _ _ Hk) as Hleaf. fold (leaf_index mt k) in Hleaf.
  split.
  { unfold Flat.Verify. rewrite Hf, Hleaf. cbn [negb obind].
    apply verify_loop_total. lia. }
  split.
  { exists (leaf_index mt k). split; [exact Hleaf|].
    intros j. pose proof (ancestor_bounds j (leaf_index mt k)). lia. }
  split; [reflexivity|].
  eexists. split; [apply (Proof_ok bl); eassumption|].
  intros e rest got Hne.
  unfold Flat.Verify. rewrite Hf, Hleaf. cbn [negb obind].
  rewrite (verify_loop_sib_path_app mt _ (len (blocks mt)));
    [| apply (fs_len _ _ Hs) | apply (shape_good _ _ Hs) | lia | lia].
  rewrite ancestor_depth by lia.
  cbn [Flat.verify_loop]. change (Z.quot (0 - 1) 2) with 0.
  rewrite (slot_index (nodes mt) 0) by lia. cbn [obind].
  change (Z.rem 0 2 =? 0) with true. cbv iota.
  fold got. rewrite Hne. cbn [negb].
  unfold len. rewrite length_sib_path. reflexivity.
Qed.

End Engine.

End FlatFacts.

(** ** Facts about slices and their arrays *)

Module SliceFacts.

Import Go Slices GoFacts.

Lemma write_nothing (m : mem) (a pos : nat) : write m a pos [] = m.
Proof. unfold write. cbn [splice]. now apply list_alter_id. Qed.

(** Appending to a slice without room after it writes to no array, and
    the result shows the bytes of the two slices. *)
Lemma bappend_tight (s t : bslice) (m : mem) :
  tight s ->
  snd (bappend s t m) = m /\
  view m (fst (bappend s t m)) = view m s ++ view m t.
Proof.
  intros Ht. destruct s as [|b|a off n c]; cbn [bappend].
  - cbn [fst snd]. split; [reflexivity|]. now destruct (view m t).
  - split; reflexivity.
  - cbn [tight] in Ht. subst c. destruct (n + length (view m t) <=? n)%nat eqn:E.
    + apply Nat.leb_le in E. assert (H0 : length (view m t) = 0%nat) by lia.
      destruct (view m t) as [|x tb] eqn:Etb; [|discriminate H0].
      cbn [fst snd length]. rewrite write_nothing, Nat.add_0_r, app_nil_r.
      split; reflexivity.
    + split; reflexivity.
Qed.

(** The result of an [append] that had to copy, and every digest, is a
    slice without room that another slice could see. *)
Lemma bappend_tight_result (s t : bslice) (m : mem) :
  tight s -> tight (fst (bappend s t m)).
Proof.
  intros Ht. destruct s as [|b|a off n c]; cbn [bappend].
  - cbn [fst]. now destruct (view m t).
  - exact I.
  - cbn [tight] in Ht. subst c. destruct (n + length (view m t) <=? n)%nat eqn:E.
    + apply Nat.leb_le in E. cbn [fst tight]. lia.
    + exact I.
Qed.

End SliceFacts.

(** ** Facts about the node-graph tree *)

Module GraphFacts.

Import Slices Graph GraphSpec GoFacts SliceFacts.

Section Builder.

Context {T : Type} {ST : Storable T}.

Variable Sum256 : bytes -> bytes.

Local Abbreviation level_loop := (Graph.level_loop Sum256).
Local Abbreviation buildIntermediate := (Graph.buildIntermediate Sum256).
Local Abbreviation buildTree := (Graph.buildTree Sum256).
Local Abbreviation NewTree := (Graph.NewTree Sum256).
Local Abbreviation parent_hash_ok := (GraphSpec.parent_hash_ok Sum256).
Local Abbreviation node_ok := (GraphSpec.node_ok Sum256).
Local Abbreviation heap_ok := (GraphSpec.heap_ok Sum256).
Local Abbreviation pair_step := (GraphSpec.pair_step Sum256).
Local Abbreviation level_run := (GraphSpec.level_run Sum256).
Local Abbreviation root_run := (GraphSpec.root_run Sum256).
Local Abbreviation pair_hashes := (GraphSpec.pair_hashes Sum256).
Local Abbreviation merkle_root := (GraphSpec.merkle_root Sum256).
Local Abbreviation level_step := (GraphSpec.level_step Sum256).
Local Abbreviation level_inv := (GraphSpec.level_inv Sum256).
Local Abbreviation tight_inv := (GraphSpec.tight_inv Sum256).

Implicit Types (h : list (Node T)) (m : mem) (w : mem * list (Node T)) (cs : list T).

(** *** The hashes, without the nodes *)

Lemma pair_step_tight m (a b : bslice) :
  tight a -> pair_step m a b = (Fresh (Sum256 (view m a ++ view m b)), m).
Proof.
  intros Ht. unfold GraphSpec.pair_step.
  destruct (bappend_tight a b m Ht) as [Hm Hv]. now rewrite Hm, Hv.
Qed.

Lemma level_run_tight m :
  forall hs : list bslice,
    Forall tight hs ->
    level_run m hs = (map Fresh (pair_hashes (map (view m) hs)), m).
Proof.
  assert (H : forall hs : list bslice,
            (Forall tight hs ->
             level_run m hs = (map Fresh (pair_hashes (map (view m) hs)), m)) /\
            (forall a, Forall tight (a :: hs) ->
             level_run m (a :: hs)
             = (map Fresh (pair_hashes (map (view m) (a :: hs))), m))).
  { induction hs as [|b hs [IH1 IH2]].
    - split; [reflexivity|]. intros a Ha. apply Forall_cons_1 in Ha as [Ha _].
      cbn [GraphSpec.level_run map GraphSpec.pair_hashes].
      now rewrite (pair_step_tight m a a Ha).
    - split; [exact (IH2 b)|]. intros a Ha.
      apply Forall_cons_1 in Ha as [Ha Hrest]. apply Forall_cons_1 in Hrest as [_ Hhs].
      cbn [GraphSpec.level_run map GraphSpec.pair_hashes].
      rewrite (pair_step_tight m a b Ha). cbn [fst snd]. now rewrite (IH1 Hhs). }
  intros hs. apply H.
Qed.

Lemma Forall_tight_Fresh (l : list bytes) : Forall tight (map Fresh l).
Proof. induction l; constructor; [exact I | assumption]. Qed.

Lemma map_view_Fresh m (l : list bytes) : map (view m) (map Fresh l) = l.
Proof. induction l as [|x l IH]; [reflexivity|]. cbn. now rewrite IH. Qed.

(** When no hash has room after it the arrays stay as they are, and the
    root shows [merkle_root] of the bytes of the hashes. *)
Lemma root_run_tight :
  forall (fuel : nat) m (hs : list bslice),
    Forall tight hs ->
    snd (root_run fuel m hs) = m /\
    view m (fst (root_run fuel m hs)) = merkle_root fuel (map (view m) hs).
Proof.
  induction fuel as [|fuel IH]; intros m hs Hhs; [split; reflexivity|].
  assert (Hlevel : snd (root_run fuel (snd (level_run m hs)) (fst (level_run m hs))) = m /\
                   view m (fst (root_run fuel (snd (level_run m hs)) (fst (level_run m hs))))
                   = merkle_root fuel (pair_hashes (map (view m) hs))).
  { rewrite (level_run_tight m hs Hhs). cbn [fst snd].
    destruct (IH m (map Fresh (pair_hashes (map (view m) hs))) (Forall_tight_Fresh _))
      as [H1 H2].
    split; [exact H1|]. now rewrite H2, map_view_Fresh. }
  destruct hs as [|a [|b [|c hs]]]; try exact Hlevel.
  apply Forall_cons_1 in Hhs as [Ha _].
  cbn [GraphSpec.root_run GraphSpec.merkle_root map].
  rewrite (pair_step_tight m a b Ha). split; reflexivity.
Qed.

Lemma level_run_app m (a b : list bslice) :
  Nat.Even (length a) ->
  level_run m (a ++ b)
  = (fst (level_run m a) ++ fst (level_run (snd (level_run m a)) b),
     snd (level_run (snd (level_run m a)) b)).
Proof.
  intros [k Hk]. revert m a Hk. induction k as [|k IH]; intros m a Hk.
  - destruct a; [|discriminate Hk]. cbn [app GraphSpec.level_run fst snd].
    now destruct (level_run m b).
  - destruct a as [|x [|y a]]; try (cbn in Hk; lia).
    cbn [app GraphSpec.level_run fst snd].
    rewrite (IH (snd (pair_step m x y)) a) by (cbn in Hk; lia).
    reflexivity.
Qed.

(** *** Nodes that differ in their parent only *)

Lemma same_but_Parent_refl (n : Node T) : same_but_Parent n n.
Proof. now repeat split. Qed.

Lemma same_but_Parent_trans (n1 n2 n3 : Node T) :
  same_but_Parent n1 n2 -> same_but_Parent n2 n3 -> same_but_Parent n1 n3.
Proof.
  intros (A1 & A2 & A3 & A4 & A5 & A6) (B1 & B2 & B3 & B4 & B5 & B6).
  repeat split; congruence.
Qed.

Lemma same_but_Parent_with_Parent (q : nat) (n : Node T) :
  same_but_Parent n (with_Parent q n).
Proof. now repeat split. Qed.

Lemma extends_refl h : extends h h.
Proof. intros p n Hp. exists n. split; [exact Hp | apply same_but_Parent_refl]. Qed.

Lemma extends_trans h1 h2 h3 : extends h1 h2 -> extends h2 h3 -> extends h1 h3.
Proof.
  intros H12 H23 p n Hp. destruct (H12 p n Hp) as (n2 & Hp2 & S12).
  destruct (H23 p n2 Hp2) as (n3 & Hp3 & S23).
  exists n3. split; [exact Hp3 | now apply same_but_Parent_trans with n2].
Qed.

Lemma bind_Ok {A B : Type} (c : HeapM A) (k : A -> HeapM B) w (a : A) w' :
  c w = (Ok a, w') -> bind c k w = k a w'.
Proof. intros E. unfold bind. now rewrite E. Qed.

Lemma bind_Err {A B : Type} (c : HeapM A) (k : A -> HeapM B) w (e : error) w' :
  c w = (Err e, w') -> bind c k w = (Err e, w').
Proof. intros E. unfold bind. now rewrite E. Qed.

Lemma deref_Ok w (p : nat) (n : Node T) : snd w !! p = Some n -> deref p w = (Ok n, w).
Proof. intros E. unfold deref. now rewrite E. Qed.

Lemma index_lookup {A : Type} (l : list A) (k : nat) (a : A) :
  l !! k = Some a -> index l (Z.of_nat k) = Ok a.
Proof.
  intros E. apply index_Ok_iff. split; [lia|]. now rewrite Nat2Z.id.
Qed.

Lemma insert_with_Parent h (p q : nat) (n : Node T) :
  h !! p = Some n -> <[p := with_Parent q n]> h = alter (with_Parent q) p h.
Proof.
  intros Hp. apply list_eq. intros j.
  rewrite list_lookup_alter. destruct (decide (p = j)) as [<-|Hne].
  - rewrite Hp. cbn. apply list_lookup_insert_eq. now apply lookup_lt_Some in Hp.
  - now rewrite list_lookup_insert_ne.
Qed.

Lemma set_Parent_alter m h (p q : nat) :
  (p < length h)%nat -> set_Parent p q (m, h) = (Ok tt, (m, alter (with_Parent q) p h)).
Proof.
  intros Hp. destruct (lookup_lt_is_Some_2 h p Hp) as [n Hn].
  unfold set_Parent. cbn [fst snd]. rewrite Hn.
  now rewrite (insert_with_Parent h p q n Hn).
Qed.

Lemma hash_of_lookup h (p : nat) (n : Node T) : h !! p = Some n -> hash_of h p = Hash n.
Proof. intros E. unfold hash_of. now rewrite E. Qed.

(** *** One round of the loop *)

(** One round of the loop of [buildIntermediate], when the two nodes
    exist: the rest of the loop runs on [level_step]. *)
Lemma level_body (leaves : list ptr) (i : Z) w (pl pr : nat)
    (k : ptr -> HeapM (ptr + list ptr)) :
  0 <= i ->
  leaves !! Z.to_nat i = Some pl ->
  leaves !! Z.to_nat (if i + 1 =? len leaves then i else i + 1) = Some pr ->
  (pl < length (snd w))%nat -> (pr < length (snd w))%nat ->
  bind (lift (index leaves i)) (fun pl =>
    bind (deref pl) (fun nl =>
      bind (lift (index leaves (if i + 1 =? len leaves then i else i + 1))) (fun pr =>
        bind (deref pr) (fun nr =>
          bind (append_bytes (Hash nl) (Hash nr)) (fun itemHash =>
            bind (hash_sum Sum256 itemHash) (fun digest =>
              bind (alloc (mkNode (Some pl) (Some pr) None false false digest None))
                (fun a => bind (set_Parent pl a) (fun _ =>
                   bind (set_Parent pr a) (fun _ => k a))))))))) w
  = k (length (snd w)) (level_step w pl pr).
Proof.
  intros Hi Hpl Hpr Hl Hr. destruct w as [m h]. cbn [fst snd] in *.
  destruct (lookup_lt_is_Some_2 h pl Hl) as [nl Hnl].
  destruct (lookup_lt_is_Some_2 h pr Hr) as [nr Hnr].
  assert (Eil : index leaves i = Ok pl) by (apply index_Ok_iff; now split).
  assert (Eir : index leaves (if i + 1 =? len leaves then i else i + 1) = Ok pr).
  { apply index_Ok_iff. split; [destruct (i + 1 =? len leaves); lia | exact Hpr]. }
  unfold lift at 1. rewrite (bind_Ok _ _ (m, h) pl (m, h)) by now rewrite Eil.
  rewrite (bind_Ok _ _ (m, h) nl (m, h)) by now apply deref_Ok.
  unfold lift at 1. rewrite (bind_Ok _ _ (m, h) pr (m, h)) by now rewrite Eir.
  rewrite (bind_Ok _ _ (m, h) nr (m, h)) by now apply deref_Ok.
  erewrite (bind_Ok _ _ (m, h)) by reflexivity.
  erewrite (bind_Ok _ _ _) by reflexivity.
  erewrite (bind_Ok _ _ _ (length h)) by reflexivity.
  cbn [fst snd].
  erewrite (bind_Ok _ _ _ tt) by (apply set_Parent_alter; rewrite length_app; simpl; lia).
  erewrite (bind_Ok _ _ _ tt)
    by (apply set_Parent_alter; rewrite length_alter, length_app; simpl; lia).
  unfold GraphSpec.level_step, GraphSpec.link_step, GraphSpec.pair_step. cbn [fst snd].
  now rewrite (hash_of_lookup _ _ _ Hnl), (hash_of_lookup _ _ _ Hnr).
Qed.

(** The rule of the loop: a property of (index, parents so far, arrays
    and heap) that every round carries over holds when the loop
    returns, and the loop does return. *)
Lemma level_loop_rule (leaves : list ptr)
    (I : Z -> list ptr -> mem * list (Node T) -> Prop) :
  (forall i nodes w, I i nodes w -> valid (snd w) leaves) ->
  (forall i nodes w pl pr,
     I i nodes w -> 0 <= i < len leaves ->
     leaves !! Z.to_nat i = Some pl ->
     leaves !! Z.to_nat (if i + 1 =? len leaves then i else i + 1) = Some pr ->
     I (i + 2) (nodes ++ [length (snd w)]) (level_step w pl pr)) ->
  forall (fuel : nat) (i : Z) (nodes : list ptr) w,
    0 <= i -> I i nodes w -> len leaves - i <= 2 * Z.of_nat fuel ->
    exists r w',
      level_loop fuel leaves i nodes w = (Ok r, w') /\
      match r with
      | inl n => len leaves = 2 /\ i < len leaves /\ I (i + 2) (nodes ++ [n]) w'
      | inr ns =>
          (len leaves <> 2 \/ len leaves <= i) /\
          exists i', len leaves <= i' /\ I i' ns w'
      end.
Proof.
  intros Hvalid Hstep. induction fuel as [|fuel IH]; intros i nodes w Hi HI Hfuel.
  - exists (inr nodes), w. cbn [Graph.level_loop].
    replace (i <? len leaves) with false by lia.
    split; [reflexivity|]. split; [right; lia|]. exists i. split; [lia | exact HI].
  - cbn [Graph.level_loop]. destruct (i <? len leaves) eqn:Hlt.
    2:{ exists (inr nodes), w. split; [reflexivity|]. split; [right; lia|].
        exists i. split; [lia | exact HI]. }
    set (right := if i + 1 =? len leaves then i else i + 1) in *.
    assert (Hr : 0 <= right < len leaves)
      by (unfold right; destruct (i + 1 =? len leaves) eqn:?; lia).
    destruct (lookup_lt_is_Some_2 leaves (Z.to_nat i)) as [pl Hpl]; [unfold len in *; lia|].
    destruct (lookup_lt_is_Some_2 leaves (Z.to_nat right)) as [pr Hpr];
      [unfold len in *; lia|].
    pose proof (Hvalid i nodes w HI) as Hv.
    pose proof (proj1 (list.Forall_lookup _ _) Hv _ _ Hpl) as Hpl_lt.
    pose proof (proj1 (list.Forall_lookup _ _) Hv _ _ Hpr) as Hpr_lt.
    cbn in Hpl_lt, Hpr_lt.
    pose proof (Hstep i nodes w pl pr HI ltac:(lia) Hpl Hpr) as HI'.
    destruct (len leaves =? 2) eqn:E2.
    + exists (inl (length (snd w))), (level_step w pl pr). split.
      * exact (level_body leaves i w pl pr (fun a => ret (inl a))
                 ltac:(lia) Hpl Hpr Hpl_lt Hpr_lt).
      * split; [lia|]. split; [lia | exact HI'].
    + destruct (IH (i + 2) (nodes ++ [length (snd w)]) (level_step w pl pr)
                  ltac:(lia) HI' ltac:(lia)) as (r & w' & E & Hres).
      exists r, w'. split.
      * etransitivity; [|exact E].
        exact (level_body leaves i w pl pr
                 (fun a => level_loop fuel leaves (i + 2) (nodes ++ [a]))
                 ltac:(lia) Hpl Hpr Hpl_lt Hpr_lt).
      * destruct r as [n|ns]; [lia|].
        destruct Hres as (_ & i' & Hi' & HIi'). split; [left; lia|].
        exists i'. split; [lia | exact HIi'].
Qed.

Lemma link_step_length h (pl pr : nat) (d : bslice) : length (link_step h pl pr d) = S (length h).
Proof.
  unfold GraphSpec.link_step. rewrite !length_alter, length_app. simpl. lia.
Qed.

(** The nodes of the heap after one round. *)
Lemma link_step_lookup h (pl pr p : nat) (d : bslice) :
  (pl < length h)%nat -> (pr < length h)%nat ->
  link_step h pl pr d !! p =
    if decide (p = pl \/ p = pr) then with_Parent (length h) <$> h !! p
    else if decide (p = length h)
         then Some (mkNode (Some pl) (Some pr) None false false d None)
         else h !! p.
Proof.
  intros Hl Hr. unfold GraphSpec.link_step. rewrite !list_lookup_alter.
  assert (Hin : forall q, (q < length h)%nat -> (h ++ [mkNode (Some pl) (Some pr) None false false d None]) !! q
     = h !! q) by (intros q Hq; now rewrite lookup_app_l).
  repeat case_decide; subst; try (exfalso; tauto); try lia.
  all: rewrite ?Hin by lia.
  all: try reflexivity.
  - now destruct (h !! p).
  - rewrite lookup_app_r by lia. now rewrite Nat.sub_diag.
  - destruct (decide (p < length h)%nat); [now apply Hin|].
    rewrite !lookup_ge_None_2; [reflexivity | lia | rewrite length_app; simpl; lia].
Qed.

Lemma link_step_old h (pl pr p : nat) (d : bslice) (n' : Node T) :
  (pl < length h)%nat -> (pr < length h)%nat -> (p < length h)%nat ->
  link_step h pl pr d !! p = Some n' ->
  exists n, h !! p = Some n /\ same_but_Parent n n' /\
    (Parent n' = if decide (p = pl \/ p = pr) then Some (length h) else Parent n).
Proof.
  intros Hl Hr Hp E. rewrite link_step_lookup in E by assumption.
  destruct (lookup_lt_is_Some_2 h p Hp) as [n Hn]. exists n. split; [exact Hn|].
  rewrite Hn in E. destruct (decide (p = pl \/ p = pr)).
  - injection E as <-. split; [apply same_but_Parent_with_Parent | reflexivity].
  - rewrite decide_False in E by lia. injection E as <-.
    split; [apply same_but_Parent_refl | reflexivity].
Qed.

Lemma link_step_new h (pl pr : nat) (d : bslice) :
  (pl < length h)%nat -> (pr < length h)%nat ->
  link_step h pl pr d !! length h
  = Some (mkNode (Some pl) (Some pr) None false false d None).
Proof.
  intros Hl Hr. rewrite link_step_lookup by assumption.
  rewrite decide_False by lia. now rewrite decide_True.
Qed.

Lemma link_step_hash_old h (pl pr p : nat) (d : bslice) :
  (pl < length h)%nat -> (pr < length h)%nat -> (p < length h)%nat ->
  hash_of (link_step h pl pr d) p = hash_of h p.
Proof.
  intros Hl Hr Hp. unfold hash_of at 1.
  destruct (link_step h pl pr d !! p) as [n'|] eqn:E.
  - destruct (link_step_old h pl pr p d n' Hl Hr Hp E) as (n & Hn & (_ & _ & _ & _ & HH & _) & _).
    now rewrite (hash_of_lookup _ _ _ Hn).
  - apply lookup_ge_None in E. rewrite link_step_length in E. lia.
Qed.

(** The two nodes of a round are the next one or two of the level. *)
Lemma drop_round (leaves : list ptr) (i : Z) (pl pr : nat) :
  0 <= i < len leaves ->
  leaves !! Z.to_nat i = Some pl ->
  leaves !! Z.to_nat (if i + 1 =? len leaves then i else i + 1) = Some pr ->
  drop (Z.to_nat i) leaves
  = (if i + 1 =? len leaves then [pl] else [pl; pr]) ++ drop (Z.to_nat (i + 2)) leaves /\
  (i + 1 = len leaves -> pr = pl).
Proof.
  intros Hi Hpl Hpr.
  replace (Z.to_nat (i + 2)) with (S (S (Z.to_nat i))) by lia.
  rewrite (drop_S _ _ _ Hpl). destruct (i + 1 =? len leaves) eqn:E.
  - split; [|intros _; congruence]. cbn [app]. f_equal.
    rewrite !drop_ge; [reflexivity | unfold len in *; lia | unfold len in *; lia].
  - split; [|lia]. replace (Z.to_nat (i + 1)) with (S (Z.to_nat i)) in Hpr by lia.
    now rewrite (drop_S _ _ _ Hpr).
Qed.

Lemma take_round {A : Type} (l : list A) (i : Z) (a b : A) :
  0 <= i < len l ->
  l !! Z.to_nat i = Some a ->
  l !! Z.to_nat (if i + 1 =? len l then i else i + 1) = Some b ->
  take (Z.to_nat (i + 2)) l
  = take (Z.to_nat i) l ++ (if i + 1 =? len l then [a] else [a; b]).
Proof.
  intros Hi Ha Hb.
  replace (Z.to_nat (i + 2)) with (S (S (Z.to_nat i))) by lia.
  destruct (i + 1 =? len l) eqn:E.
  - rewrite take_ge by (unfold len in *; lia).
    rewrite <- (take_drop (Z.to_nat i) l) at 1. f_equal.
    rewrite (drop_S _ _ _ Ha). f_equal. apply drop_ge. unfold len in *. lia.
  - replace (Z.to_nat (i + 1)) with (S (Z.to_nat i)) in Hb by lia.
    rewrite (take_S_r _ _ _ Hb), (take_S_r _ _ _ Ha). now rewrite <- app_assoc.
Qed.

(** One round of the loop keeps the state of the level. *)
Lemma level_inv_step (leaves : list ptr) (m0 : mem) (base : nat) (hs : list bslice)
    (i : Z) (nodes : list ptr) w (pl pr : nat) :
  level_inv leaves m0 base hs i nodes w -> 0 <= i < len leaves ->
  leaves !! Z.to_nat i = Some pl ->
  leaves !! Z.to_nat (if i + 1 =? len leaves then i else i + 1) = Some pr ->
  level_inv leaves m0 base hs (i + 2) (nodes ++ [length (snd w)]) (level_step w pl pr).
Proof.
  destruct w as [m h].
  intros [Hev Hrg Hbase Hlv Hnd Hndl Hndn Hord Hpar Hch Horph Hhs Hrun] Hi Hpl Hpr.
  cbn [fst snd] in *.
  pose proof (proj1 (list.Forall_lookup _ _) Hlv _ _ Hpl) as Hplb. cbn in Hplb.
  pose proof (proj1 (list.Forall_lookup _ _) Hlv _ _ Hpr) as Hprb. cbn in Hprb.
  assert (Hl : (pl < length h)%nat) by lia.
  assert (Hr : (pr < length h)%nat) by lia.
  set (d := fst (pair_step m (hash_of h pl) (hash_of h pr))).
  set (m' := snd (pair_step m (hash_of h pl) (hash_of h pr))).
  change (level_step (m, h) pl pr) with (m', link_step h pl pr d).
  destruct (drop_round leaves i pl pr Hi Hpl Hpr) as [Hdrop Hsame].
  assert (Hnd_drop : NoDup (drop (Z.to_nat i) leaves)).
  { rewrite <- (take_drop (Z.to_nat i) leaves) in Hndl.
    now apply list.NoDup_app in Hndl as (_ & _ & H). }
  assert (Hnotin : forall p, p = pl \/ p = pr -> p ∉ drop (Z.to_nat (i + 2)) leaves).
  { rewrite Hdrop in Hnd_drop. apply list.NoDup_app in Hnd_drop as (_ & Hdis & _).
    intros p Hp. apply Hdis. destruct (i + 1 =? len leaves) eqn:E.
    - apply list_elem_of_singleton. destruct Hp as [->| ->]; [reflexivity|].
      apply Hsame. lia.
    - destruct Hp as [->| ->]; [left | right; left]. }
  assert (Hin_drop : forall p, p ∈ drop (Z.to_nat i) leaves <->
                     p = pl \/ p = pr \/ p ∈ drop (Z.to_nat (i + 2)) leaves).
  { intros p. rewrite Hdrop, elem_of_app. destruct (i + 1 =? len leaves) eqn:E.
    - rewrite list_elem_of_singleton. specialize (Hsame ltac:(lia)). subst pr. tauto.
    - rewrite elem_of_cons, list_elem_of_singleton. tauto. }
  constructor; cbn [fst snd].
  - rewrite Z.even_add, Hev. reflexivity.
  - lia.
  - rewrite link_step_length. lia.
  - exact Hlv.
  - rewrite link_step_length. apply Forall_app. split.
    + eapply Forall_impl; [|exact Hnd]. cbn. intros; lia.
    + apply Forall_singleton. lia.
  - exact Hndl.
  - apply list.NoDup_app. split; [exact Hndn|]. split; [|apply NoDup_singleton].
    intros p Hp Hp'. apply list_elem_of_singleton in Hp'. subst p.
    pose proof (proj1 (list.Forall_forall _ _) Hnd _ Hp) as Hlt. cbn in Hlt. lia.
  - (* ordered *)
    intros p n c Hp Hc.
    destruct (decide (p < length h)%nat) as [Hplt|Hpge].
    + destruct (link_step_old h pl pr p d n Hl Hr Hplt Hp) as (n0 & Hn0 & (HL & HR & _) & _).
      apply (Hord p n0 c Hn0). rewrite HL, HR. exact Hc.
    + assert (p = length h) as ->.
      { apply lookup_lt_Some in Hp. rewrite link_step_length in Hp. lia. }
      rewrite link_step_new in Hp by assumption. injection Hp as <-.
      cbn [Left Right] in Hc. destruct Hc as [[= <-]|[= <-]]; lia.
  - (* parent_ok *)
    intros p n q Hp Hq.
    destruct (decide (p < length h)%nat) as [Hplt|Hpge].
    + destruct (link_step_old h pl pr p d n Hl Hr Hplt Hp) as (n0 & Hn0 & _ & HP).
      rewrite HP in Hq. destruct (decide (p = pl \/ p = pr)) as [Hpp|Hpp].
      * injection Hq as <-. eexists. split; [now apply link_step_new|].
        cbn [leaf Left Right]. split; [reflexivity|].
        destruct Hpp as [->| ->]; [now left | now right].
      * destruct (Hpar p n0 q Hn0 Hq) as (mq & Hm & Hleaf & Hchild).
        assert (Hqlt : (q < length h)%nat) by (now apply lookup_lt_Some in Hm).
        destruct (lookup_lt_is_Some_2 (link_step h pl pr d) q) as [mq' Hm'];
          [rewrite link_step_length; lia|].
        destruct (link_step_old h pl pr q d mq' Hl Hr Hqlt Hm')
          as (mq0 & Hm0 & (HL & HR & Hlf & _) & _).
        assert (mq0 = mq) as -> by congruence.
        exists mq'. split; [exact Hm'|]. rewrite <- HL, <- HR, <- Hlf. now split.
    + assert (p = length h) as ->.
      { apply lookup_lt_Some in Hp. rewrite link_step_length in Hp. lia. }
      rewrite link_step_new in Hp by assumption. injection Hp as <-. discriminate Hq.
  - (* children_ok *)
    intros p n c Hp Hc.
    destruct (decide (p < length h)%nat) as [Hplt|Hpge].
    + destruct (link_step_old h pl pr p d n Hl Hr Hplt Hp) as (n0 & Hn0 & (HL & HR & _) & _).
      rewrite <- HL, <- HR in Hc. destruct (Hch p n0 c Hn0 Hc) as (nc & Hnc & HP).
      assert (Hclt : (c < length h)%nat) by (now apply lookup_lt_Some in Hnc).
      destruct (lookup_lt_is_Some_2 (link_step h pl pr d) c) as [nc' Hnc'];
        [rewrite link_step_length; lia|].
      destruct (link_step_old h pl pr c d nc' Hl Hr Hclt Hnc') as (nc0 & Hnc0 & _ & HP').
      assert (nc0 = nc) as -> by congruence.
      exists nc'. split; [exact Hnc'|]. rewrite HP'.
      rewrite decide_False; [exact HP|].
      intros Hcc. pose proof (Horph c nc Hnc) as Ho.
      rewrite elem_of_app, Hin_drop in Ho.
      assert (Hnone : Parent nc = None) by (apply Ho; left; tauto).
      congruence.
    + assert (p = length h) as ->.
      { apply lookup_lt_Some in Hp. rewrite link_step_length in Hp. lia. }
      rewrite link_step_new in Hp by assumption. injection Hp as <-.
      cbn [Left Right] in Hc.
      assert (Hcc : c = pl \/ c = pr) by (destruct Hc as [[= <-]|[= <-]]; tauto).
      assert (Hclt : (c < length h)%nat) by (destruct Hcc as [->| ->]; assumption).
      destruct (lookup_lt_is_Some_2 (link_step h pl pr d) c) as [nc' Hnc'];
        [rewrite link_step_length; lia|].
      destruct (link_step_old h pl pr c d nc' Hl Hr Hclt Hnc') as (nc0 & Hnc0 & _ & HP').
      exists nc'. split; [exact Hnc'|]. rewrite HP'. now rewrite decide_True.
  - (* orphans *)
    intros p n Hp. rewrite !elem_of_app, list_elem_of_singleton.
    destruct (decide (p < length h)%nat) as [Hplt|Hpge].
    + destruct (link_step_old h pl pr p d n Hl Hr Hplt Hp) as (n0 & Hn0 & _ & HP).
      rewrite HP. pose proof (Horph p n0 Hn0) as Ho.
      rewrite elem_of_app, Hin_drop in Ho.
      destruct (decide (p = pl \/ p = pr)) as [Hpp|Hpp].
      * split; [discriminate|]. intros [Hd|[Hn|He]].
        -- exfalso. exact (Hnotin p Hpp Hd).
        -- exfalso. pose proof (proj1 (list.Forall_forall _ _) Hnd _ Hn) as Hlt. cbn in Hlt.
           destruct Hpp as [->| ->]; lia.
        -- lia.
      * rewrite Ho. split.
        -- intros [[?|[?|?]]|?]; [tauto | tauto | now left | right; now left].
        -- intros [?|[?|?]]; [left; right; now right | now right | lia].
    + assert (p = length h) as ->.
      { apply lookup_lt_Some in Hp. rewrite link_step_length in Hp. lia. }
      rewrite link_step_new in Hp by assumption. injection Hp as <-.
      cbn [Parent]. split; [intros _; right; now right | reflexivity].
  - (* the hashes of the level *)
    rewrite <- Hhs. apply map_ext_in. intros p Hp%list_elem_of_In.
    pose proof (proj1 (list.Forall_forall _ _) Hlv _ Hp) as Hlt. cbn in Hlt.
    apply link_step_hash_old; lia.
  - (* the hashes of the parents, and the arrays *)
    rewrite map_app. cbn [map].
    assert (Hold : map (hash_of (link_step h pl pr d)) nodes = map (hash_of h) nodes).
    { apply map_ext_in. intros p Hp%list_elem_of_In.
      pose proof (proj1 (list.Forall_forall _ _) Hnd _ Hp) as Hlt. cbn in Hlt.
      apply link_step_hash_old; lia. }
    assert (Hnew : hash_of (link_step h pl pr d) (length h) = d).
    { unfold hash_of at 1. now rewrite link_step_new. }
    rewrite Hold, Hnew.
    assert (Hlen : len hs = len leaves).
    { rewrite <- Hhs. unfold len. now rewrite length_map. }
    assert (Ha : hs !! Z.to_nat i = Some (hash_of h pl)).
    { rewrite <- Hhs. change (map (hash_of h) leaves) with (hash_of h <$> leaves).
      now rewrite list_lookup_fmap, Hpl. }
    assert (Hb : hs !! Z.to_nat (if i + 1 =? len hs then i else i + 1)
                 = Some (hash_of h pr)).
    { rewrite Hlen, <- Hhs. change (map (hash_of h) leaves) with (hash_of h <$> leaves).
      now rewrite list_lookup_fmap, Hpr. }
    rewrite (take_round hs i _ _ ltac:(lia) Ha Hb).
    rewrite level_run_app.
    + rewrite Hrun. cbn [fst snd]. rewrite Hlen. destruct (i + 1 =? len leaves) eqn:E.
      * unfold d, m'. rewrite (Hsame ltac:(lia)). reflexivity.
      * reflexivity.
    + rewrite length_take. exists (Z.to_nat (i / 2)).
      pose proof (Zeven_div2 i ltac:(now apply Zeven_bool_iff)) as Hdiv.
      rewrite Z.div2_div in Hdiv. unfold len in *. lia.
Qed.

(** The state in which the loop is entered. *)
Lemma level_inv_start (leaves : list ptr) m h :
  NoDup leaves -> valid h leaves -> ordered h -> parent_ok h -> children_ok h ->
  orphans h leaves ->
  level_inv leaves m (length h) (map (hash_of h) leaves) 0 [] (m, h).
Proof.
  intros Hnd Hv Hord Hpar Hch Horph.
  constructor; cbn [fst snd]; try assumption; try reflexivity.
  - unfold len. lia.
  - apply Forall_nil_2.
  - apply NoDup_nil_2.
  - cbn [Z.to_nat drop]. now rewrite app_nil_r.
Qed.

Lemma extends_link_step h (pl pr : nat) (d : bslice) :
  (pl < length h)%nat -> (pr < length h)%nat -> extends h (link_step h pl pr d).
Proof.
  intros Hl Hr p n Hp. apply lookup_lt_Some in Hp as Hlt.
  destruct (lookup_lt_is_Some_2 (link_step h pl pr d) p) as [n' Hn'];
    [rewrite link_step_length; lia|].
  destruct (link_step_old h pl pr p d n' Hl Hr Hlt Hn') as (n0 & Hn0 & Hs & _).
  exists n'. split; [exact Hn'|]. congruence.
Qed.

Lemma extends_lt h h' (p : nat) : extends h h' -> (p < length h)%nat -> (p < length h')%nat.
Proof.
  intros He Hp. destruct (lookup_lt_is_Some_2 h p Hp) as [n Hn].
  destruct (He p n Hn) as (n' & Hn' & _). now apply lookup_lt_Some in Hn'.
Qed.

Lemma node_ok_extends cs m h h' (n n' : Node T) :
  node_ok cs m h n -> extends h h' -> same_but_Parent n n' -> node_ok cs m h' n'.
Proof.
  intros Hok He (HL & HR & Hleaf & _ & HH & HI). unfold GraphSpec.node_ok in *.
  rewrite <- Hleaf. destruct (leaf n).
  - destruct Hok as (c & Hc & Hi & Hh). exists c. repeat split; congruence.
  - destruct Hok as (l & r & nl & nr & Hl & Hr & Hnl & Hnr & Hh).
    destruct (He l nl Hnl) as (nl' & Hnl' & (_ & _ & _ & _ & Hhl & _)).
    destruct (He r nr Hnr) as (nr' & Hnr' & (_ & _ & _ & _ & Hhr & _)).
    exists l, r, nl', nr'. repeat split; congruence.
Qed.

Lemma shape_ok_step cs h (pl pr : nat) (d : bslice) :
  shape_ok cs h -> (pl < length h)%nat -> (pr < length h)%nat ->
  shape_ok cs (link_step h pl pr d).
Proof.
  intros Hok Hl Hr p n' Hp.
  pose proof (extends_link_step h pl pr d Hl Hr) as He.
  destruct (decide (p < length h)%nat) as [Hlt|Hge].
  - destruct (link_step_old h pl pr p d n' Hl Hr Hlt Hp)
      as (n & Hn & (HL & HR & Hleaf & _ & HH & HI) & _).
    pose proof (Hok p n Hn) as Hnode. rewrite <- Hleaf. destruct (leaf n).
    + destruct Hnode as (c & Hc & Hi & Hh). exists c. repeat split; congruence.
    + destruct Hnode as (l & r & nl & nr & Hl' & Hr' & Hnl & Hnr).
      destruct (He l nl Hnl) as (nl' & Hnl' & _). destruct (He r nr Hnr) as (nr' & Hnr' & _).
      exists l, r, nl', nr'. repeat split; congruence.
  - assert (p = length h) as ->.
    { apply lookup_lt_Some in Hp. rewrite link_step_length in Hp. lia. }
    rewrite link_step_new in Hp by assumption. injection Hp as <-. cbn [leaf].
    destruct (lookup_lt_is_Some_2 h pl Hl) as [nl Hnl].
    destruct (lookup_lt_is_Some_2 h pr Hr) as [nr Hnr].
    destruct (He pl nl Hnl) as (nl' & Hnl' & _). destruct (He pr nr Hnr) as (nr' & Hnr' & _).
    exists pl, pr, nl', nr'. now repeat split.
Qed.

(** One round of the loop when no hash has room after it: nothing is
    written to the arrays, and the new parent holds the digest of the
    bytes of its two children. *)
Lemma tight_inv_step cs (m0 : mem) w (pl pr : nat) :
  tight_inv cs m0 w ->
  (pl < length (snd w))%nat -> (pr < length (snd w))%nat ->
  tight_inv cs m0 (level_step w pl pr).
Proof.
  destruct w as [m h]. intros [Hm Hok Ht] Hl Hr. cbn [fst snd] in *. subst m.
  destruct (lookup_lt_is_Some_2 h pl Hl) as [nl Hnl].
  destruct (lookup_lt_is_Some_2 h pr Hr) as [nr Hnr].
  unfold GraphSpec.level_step. cbn [fst snd].
  rewrite (pair_step_tight m0 (hash_of h pl) (hash_of h pr))
    by (rewrite (hash_of_lookup _ _ _ Hnl); exact (Ht pl nl Hnl)).
  cbn [fst snd].
  set (d := Fresh (Sum256 (view m0 (hash_of h pl) ++ view m0 (hash_of h pr)))).
  pose proof (extends_link_step h pl pr d Hl Hr) as He.
  constructor; cbn [fst snd]; [reflexivity| |].
  - intros p n' Hp. destruct (decide (p < length h)%nat) as [Hlt|Hge].
    + destruct (link_step_old h pl pr p d n' Hl Hr Hlt Hp) as (n & Hn & Hs & _).
      exact (node_ok_extends cs m0 h _ n n' (Hok p n Hn) He Hs).
    + assert (p = length h) as ->.
      { apply lookup_lt_Some in Hp. rewrite link_step_length in Hp. lia. }
      rewrite link_step_new in Hp by assumption. injection Hp as <-.
      unfold GraphSpec.node_ok. cbn [leaf].
      destruct (He pl nl Hnl) as (nl' & Hnl' & (_ & _ & _ & _ & Hhl & _)).
      destruct (He pr nr Hnr) as (nr' & Hnr' & (_ & _ & _ & _ & Hhr & _)).
      exists pl, pr, nl', nr'. cbn [Left Right Hash].
      split; [reflexivity|]. split; [reflexivity|]. split; [exact Hnl'|].
      split; [exact Hnr'|]. unfold d.
      now rewrite (hash_of_lookup _ _ _ Hnl), (hash_of_lookup _ _ _ Hnr), Hhl, Hhr.
  - intros p n' Hp. destruct (decide (p < length h)%nat) as [Hlt|Hge].
    + destruct (link_step_old h pl pr p d n' Hl Hr Hlt Hp)
        as (n & Hn & (_ & _ & _ & _ & HH & _) & _).
      rewrite <- HH. exact (Ht p n Hn).
    + assert (p = length h) as ->.
      { apply lookup_lt_Some in Hp. rewrite link_step_length in Hp. lia. }
      rewrite link_step_new in Hp by assumption. injection Hp as <-. exact I.
Qed.

Lemma length_level_run m (hs : list bslice) :
  (length hs <= 2 * length (fst (level_run m hs)) <= length hs + 1)%nat.
Proof.
  assert (H : forall (hs : list bslice) m,
            (length hs <= 2 * length (fst (level_run m hs)) <= length hs + 1)%nat /\
            (forall a, (length (a :: hs) <= 2 * length (fst (level_run m (a :: hs)))
                        <= length (a :: hs) + 1)%nat)).
  { clear m hs. induction hs as [|b hs IH]; intros m.
    - split; [cbn; lia|]. intros a. cbn. lia.
    - split; [apply IH|]. intros a. cbn [GraphSpec.level_run fst length].
      destruct (IH (snd (pair_step m a b))) as [IH1 _]. lia. }
  apply H.
Qed.

Lemma root_run_S (fuel : nat) m (hs : list bslice) :
  length hs <> 2%nat ->
  root_run (S fuel) m hs = root_run fuel (snd (level_run m hs)) (fst (level_run m hs)).
Proof.
  intros H. destruct hs as [|a [|b [|c hs]]]; try reflexivity. now destruct H.
Qed.

(** [buildIntermediate] returns, and what it leaves behind: the nodes
    it found are as they were but for their parents, the links are in
    order, the node it returns is the only one without parent, and its
    hash and the arrays are those of [root_run]. *)
Lemma buildIntermediate_spec cs (m0 : mem) :
  forall (fuel : nat) (leaves : list ptr) w,
    NoDup leaves -> valid (snd w) leaves ->
    ordered (snd w) -> parent_ok (snd w) -> children_ok (snd w) ->
    orphans (snd w) leaves ->
    2 <= len leaves <= Z.of_nat fuel ->
    exists (root : ptr) w',
      buildIntermediate fuel leaves w = (Ok root, w') /\
      extends (snd w) (snd w') /\
      ordered (snd w') /\ parent_ok (snd w') /\ children_ok (snd w') /\
      orphans (snd w') [root] /\
      (exists node, snd w' !! root = Some node /\ leaf node = false) /\
      (hash_of (snd w') root, fst w') = root_run fuel (fst w) (map (hash_of (snd w)) leaves) /\
      (shape_ok cs (snd w) -> shape_ok cs (snd w')) /\
      (tight_inv cs m0 w -> tight_inv cs m0 w').
Proof.
  induction fuel as [|fuel IH]; intros leaves w Hnd Hv Hord Hpar Hch Horph Hlen; [lia|].
  destruct w as [m h]. cbn [fst snd] in *.
  set (hs := map (hash_of h) leaves).
  set (J := fun (i : Z) (nodes : list ptr) (w' : mem * list (Node T)) =>
              level_inv leaves m (length h) hs i nodes w' /\
              extends h (snd w') /\
              Forall (fun p => exists n, snd w' !! p = Some n /\ leaf n = false) nodes /\
              (shape_ok cs h -> shape_ok cs (snd w')) /\
              (tight_inv cs m0 (m, h) -> tight_inv cs m0 w')).
  assert (Hvalid : forall i nodes w', J i nodes w' -> valid (snd w') leaves).
  { intros i nodes w' (Hinv & _). destruct Hinv as [_ _ Hb Hl _ _ _ _ _ _ _ _ _].
    eapply Forall_impl; [|exact Hl]. cbn. intros; lia. }
  assert (Hstep : forall i nodes w' pl pr,
            J i nodes w' -> 0 <= i < len leaves ->
            leaves !! Z.to_nat i = Some pl ->
            leaves !! Z.to_nat (if i + 1 =? len leaves then i else i + 1) = Some pr ->
            J (i + 2) (nodes ++ [length (snd w')]) (level_step w' pl pr)).
  { intros i nodes w' pl pr HJ Hi Hpl Hpr.
    pose proof (Hvalid i nodes w' HJ) as Hv'.
    pose proof (proj1 (list.Forall_lookup _ _) Hv' _ _ Hpl) as Hl. cbn in Hl.
    pose proof (proj1 (list.Forall_lookup _ _) Hv' _ _ Hpr) as Hr. cbn in Hr.
    destruct HJ as (Hinv & He & Hnl & Hsh & Ht).
    assert (Hes : extends (snd w') (snd (level_step w' pl pr)))
      by (apply extends_link_step; assumption).
    split; [now apply level_inv_step|]. split; [now apply extends_trans with (snd w')|].
    split; [|split; [intros H0; apply shape_ok_step; auto
                    |intros H0; apply tight_inv_step; auto]].
    apply Forall_app. split.
    - eapply Forall_impl; [|exact Hnl]. cbn. intros p (n & Hn & Hleaf).
      destruct (Hes p n Hn) as (n' & Hn' & (_ & _ & Hlf & _)).
      exists n'. split; [exact Hn' | congruence].
    - apply Forall_singleton. eexists. split; [now apply link_step_new | reflexivity]. }
  assert (HJ0 : J 0 [] (m, h)).
  { split; [now apply level_inv_start|]. split; [apply extends_refl|].
    split; [apply Forall_nil_2 | auto]. }
  destruct (level_loop_rule leaves J Hvalid Hstep (length leaves) 0 [] (m, h)
              (Z.le_refl 0) HJ0 ltac:(unfold len; lia)) as (r & w1 & EL & Hres).
  assert (Hlhs : length hs = length leaves) by apply length_map.
  cbn [Graph.buildIntermediate]. rewrite (bind_Ok _ _ _ _ _ EL).
  destruct r as [n|ns].
  - destruct Hres as (Hl2 & _ & Hinv & He & Hnl & Hsh & Ht).
    destruct Hinv as [_ _ _ _ _ _ _ Hord' Hpar' Hch' Horph' _ Hrun'].
    exists n, w1. split; [reflexivity|]. split; [exact He|].
    split; [exact Hord'|]. split; [exact Hpar'|]. split; [exact Hch'|].
    split; [|split; [|split; [|split; [exact Hsh | exact Ht]]]].
    + rewrite drop_ge in Horph' by (unfold len in Hl2; lia). exact Horph'.
    + cbn [app] in Hnl. exact (Forall_inv Hnl).
    + change (Z.to_nat (0 + 2)) with 2%nat in Hrun'.
      destruct hs as [|a [|b [|c hs']]] eqn:Ehs;
        try (cbn in Hlhs; unfold len in Hl2; lia).
      cbn in Hrun'. cbn [GraphSpec.root_run]. injection Hrun' as H1 H2.
      rewrite <- H1, <- H2. reflexivity.
  - destruct Hres as (Hne & i' & Hi' & Hinv & He & Hnl & Hsh & Ht).
    destruct Hinv as [_ _ _ _ Hnodes _ Hndn' Hord' Hpar' Hch' Horph' _ Hrun'].
    assert (Hne2 : len leaves <> 2) by lia.
    rewrite drop_ge in Horph' by (unfold len in Hi'; lia). cbn [app] in Horph'.
    rewrite take_ge in Hrun' by (rewrite Hlhs; unfold len in Hi'; lia).
    pose proof (length_level_run m hs) as Hlr. rewrite Hrun' in Hlr. cbn [fst] in Hlr.
    rewrite length_map, Hlhs in Hlr.
    destruct (IH ns w1 Hndn')
      as (root & w2 & E2 & He2 & Ho & Hp & Hc & Hor & Hnode & Hh & Hsh2 & Ht2);
      try assumption.
    + eapply Forall_impl; [|exact Hnodes]. cbn. intros; lia.
    + unfold len in *. lia.
    + exists root, w2. split; [exact E2|].
      split; [now apply extends_trans with (snd w1)|].
      split; [exact Ho|]. split; [exact Hp|]. split; [exact Hc|]. split; [exact Hor|].
      split; [exact Hnode|]. split; [|split; auto].
      rewrite Hh, root_run_S by (rewrite Hlhs; unfold len in Hne2; lia).
      now rewrite Hrun'.
Qed.

(** *** The leaves *)

Lemma leaf_node_Ok (c : T) (s : bslice) :
  CalculateHash c = Ok s -> leaf_node c = mkNode None None None true false s (Some c).
Proof. intros Hs. unfold leaf_node, item_hash. now rewrite Hs. Qed.

(** The first loop of [buildTree], when every item has a hash. *)
Lemma make_leaves_run (contents : list T) :
  forall (leaves : list ptr) m h,
    Forall (fun c => exists s, CalculateHash c = Ok s) contents ->
    make_leaves contents leaves (m, h)
    = (Ok (leaves ++ seq (length h) (length contents)), (m, h ++ map leaf_node contents)).
Proof.
  induction contents as [|c contents IH]; intros leaves m h Hall.
  - cbn. unfold ret. now rewrite !app_nil_r.
  - apply Forall_cons_1 in Hall as [[s Hs] Hall].
    cbn [make_leaves]. unfold lift at 1.
    rewrite (bind_Ok _ _ (m, h) s (m, h)) by now rewrite Hs.
    rewrite (bind_Ok _ _ (m, h) (length h)
               (m, h ++ [mkNode None None None true false s (Some c)])) by reflexivity.
    rewrite IH by exact Hall. rewrite length_app, <- !app_assoc. cbn [length app seq map].
    replace (length h + 1)%nat with (S (length h)) by lia.
    now rewrite (leaf_node_Ok c s Hs).
Qed.

(** The first loop of [buildTree], when an item has no hash: the error
    of the first such item is returned. *)
Lemma make_leaves_error (pre post : list T) (c : T) (e : error) :
  forall (leaves : list ptr) m h,
    Forall (fun c => exists s, CalculateHash c = Ok s) pre ->
    CalculateHash c = Err e ->
    make_leaves (pre ++ c :: post) leaves (m, h) = (Err e, (m, h ++ map leaf_node pre)).
Proof.
  induction pre as [|c0 pre IH]; intros leaves m h Hall He.
  - cbn [app make_leaves map]. unfold lift, bind. rewrite He. now rewrite app_nil_r.
  - apply Forall_cons_1 in Hall as [[s Hs] Hall].
    cbn [app make_leaves]. unfold lift at 1.
    rewrite (bind_Ok _ _ (m, h) s (m, h)) by now rewrite Hs.
    rewrite (bind_Ok _ _ (m, h) (length h)
               (m, h ++ [mkNode None None None true false s (Some c0)])) by reflexivity.
    rewrite IH by assumption. rewrite <- !app_assoc. cbn [app map].
    now rewrite (leaf_node_Ok c0 s Hs).
Qed.

(** The leaves of [leaf_heap]. *)
Lemma leaf_heap_lookup (contents : list T) (i : nat) (n0 : Node T) :
  leaf_heap contents !! i = Some n0 ->
  exists c,
    if decide (i < length contents)%nat
    then contents !! i = Some c /\ n0 = leaf_node c
    else list.last contents = Some c /\ n0 = dup_node c.
Proof.
  unfold leaf_heap. intros H. apply lookup_app_Some in H as [H|[Hge H]].
  - change (map leaf_node contents) with (leaf_node <$> contents) in H.
    rewrite list_lookup_fmap in H. destruct (contents !! i) as [c|] eqn:Hc; [|discriminate].
    injection H as <-. exists c. apply lookup_lt_Some in Hc as Hlt.
    case_decide; [now split | lia].
  - rewrite length_map in Hge, H. case_decide; [lia|].
    destruct (Z.rem (len contents) 2 =? 1); [|discriminate].
    destruct (list.last contents) as [c|]; [|discriminate].
    exists c. destruct (i - length contents)%nat; [|discriminate].
    injection H as <-. now split.
Qed.

Lemma length_leaf_heap (contents : list T) :
  len (leaf_heap contents) = len contents + len contents mod 2.
Proof.
  unfold leaf_heap. rewrite len_app. unfold len at 1. rewrite length_map. fold (len contents).
  pose proof (rem2_mod (len contents) ltac:(unfold len; lia)) as Hrem.
  pose proof (Z.mod_pos_bound (len contents) 2 ltac:(lia)) as Hmb.
  rewrite Hrem. destruct (len contents mod 2 =? 1) eqn:E.
  - destruct (list.last contents) as [c|] eqn:Hl.
    + change (len [dup_node c]) with 1. lia.
    + apply last_None in Hl. subst contents. discriminate E.
  - change (len []) with 0. lia.
Qed.

Lemma hashes_of_heap h : map (hash_of h) (seq 0 (length h)) = map Hash h.
Proof.
  apply list_eq. intros i.
  change (map (hash_of h) (seq 0 (length h))) with (hash_of h <$> seq 0 (length h)).
  change (map Hash h) with (Hash <$> h). rewrite !list_lookup_fmap.
  destruct (decide (i < length h)%nat) as [Hlt|Hge].
  - rewrite lookup_seq_lt by exact Hlt. cbn.
    destruct (lookup_lt_is_Some_2 h i Hlt) as [n Hn]. rewrite Hn. cbn.
    now rewrite (hash_of_lookup h i n Hn).
  - rewrite lookup_seq_ge by lia. now rewrite lookup_ge_None_2 by lia.
Qed.

Lemma hashes_of_leaf_heap (contents : list T) :
  map Hash (leaf_heap contents) = leaf_hashes contents.
Proof.
  unfold leaf_heap, leaf_hashes. rewrite map_app, map_map. cbn [Hash leaf_node].
  unfold len at 2. rewrite length_map. fold (len contents).
  destruct (Z.rem (len contents) 2 =? 1); [|now rewrite app_nil_r].
  change (map item_hash contents) with (item_hash <$> contents).
  rewrite fmap_last. destruct (list.last contents) as [c|]; [reflexivity|].
  now rewrite app_nil_r.
Qed.

(** The nodes of [leaf_heap]. *)
Lemma leaf_heap_nodes (contents : list T) :
  Forall (fun c => exists s, CalculateHash c = Ok s) contents ->
  forall (p : nat) (n : Node T), leaf_heap contents !! p = Some n ->
    exists c s, c ∈ contents /\ CalculateHash c = Ok s /\ item_hash c = s /\
      (n = mkNode None None None true false s (Some c) \/
       n = mkNode None None None true true s (Some c)).
Proof.
  intros Hall p n Hp. destruct (leaf_heap_lookup contents p n Hp) as [c Hc].
  assert (Hin : c ∈ contents /\ (n = leaf_node c \/ n = dup_node c)).
  { case_decide.
    - destruct Hc as [Hc ->]. split; [now apply list_elem_of_lookup_2 in Hc | now left].
    - destruct Hc as [Hc ->]. rewrite last_lookup in Hc.
      split; [now apply list_elem_of_lookup_2 in Hc | now right]. }
  destruct Hin as [Hin Hn].
  destruct (proj1 (list.Forall_forall _ _) Hall c Hin) as [s Hs].
  assert (Hi : item_hash c = s) by (unfold item_hash; now rewrite Hs).
  exists c, s. split; [exact Hin|]. split; [exact Hs|]. split; [exact Hi|].
  unfold leaf_node, dup_node in Hn. rewrite Hi in Hn. exact Hn.
Qed.

(** The heap of the leaves is in the state in which [buildIntermediate]
    is entered. *)
Lemma leaf_heap_start (contents : list T) :
  Forall (fun c => exists s, CalculateHash c = Ok s) contents ->
  ordered (leaf_heap contents) /\ parent_ok (leaf_heap contents) /\
  children_ok (leaf_heap contents) /\
  orphans (leaf_heap contents) (seq 0 (length (leaf_heap contents))).
Proof.
  intros Hall. pose proof (leaf_heap_nodes contents Hall) as Hnode.
  split; [|split; [|split]].
  - intros p n c Hp Hc. destruct (Hnode p n Hp) as (c' & s & _ & _ & _ & [->| ->]);
      cbn in Hc; destruct Hc; discriminate.
  - intros p n q Hp Hq. destruct (Hnode p n Hp) as (c' & s & _ & _ & _ & [->| ->]);
      discriminate.
  - intros p n c Hp Hc. destruct (Hnode p n Hp) as (c' & s & _ & _ & _ & [->| ->]);
      cbn in Hc; destruct Hc; discriminate.
  - intros p n Hp. apply lookup_lt_Some in Hp as Hlt.
    rewrite elem_of_seq.
    destruct (Hnode p n Hp) as (c' & s & _ & _ & _ & [->| ->]); cbn [Parent];
      (split; [intros _; lia | reflexivity]).
Qed.

Lemma leaf_heap_shape (contents : list T) :
  Forall (fun c => exists s, CalculateHash c = Ok s) contents ->
  shape_ok contents (leaf_heap contents).
Proof.
  intros Hall p n Hp.
  destruct (leaf_heap_nodes contents Hall p n Hp) as (c & s & Hin & Hs & _ & [->| ->]);
    cbn [leaf]; exists c; now repeat split.
Qed.

(** When no hash of the items has room after it, none of the leaves
    has. *)
Lemma leaf_heap_tight (contents : list T) (m : mem) :
  Forall (fun c => exists s, CalculateHash c = Ok s) contents ->
  tight_items contents ->
  tight_inv contents m (m, leaf_heap contents).
Proof.
  intros Hall Ht. pose proof (leaf_heap_nodes contents Hall) as Hnode.
  constructor; cbn [fst snd]; [reflexivity| |].
  - intros p n Hp. destruct (Hnode p n Hp) as (c & s & Hin & Hs & _ & [->| ->]);
      unfold GraphSpec.node_ok; cbn [leaf]; exists c; now repeat split.
  - intros p n Hp. destruct (Hnode p n Hp) as (c & s & Hin & _ & Hi & [->| ->]);
      cbn [Hash]; rewrite <- Hi; now apply Ht.
Qed.

(** The padding step of [buildTree] after the first loop. *)
Lemma pad_run (contents : list T) (m : mem) :
  (if Z.rem (len (seq 0 (length contents))) 2 =? 1
   then
     bind (lift (index (seq 0 (length contents)) (len (seq 0 (length contents)) - 1)))
       (fun pl =>
          bind (deref pl) (fun l =>
            bind (alloc (mkNode None None None true true (Hash l) (Item l)))
              (fun duplicate => ret (seq 0 (length contents) ++ [duplicate]))))
   else ret (seq 0 (length contents))) (m, map leaf_node contents)
  = (Ok (seq 0 (length (leaf_heap contents))), (m, leaf_heap contents)).
Proof.
  unfold leaf_heap. unfold len at 1 2. rewrite !length_seq. fold (len contents).
  destruct (Z.rem (len contents) 2 =? 1) eqn:E.
  - destruct (list.last contents) as [c|] eqn:Hl;
      [|apply last_None in Hl; subst contents; discriminate E].
    assert (Hpos : (0 < length contents)%nat).
    { destruct contents; [discriminate Hl | simpl; lia]. }
    assert (Ei : index (seq 0 (length contents)) (len contents - 1)
                 = Ok (Nat.pred (length contents))).
    { replace (len contents - 1) with (Z.of_nat (Nat.pred (length contents)))
        by (unfold len; lia).
      apply index_lookup. rewrite lookup_seq_lt by lia. reflexivity. }
    assert (Hd : map leaf_node contents !! Nat.pred (length contents) = Some (leaf_node c)).
    { change (map leaf_node contents) with (leaf_node <$> contents).
      rewrite list_lookup_fmap. rewrite last_lookup in Hl. now rewrite Hl. }
    unfold lift at 1.
    rewrite (bind_Ok _ _ _ (Nat.pred (length contents)) (m, map leaf_node contents))
      by now rewrite Ei.
    rewrite (bind_Ok _ _ _ (leaf_node c) (m, map leaf_node contents))
      by now apply deref_Ok.
    rewrite (bind_Ok _ _ _ (length (map leaf_node contents))
               (m, map leaf_node contents ++ [dup_node c])) by reflexivity.
    unfold ret. rewrite length_app, length_map. cbn [length].
    replace (length contents + 1)%nat with (S (length contents)) by lia.
    now rewrite seq_S.
  - unfold ret. now rewrite !app_nil_r, length_map.
Qed.

(** A run of [NewTree] on items that all have a hash, with the arrays
    [m0] and no node before it: the tree it returns, and the arrays and
    the heap it leaves. *)
Lemma NewTree_run (contents : list T) (m0 : mem) :
  contents <> [] ->
  Forall (fun c => exists s, CalculateHash c = Ok s) contents ->
  exists (root : ptr) (node : Node T) m h,
    NewTree contents (m0, [])
    = (Ok (mkMerkleTree (Some root) (Hash node) (seq 0 (length (leaf_heap contents)))),
       (m, h)) /\
    h !! root = Some node /\ leaf node = false /\
    extends (leaf_heap contents) h /\ shape_ok contents h /\
    ordered h /\ parent_ok h /\ children_ok h /\ orphans h [root] /\
    (Hash node, m) = root_run (length (leaf_hashes contents)) m0 (leaf_hashes contents) /\
    (tight_items contents -> tight_inv contents m0 (m, h)).
Proof.
  intros Hne Hall.
  set (H0 := leaf_heap contents). set (L := seq 0 (length H0)).
  destruct (leaf_heap_start contents Hall) as (Hord0 & Hpar0 & Hch0 & Horph0).
  fold H0 in Hord0, Hpar0, Hch0, Horph0. fold L in Horph0.
  assert (Hv0 : valid H0 L).
  { apply list.Forall_forall. intros p Hp. apply elem_of_seq in Hp. lia. }
  assert (HlenL : len L = len contents + len contents mod 2).
  { unfold L, len at 1. rewrite length_seq. apply length_leaf_heap. }
  assert (Hlen : 1 <= len contents).
  { destruct contents; [congruence | unfold len; simpl; lia]. }
  pose proof (Z.mod_pos_bound (len contents) 2 ltac:(lia)) as Hmb.
  destruct (buildIntermediate_spec contents m0 (length L) L (m0, H0) (NoDup_seq 0 _)
              Hv0 Hord0 Hpar0 Hch0 Horph0)
    as (root & [m h] & E2 & He2 & Hord2 & Hpar2 & Hch2 & Horph2 & (node & Hroot & Hnl)
        & Hhash & Hsh & Ht).
  { pose proof (Z.div_mod (len contents) 2 ltac:(lia)). unfold len in *. lia. }
  cbn [fst snd] in *.
  exists root, node, m, h.
  split.
  { unfold Graph.NewTree. replace (len contents =? 0) with false by lia.
    unfold Graph.buildTree.
    rewrite (bind_Ok _ _ (m0, []) (root, L) (m, h)).
    - cbn [fst snd]. now rewrite (bind_Ok _ _ (m, h) node (m, h)) by now apply deref_Ok.
    - rewrite (bind_Ok _ _ (m0, []) (seq 0 (length contents)) (m0, map leaf_node contents))
        by (now rewrite (make_leaves_run contents [] m0 [] Hall)).
      rewrite (bind_Ok _ _ _ L (m0, H0)) by apply pad_run.
      now rewrite (bind_Ok _ _ (m0, H0) root (m, h)) by exact E2. }
  split; [exact Hroot|]. split; [exact Hnl|]. split; [exact He2|].
  split; [exact (Hsh (leaf_heap_shape contents Hall))|].
  split; [exact Hord2|]. split; [exact Hpar2|]. split; [exact Hch2|].
  split; [exact Horph2|]. split.
  - rewrite <- (hash_of_lookup h root node Hroot), Hhash.
    unfold L. rewrite length_seq, hashes_of_heap. unfold H0.
    rewrite hashes_of_leaf_heap. f_equal.
    now rewrite <- hashes_of_leaf_heap, length_map.
  - intros Htight. exact (Ht (leaf_heap_tight contents m0 Hall Htight)).
Qed.

End Builder.

End GraphFacts.

(** ** The code on concrete inputs *)

Module Runs.

Import Flat FlatSpec FlatTest GraphTest.

(** SHA-256 of "abc" (FIPS 180-4, appendix B.1). *)
Example Sum256_abc :
  hex_EncodeToString (SHA256.Sum256 (list_byte_of_string "abc"))
  = "ba7816bf8f01cfea414140de5dae2223b00361a396177a9cb410ff61f20015ad"%string.
Proof. vm_compute. reflexivity. Qed.

(** The three cases of the table of [TestNewTree]. *)
Example TestNewTree_case_0 :
  root_of contents0
  = Ok (byte_literal [95; 48; 204; 128; 19; 59; 147; 148; 21; 110; 36; 178; 51; 240;
                      196; 190; 50; 178; 78; 68; 187; 51; 129; 240; 44; 123; 165; 38;
                      25; 208; 254; 188]).
Proof. vm_compute. reflexivity. Qed.

Example TestNewTree_case_1 :
  root_of contents1
  = Ok (byte_literal [189; 214; 55; 197; 35; 237; 92; 14; 171; 121; 43; 152; 109; 177;
                      136; 80; 194; 57; 162; 226; 56; 2; 179; 106; 255; 38; 187; 104;
                      251; 63; 224; 8]).
Proof. vm_compute. reflexivity. Qed.

Example TestNewTree_case_2 :
  root_of contents2
  = Ok (byte_literal [46; 216; 115; 174; 13; 210; 55; 39; 119; 197; 122; 104; 93; 144;
                      112; 131; 202; 151; 41; 14; 80; 143; 21; 71; 140; 169; 139; 173;
                      50; 37; 235; 188]).
Proof. vm_compute. reflexivity. Qed.

(** A nil block is refused before the life-cycle checks of [Insert] and
    [Proof]. *)
Example nil_block_first (mt : FlatMerkleTree) :
  Insert None mt = (Err ErrNilBlock, mt) /\ Flat.Proof mt None = Err ErrNilBlock.
Proof. split; reflexivity. Qed.

Lemma built_finalized_tree (bl : list Block) :
  built SHA256.Sum256 bl (finalized_tree bl).
Proof.
  apply (built_finalize SHA256.Sum256 bl (NewMerkleTree bl)
           (fst (Finalize SHA256.Sum256 (NewMerkleTree bl)))).
  - apply built_new.
  - apply surjective_pairing.
Defined.

Lemma built_inserted_tree3 : built SHA256.Sum256 blocks3 (inserted_tree blocks3).
Proof.
  pose (m0 := NewMerkleTree []).
  pose (m1 := snd (Insert (block "Hello") m0)).
  pose (m2 := snd (Insert (block "Hi") m1)).
  pose (m3 := snd (Insert (block "Hey") m2)).
  apply (built_finalize SHA256.Sum256 blocks3 m3 (fst (Finalize SHA256.Sum256 m3)));
    [|apply surjective_pairing].
  apply (built_insert SHA256.Sum256 [block "Hello"; block "Hi"] m2 (block "Hey") m3);
    [|reflexivity].
  apply (built_insert SHA256.Sum256 [block "Hello"] m1 (block "Hi") m2); [|reflexivity].
  apply (built_insert SHA256.Sum256 [] m0 (block "Hello") m1); [|reflexivity].
  apply built_new.
Defined.

Lemma proof_verifies_witness :
  exists p,
    Flat.Proof (finalized_tree blocks3) (block "Hey") = Ok p /\
    Verify SHA256.Sum256 (finalized_tree blocks3) (block "Hey") p = Ok tt.
Proof.
  apply (FlatFacts.proof_verifies SHA256.Sum256 blocks3 (finalized_tree blocks3)
           (block "Hey") (list_byte_of_string "Hey")).
  - apply built_finalized_tree.
  - vm_compute. reflexivity.
  - repeat constructor.
  - vm_compute. reflexivity.
Defined.

Lemma Finalize_postcondition_witness :
  exists mt',
    Finalize SHA256.Sum256 (NewMerkleTree blocks3) = (Ok tt, mt') /\
    blocks mt' = blocks4 /\ len (nodes mt') = 7 /\ finalized mt' = true.
Proof.
  destruct (FlatFacts.Finalize_postcondition SHA256.Sum256 (NewMerkleTree blocks3))
    as (mt' & E & _ & Hodd & _ & Hlen & _ & _ & _ & Hf).
  - discriminate.
  - reflexivity.
  - exists mt'. split; [exact E|].
    destruct Hodd as (b & Hb & Hbl); [vm_compute; discriminate|].
    injection Hb as <-.
    split; [exact Hbl|]. split; [|exact Hf].
    rewrite Hlen, Hbl. reflexivity.
Defined.

Lemma Proof_is_sibling_sequence_witness :
  findLeaf (finalized_tree blocks3) (block "Hey") = Ok 5 /\
  Flat.Proof (finalized_tree blocks3) (block "Hey")
  = Ok (sibling_sequence (nodes (finalized_tree blocks3)) 5).
Proof.
  destruct (FlatFacts.Proof_is_sibling_sequence SHA256.Sum256 blocks3
              (finalized_tree blocks3) (block "Hey") (list_byte_of_string "Hey") 2)
    as (Hleaf & Hproof & _).
  - apply built_finalized_tree.
  - vm_compute. reflexivity.
  - reflexivity.
  - vm_compute. reflexivity.
  - intros [|[|j]] y Hj Hy; [| |lia]; injection Hy as <-; vm_compute; reflexivity.
  - split; [exact Hleaf | exact Hproof].
Defined.

Lemma lifecycle_guards_witness :
  Insert (block "Hola") (finalized_tree blocks3)
  = (Err ErrTreeAlreadyFinalized, finalized_tree blocks3) /\
  RootHash (NewMerkleTree blocks3)
  = Err (Errorf "invalid root hash: %v" [ArgErr ErrTreeNotFinalized]) /\
  Flat.Proof (NewMerkleTree blocks3) (block "Hola") = Err ErrTreeNotFinalized /\
  Verify SHA256.Sum256 (NewMerkleTree blocks3) (block "Hola") [] = Err ErrTreeNotFinalized /\
  Finalize SHA256.Sum256 (finalized_tree blocks3)
  = (Err ErrTreeAlreadyFinalized, finalized_tree blocks3).
Proof.
  apply (FlatFacts.lifecycle_guards SHA256.Sum256 (NewMerkleTree blocks3)
           (finalized_tree blocks3) (NewMerkleTree blocks3) (block "Hola") []).
  - vm_compute. reflexivity.
  - reflexivity.
  - vm_compute. reflexivity.
Defined.

(** Where the guards are not as the specification words them: before
    [Finalize], [RootHash] returns an error that is not
    [ErrTreeNotFinalized]; and with a nil block [Insert] on a finalized
    tree, and [Proof] on a tree that is not finalized, return
    [ErrNilBlock], not the error of the state. *)
Lemma lifecycle_guards_counterexample :
  (RootHash (NewMerkleTree blocks3)
   = Err (Errorf "invalid root hash: %v" [ArgErr ErrTreeNotFinalized]) /\
   RootHash (NewMerkleTree blocks3) <> Err ErrTreeNotFinalized) /\
  (Insert None (finalized_tree blocks3) = (Err ErrNilBlock, finalized_tree blocks3) /\
   fst (Insert None (finalized_tree blocks3)) <> Err ErrTreeAlreadyFinalized) /\
  (Flat.Proof (NewMerkleTree blocks3) None = Err ErrNilBlock /\
   Flat.Proof (NewMerkleTree blocks3) None <> Err ErrTreeNotFinalized).
Proof.
  split; [|split]; (split; [reflexivity | intros H; discriminate H]).
Qed.

Lemma padding_equivalence_witness :
  exists h,
    RootHash (finalized_tree blocks3) = Ok h /\ RootHash (finalized_tree blocks4) = Ok h.
Proof.
  apply (FlatFacts.padding_equivalence SHA256.Sum256
           (block "Hello") (block "Hi") (block "Hey")).
  - apply built_finalized_tree.
  - vm_compute. reflexivity.
  - apply built_finalized_tree.
  - vm_compute. reflexivity.
Defined.

Lemma Finalize_error_keeps_tree_witness :
  Finalize SHA256.Sum256 (NewMerkleTree [])
  = (Err (Errorf "Failed to finalize: %s" [ArgErr ErrEmptyMerkleTree]), NewMerkleTree []) /\
  blocks (NewMerkleTree []) = [].
Proof.
  destruct (FlatFacts.Finalize_error_keeps_tree SHA256.Sum256 (NewMerkleTree [])
              (NewMerkleTree [])
              (Errorf "Failed to finalize: %s" [ArgErr ErrEmptyMerkleTree]) eq_refl)
    as (_ & [[_ Hbl]|[He _]]).
  - split; [reflexivity | exact Hbl].
  - discriminate He.
Defined.

Lemma root_deterministic_witness :
  exists h,
    RootHash (finalized_tree blocks3) = Ok h /\ RootHash (inserted_tree blocks3) = Ok h.
Proof.
  apply (FlatFacts.root_deterministic SHA256.Sum256 blocks3).
  - apply built_finalized_tree.
  - vm_compute. reflexivity.
  - apply built_inserted_tree3.
  - vm_compute. reflexivity.
Defined.


Lemma prefix_of_proof_verifies_witness :
  exists full,
    Flat.Proof (finalized_tree blocks3) (block "Hello") = Ok full /\
    Verify SHA256.Sum256 (finalized_tree blocks3) (block "Hello") [] = Ok tt /\
    Verify SHA256.Sum256 (finalized_tree blocks3) (block "Hello") (take 1 full) = Ok tt.
Proof.
  destruct (FlatFacts.prefix_of_proof_verifies SHA256.Sum256 blocks3
              (finalized_tree blocks3) (block "Hello") (list_byte_of_string "Hello"))
    as (full & HP & H0 & Hpre).
  - apply built_finalized_tree.
  - vm_compute. reflexivity.
  - repeat constructor.
  - vm_compute. reflexivity.
  - exists full. split; [exact HP|]. split; [exact H0|].
    apply Hpre. exists (drop 1 full). symmetry. apply take_drop.
Defined.

Lemma Verify_total_witness :
  Verify SHA256.Sum256 (finalized_tree blocks3) (block "Hi") [None; None; None; None] = Ok tt \/
  exists i got want,
    Verify SHA256.Sum256 (finalized_tree blocks3) (block "Hi") [None; None; None; None]
    = Err (Errorf "invalid proof at index %d for block %X; got: %X, want: %X"
             [ArgInt i; ArgBytes (block "Hi"); ArgBytes got; ArgBytes want]).
Proof.
  apply (FlatFacts.Verify_total SHA256.Sum256 blocks3 (finalized_tree blocks3)
           (block "Hi") (list_byte_of_string "Hi") [None; None; None; None]).
  - apply built_finalized_tree.
  - vm_compute. reflexivity.
  - repeat constructor.
  - vm_compute. reflexivity.
Defined.

End Runs.

(** ** More facts about the flat engine *)

Module FlatMoreFacts.

Import Flat Shape FlatSpec FlatMore GoFacts ShapeFacts.

Section Engine.

Variable Sum256 : bytes -> bytes.

Local Abbreviation hashNode := (Flat.hashNode Sum256).
Local Abbreviation Finalize := (Flat.Finalize Sum256).
Local Abbreviation Verify := (Flat.Verify Sum256).
Local Abbreviation verify_loop := (Flat.verify_loop Sum256).
Local Abbreviation built := (FlatSpec.built Sum256).
Local Abbreviation finalized_shape := (FlatSpec.finalized_shape Sum256).
Local Abbreviation digest_at := (FlatMore.digest_at Sum256).
Local Abbreviation reconstruct := (FlatMore.reconstruct Sum256).

Lemma Insert_each_app (cs : list Block) :
  forall mt : FlatMerkleTree,
    finalized mt = false ->
    Forall (fun b => is_nil b = false) cs ->
    Insert_each cs mt = (Ok tt, set_blocks (blocks mt ++ cs) mt).
Proof.
  induction cs as [|c cs IH]; intros mt Hf Hcs.
  - cbn [Insert_each]. unfold ret. rewrite app_nil_r. now destruct mt.
  - apply Forall_cons_1 in Hcs as [Hc Hcs]. cbn [Insert_each]. unfold bind.
    rewrite FlatFacts.Insert_cases, Hc, Hf.
    rewrite IH by (assumption || reflexivity).
    cbn [blocks set_blocks nodes root finalized]. now rewrite <- app_assoc.
Qed.

Lemma Insert_each_nil (pre post : list Block) :
  forall mt : FlatMerkleTree,
    finalized mt = false ->
    Forall (fun b => is_nil b = false) pre ->
    Insert_each (pre ++ None :: post) mt
    = (Err ErrNilBlock, set_blocks (blocks mt ++ pre) mt).
Proof.
  induction pre as [|c pre IH]; intros mt Hf Hpre.
  - cbn. rewrite app_nil_r. now destruct mt.
  - apply Forall_cons_1 in Hpre as [Hc Hpre]. cbn [app Insert_each]. unfold bind.
    rewrite FlatFacts.Insert_cases, Hc, Hf.
    rewrite IH by (assumption || reflexivity).
    cbn [blocks set_blocks nodes root finalized]. now rewrite <- app_assoc.
Qed.

(** X1.  Inserting blocks one by one is the same as giving them to the
    constructor: on a tree made by [NewMerkleTree(bs...)], successive
    [Insert] calls of non-nil blocks [pre] all succeed and leave exactly
    the tree [NewMerkleTree(bs..., pre...)]; a nil block after them stops
    the sequence with [ErrNilBlock], the blocks before it staying
    inserted and the ones after it never being looked at. *)
Theorem Insert_each_is_constructor (bs pre post : list Block) :
  Forall (fun b => is_nil b = false) pre ->
  Insert_each pre (NewMerkleTree bs) = (Ok tt, NewMerkleTree (bs ++ pre)) /\
  Insert_each (pre ++ None :: post) (NewMerkleTree bs)
  = (Err ErrNilBlock, NewMerkleTree (bs ++ pre)).
Proof.
  intros Hpre. split.
  - now rewrite Insert_each_app.
  - now rewrite Insert_each_nil.
Qed.

Lemma first_match_None (bl : list Block) (b : Block) :
  (forall x, x ∈ bl -> bytes_Equal x b = false) -> first_match bl b = None.
Proof.
  induction bl as [|y bl IH]; intros H; [reflexivity|]. simpl.
  rewrite (H y) by left. rewrite IH; [reflexivity|].
  intros x Hx. apply H. now right.
Qed.

Lemma padded_subset (bl : list Block) (x : Block) : x ∈ padded bl -> x ∈ bl.
Proof.
  unfold padded. destruct (Z.rem (len bl) 2 =? 0); [trivial|].
  destruct (list.last bl) as [l|] eqn:Hl; [|trivial].
  intros [H|H]%elem_of_app; [exact H|].
  apply list_elem_of_singleton in H as ->. now apply last_Some_elem_of.
Qed.

(** X2.  Blocks that are not in the tree: on a finalized tree, for a
    block that is byte-equal to none of the blocks given to the tree,
    [Proof] and [Verify] (with any proof) return the error
    "block does not exist" carrying the hexadecimal text of the block;
    the padding block never makes an absent block present.  For the nil
    block both return [ErrNilBlock]. *)
Theorem absent_block_not_found (bl : list Block) (mt : FlatMerkleTree) (b : bytes)
    (proof : list TreeNode) :
  built bl mt -> finalized mt = true ->
  (forall x, x ∈ bl -> bytes_Equal x (Some b) = false) ->
  let e := Errorf "block does not exist: %v" [ArgString (hex_EncodeToString b)] in
  Flat.Proof mt (Some b) = Err e /\
  Verify mt (Some b) proof = Err e /\
  Flat.Proof mt None = Err ErrNilBlock /\
  Verify mt None proof = Err ErrNilBlock.
Proof.
  intros Hb Hf Habs e.
  destruct (FlatFacts.built_finalized Sum256 _ _ Hb Hf) as (_ & _ & Hs).
  assert (Hfm : first_match (blocks mt) (Some b) = None).
  { rewrite (fs_blocks _ _ _ Hs). apply first_match_None.
    intros x Hx. apply Habs. now apply padded_subset. }
  assert (Hleaf : findLeaf mt (Some b) = Err e).
  { unfold findLeaf. cbn [is_nil]. now rewrite FlatFacts.findLeaf_from_spec, Hfm. }
  split; [unfold Flat.Proof; cbn [is_nil]; now rewrite Hf, Hleaf|].
  split; [unfold Flat.Verify; now rewrite Hf, Hleaf|].
  split; [reflexivity|].
  unfold Flat.Verify. now rewrite Hf.
Qed.

Lemma digest_at_sel (bl : list Block) (mt : FlatMerkleTree) :
  finalized_shape bl mt ->
  forall (fuel : nat) (i : Z),
    0 <= i < len (nodes mt) ->
    len (nodes mt) - i <= Z.of_nat fuel ->
    FlatSpec.sel (nodes mt) i = Some (digest_at fuel (blocks mt) i).
Proof.
  intros Hs. pose proof (fs_len _ _ _ Hs) as HN.
  induction fuel as [|fuel IH]; intros i Hi Hfuel; [lia|].
  cbn [FlatMore.digest_at]. rewrite <- HN.
  destruct (2 * i + 1 <? len (nodes mt)) eqn:Hin.
  - destruct (fs_internal _ _ _ Hs i ltac:(lia)) as (l & r & Hl & Hr & Hh).
    rewrite IH in Hl by lia. rewrite IH in Hr by lia.
    injection Hl as <-. injection Hr as <-. exact Hh.
  - match goal with
    | |- context [default None ?o] => destruct o as [b|] eqn:Hb
    end.
    + cbn [default]. pose proof (fs_leaves _ _ _ Hs _ _ Hb) as Hleaf.
      replace (len (nodes mt) - len (blocks mt)
               + Z.of_nat (Z.to_nat (i - (len (blocks mt) - 1)))) with i in Hleaf by lia.
      exact Hleaf.
    + apply lookup_ge_None in Hb.
      assert (Hb' : (length (blocks mt) <= Z.to_nat (i - (len (blocks mt) - 1)))%nat)
        by exact Hb.
      unfold len in *. lia.
Qed.

(** X3.  The node array as a function of the blocks: in a finalized tree
    every slot holds the digest that the recursion [digest_at] gives for
    it over the padded blocks, and [RootHash] returns [root_digest] of
    the blocks given to the tree. *)
Theorem nodes_are_digests (bl : list Block) (mt : FlatMerkleTree) :
  built bl mt -> finalized mt = true ->
  (forall i, 0 <= i < len (nodes mt) ->
     index (nodes mt) i = Ok (digest_at (length (nodes mt)) (padded bl) i)) /\
  RootHash mt = Ok (FlatMore.root_digest Sum256 bl).
Proof.
  intros Hb Hf.
  destruct (FlatFacts.built_finalized Sum256 _ _ Hb Hf) as (_ & _ & Hs).
  pose proof (fs_len _ _ _ Hs) as HN. pose proof (fs_blocks _ _ _ Hs) as Hbl.
  destruct (fs_even _ _ _ Hs) as (m & Hm & Hlen).
  split.
  - intros i Hi. apply FlatFacts.sel_index; [lia|]. rewrite <- Hbl.
    apply (digest_at_sel bl); [exact Hs | exact Hi | unfold len; lia].
  - unfold RootHash. rewrite Hf. cbn [negb]. f_equal.
    pose proof (digest_at_sel bl mt Hs (Z.to_nat (2 * len (padded bl))) 0) as H0.
    rewrite (fs_root _ _ _ Hs) in H0. rewrite <- Hbl in *.
    specialize (H0 ltac:(lia) ltac:(lia)). injection H0 as H0.
    unfold FlatMore.root_digest. rewrite <- Hbl, <- H0.
    destruct (fs_internal _ _ _ Hs 0 ltac:(lia)) as (l & r & _ & _ & Hh).
    rewrite (fs_root _ _ _ Hs) in Hh. injection Hh as ->. reflexivity.
Qed.

Lemma reconstruct_not_nil (cur : TreeNode) (idx : Z) (p : list TreeNode) :
  is_nil cur = false -> is_nil (reconstruct cur idx p) = false.
Proof.
  revert cur idx. induction p as [|e p IH]; intros cur idx Hc; [exact Hc|].
  cbn [FlatMore.reconstruct]. apply IH. now destruct (Z.rem idx 2 =? 0).
Qed.

(** Hashing up the first [d] siblings of a path, from a digest with the
    content of the starting slot, gives the content of the [d]-th
    ancestor slot. *)
Lemma reconstruct_sib_path (mt : FlatMerkleTree) (n : Z) :
  len (nodes mt) = 2 * n - 1 ->
  (forall j, 0 <= j -> 2 * j + 1 < len (nodes mt) -> good Sum256 (nodes mt) j) ->
  forall (d : nat) (idx : Z) (cur : TreeNode),
    0 <= idx < len (nodes mt) ->
    Z.of_nat d <= depth idx ->
    content cur = content (slot (nodes mt) idx) ->
    content (reconstruct cur idx (sib_path (nodes mt) idx d))
    = content (slot (nodes mt) (ancestor d idx)).
Proof.
  intros Hn Hgood. induction d as [|d IH]; intros idx cur Hidx Hd Hcur; [exact Hcur|].
  assert (Hpos : 0 < idx).
  { destruct (Z.eq_dec idx 0) as [->|]; [rewrite FlatFacts.depth_root in Hd; lia | lia]. }
  pose proof (parent_bounds idx ltac:(lia)) as Hp.
  pose proof (FlatFacts.depth_step idx Hpos) as Hds.
  rewrite FlatFacts.sib_path_S. cbn [FlatMore.reconstruct]. fold (parent idx).
  rewrite ancestor_S_r. apply IH; [lia | lia |].
  assert (Hin : 2 * parent idx + 1 < len (nodes mt)).
  { destruct (FlatFacts.children_of_parent idx Hpos) as [(_ & H & _)|(_ & H & _)]; lia. }
  destruct (Hgood (parent idx) ltac:(lia) Hin) as (l & r & Hl & Hr & Hh).
  assert (Hsp : slot (nodes mt) (parent idx) = hashNode (append l r) true)
    by (unfold slot; now rewrite Hh).
  rewrite Hsp.
  destruct (FlatFacts.children_of_parent idx Hpos) as [(He & Hi & Hsib)|(Ho & Hi & Hsib)].
  - rewrite He. cbn [Z.eqb].
    assert (Hsl : slot (nodes mt) (sibling idx) = l) by (unfold slot; now rewrite Hsib, Hl).
    assert (Hsr : slot (nodes mt) idx = r) by (unfold slot; rewrite Hi at 1; now rewrite Hr).
    rewrite Hsl. rewrite Hsr in Hcur. unfold Flat.hashNode. cbn [content].
    now rewrite !content_append, Hcur.
  - replace (Z.rem idx 2 =? 0) with false by lia.
    assert (Hsr : slot (nodes mt) (sibling idx) = r) by (unfold slot; now rewrite Hsib, Hr).
    assert (Hsl : slot (nodes mt) idx = l) by (unfold slot; rewrite Hi at 1; now rewrite Hl).
    rewrite Hsr. rewrite Hsl in Hcur. unfold Flat.hashNode. cbn [content].
    now rewrite !content_append, Hcur.
Qed.

(** X4.  A proof leads to the root: on a finalized tree, for a block [b]
    that is present, hashing the leaf digest [H(0x00 || b)] up the
    entries of [Proof b], from the index of its leaf, gives exactly what
    [RootHash] returns.  (This is the comparison with a trusted root
    that [Verify] itself does not make.) *)
Theorem proof_reconstructs_root (bl : list Block) (mt : FlatMerkleTree)
    (x : Block) (b : bytes) :
  built bl mt -> finalized mt = true ->
  x ∈ bl -> bytes_Equal x (Some b) = true ->
  exists leaf p r,
    findLeaf mt (Some b) = Ok leaf /\
    Flat.Proof mt (Some b) = Ok p /\
    RootHash mt = Ok r /\
    reconstruct (hashNode (Some b) false) leaf p = r.
Proof.
  intros Hb Hf Hx Heq.
  destruct (FlatFacts.built_finalized Sum256 _ _ Hb Hf) as (_ & _ & Hs).
  destruct (FlatFacts.first_match_present _ _ _ Hx Heq) as [k Hk].
  apply FlatFacts.first_match_padded in Hk. rewrite <- (fs_blocks _ _ _ Hs) in Hk.
  pose proof (FlatFacts.first_match_lt _ _ _ Hk) as Hlt.
  destruct (FlatFacts.leaf_depth Sum256 bl mt k Hs Hlt) as (Hidx & Hd1 & _).
  destruct (FlatFacts.first_match_sound _ _ _ Hk) as ((y & Hy & Hyb) & _).
  set (leaf := leaf_index mt k) in *.
  exists leaf, (sib_path (nodes mt) leaf (Z.to_nat (depth leaf))), (copyNode (root mt)).
  split; [now apply FlatFacts.findLeaf_first_match|].
  split; [now apply (FlatFacts.Proof_ok Sum256 bl)|].
  split; [unfold RootHash; now rewrite Hf|].
  assert (Hleaf : slot (nodes mt) leaf = hashNode y false).
  { unfold slot. unfold leaf, leaf_index. now rewrite (fs_leaves _ _ _ Hs _ _ Hy). }
  assert (Hc : content (reconstruct (hashNode (Some b) false) leaf
                          (sib_path (nodes mt) leaf (Z.to_nat (depth leaf))))
               = content (root mt)).
  { rewrite (reconstruct_sib_path mt (len (blocks mt)));
      [| apply (fs_len _ _ _ Hs) | apply (FlatFacts.shape_good Sum256 _ _ Hs) | lia | lia |].
    - rewrite FlatFacts.ancestor_depth by lia. unfold slot. now rewrite (fs_root _ _ _ Hs).
    - rewrite Hleaf. unfold Flat.hashNode. cbn [content]. do 2 f_equal.
      apply bytes_Equal_content in Hyb. now rewrite Hyb. }
  pose proof (reconstruct_not_nil (hashNode (Some b) false) leaf
                (sib_path (nodes mt) leaf (Z.to_nat (depth leaf))) eq_refl) as Hnn.
  destruct (reconstruct _ _ _) as [c|]; [|discriminate].
  unfold copyNode. now rewrite <- Hc.
Qed.

(** X5.  The first wrong entry is the one reported: on a finalized tree,
    for a block [b] that is present, when the first [k] entries of a
    proof are those of [Proof b] and the next entry [e] makes the rebuilt
    digest differ from the stored parent, [Verify] returns the mismatch
    error of step [k], with the rebuilt digest and the stored parent, and
    the entries after [e] play no part. *)
Theorem Verify_reports_first_mismatch (bl : list Block) (mt : FlatMerkleTree)
    (x : Block) (b : bytes) :
  built bl mt -> finalized mt = true ->
  x ∈ bl -> bytes_Equal x (Some b) = true ->
  exists leaf full,
    findLeaf mt (Some b) = Ok leaf /\
    Flat.Proof mt (Some b) = Ok full /\
    forall (k : nat) (e : TreeNode) (rest : list TreeNode),
      (k < length full)%nat ->
      let cur := ancestor k leaf in
      let got :=
        if Z.rem cur 2 =? 0
        then hashNode (append (copyNode e) (copyNode (slot (nodes mt) cur))) true
        else hashNode (append (copyNode (slot (nodes mt) cur)) (copyNode e)) true in
      bytes_Equal (slot (nodes mt) (parent cur)) got = false ->
      Verify mt (Some b) (take k full ++ e :: rest)
      = Err (Errorf "invalid proof at index %d for block %X; got: %X, want: %X"
               [ArgInt (Z.of_nat k); ArgBytes (Some b); ArgBytes got;
                ArgBytes (slot (nodes mt) (parent cur))]).
Proof.
  intros Hb Hf Hx Heq.
  destruct (FlatFacts.built_finalized Sum256 _ _ Hb Hf) as (_ & _ & Hs).
  destruct (FlatFacts.first_match_present _ _ _ Hx Heq) as [j Hj].
  apply FlatFacts.first_match_padded in Hj. rewrite <- (fs_blocks _ _ _ Hs) in Hj.
  pose proof (FlatFacts.first_match_lt _ _ _ Hj) as Hlt.
  destruct (FlatFacts.leaf_depth Sum256 bl mt j Hs Hlt) as (Hidx & Hd1 & _).
  pose proof (FlatFacts.findLeaf_first_match _ _ _ Hj) as Hleaf.
  fold (leaf_index mt j) in Hleaf. set (leaf := leaf_index mt j) in *.
  exists leaf, (sib_path (nodes mt) leaf (Z.to_nat (depth leaf))).
  split; [exact Hleaf|]. split; [now apply (FlatFacts.Proof_ok Sum256 bl)|].
  intros k e rest Hk cur got Hne. rewrite FlatFacts.length_sib_path in Hk.
  rewrite FlatFacts.take_sib_path by lia.
  unfold Flat.Verify. rewrite Hf, Hleaf. cbn [negb obind].
  rewrite (FlatFacts.verify_loop_sib_path_app Sum256 mt _ (len (blocks mt)));
    [| apply (fs_len _ _ _ Hs) | apply (FlatFacts.shape_good Sum256 _ _ Hs) | lia | lia].
  fold cur. pose proof (ancestor_bounds k leaf ltac:(lia)) as Hcur. fold cur in Hcur.
  pose proof (parent_bounds cur ltac:(lia)) as Hpar.
  cbn [Flat.verify_loop]. fold (parent cur).
  rewrite (FlatFacts.slot_index (nodes mt) cur) by lia. cbn [obind].
  rewrite (FlatFacts.slot_index (nodes mt) (parent cur)) by lia. cbn [obind].
  fold got. rewrite Hne. cbn [negb]. do 3 f_equal; lia.
Qed.

(** X6.  The size of a proof: on a finalized tree with [n] blocks after
    padding, the proof of a block that is present has [log2 n] or
    [log2 n + 1] entries (the integer logarithm), at least one, and never
    more than [log2] of the number of nodes. *)
Theorem Proof_length_bounds (bl : list Block) (mt : FlatMerkleTree)
    (x : Block) (b : bytes) :
  built bl mt -> finalized mt = true ->
  x ∈ bl -> bytes_Equal x (Some b) = true ->
  exists p,
    Flat.Proof mt (Some b) = Ok p /\
    1 <= len p /\
    Z.log2 (len (blocks mt)) <= len p <= Z.log2 (len (blocks mt)) + 1 /\
    len p <= Z.log2 (len (nodes mt)).
Proof.
  intros Hb Hf Hx Heq.
  destruct (FlatFacts.built_finalized Sum256 _ _ Hb Hf) as (_ & _ & Hs).
  destruct (FlatFacts.first_match_present _ _ _ Hx Heq) as [k Hk].
  apply FlatFacts.first_match_padded in Hk. rewrite <- (fs_blocks _ _ _ Hs) in Hk.
  pose proof (FlatFacts.first_match_lt _ _ _ Hk) as Hlt.
  destruct (FlatFacts.leaf_depth Sum256 bl mt k Hs Hlt) as (Hidx & Hd1 & Hd2 & Hd3).
  destruct (fs_even _ _ _ Hs) as (m & Hm & Hlen).
  pose proof (fs_len _ _ _ Hs) as HN.
  exists (sib_path (nodes mt) (leaf_index mt k) (Z.to_nat (depth (leaf_index mt k)))).
  split; [now apply (FlatFacts.Proof_ok Sum256 bl)|].
  replace (len (sib_path (nodes mt) (leaf_index mt k) (Z.to_nat (depth (leaf_index mt k)))))
    with (depth (leaf_index mt k))
    by (unfold len; rewrite FlatFacts.length_sib_path; lia).
  unfold int_Log2 in *.
  assert (Hlow : Z.log2 (len (blocks mt)) <= depth (leaf_index mt k)).
  { unfold depth. apply Z.log2_le_mono. unfold leaf_index in *. unfold len in *. lia. }
  assert (Hup : Z.log2 (len (nodes mt)) <= Z.log2 (len (blocks mt)) + 1).
  { pose proof (Z.log2_double (len (blocks mt)) ltac:(lia)) as Hdbl.
    pose proof (Z.log2_le_mono (len (nodes mt)) (2 * len (blocks mt)) ltac:(lia)). lia. }
  lia.
Qed.

End Engine.

Lemma hex_length (l : bytes) :
  String.length (hex_EncodeToString l) = (2 * length l)%nat.
Proof. induction l as [|b l IH]; [reflexivity|]. cbn. rewrite IH. lia. Qed.

(** X7.  [String]: the text is empty exactly when the tree is not
    finalized; on a finalized tree it is ["0x"] followed by the
    hexadecimal digits of the root hash, two for each of its bytes. *)
Theorem String_of_tree (mt : FlatMerkleTree) :
  (FlatMore.String mt = EmptyString <-> finalized mt = false) /\
  (finalized mt = true ->
     FlatMore.String mt = ("0x" ++ hex_EncodeToString (content (root mt)))%string /\
     String.length (FlatMore.String mt) = (2 + 2 * length (content (root mt)))%nat).
Proof.
  unfold FlatMore.String, RootHash. destruct (finalized mt); cbn [negb].
  - split; [split; discriminate|]. intros _. split; [reflexivity|].
    cbn. now rewrite hex_length.
  - split; [split; reflexivity | discriminate].
Qed.

End FlatMoreFacts.

(** ** More facts about the node-graph tree *)

Module GraphMoreFacts.

Import Slices Graph GraphSpec GraphMore GoFacts SliceFacts GraphFacts.

Section Builder.

Context {T : Type} {ST : Storable T}.

Variable Sum256 : bytes -> bytes.

Local Abbreviation NewTree := (Graph.NewTree Sum256).
Local Abbreviation root_run := (GraphSpec.root_run Sum256).
Local Abbreviation merkle_root := (GraphSpec.merkle_root Sum256).
Local Abbreviation VerifyNode := (GraphMore.VerifyNode Sum256).
Local Abbreviation heap_ok := (GraphSpec.heap_ok Sum256).
Local Abbreviation tight_inv := (GraphSpec.tight_inv Sum256).

Implicit Types (h : list (Node T)) (m : mem) (cs : list T).

Lemma Forall_has_hash (contents : list T) :
  (forall c, c ∈ contents -> exists s, CalculateHash c = Ok s) ->
  Forall (fun c => exists s, CalculateHash c = Ok s) contents.
Proof. intros H. now apply list.Forall_forall. Qed.

Lemma tight_items_intro (contents : list T) :
  (forall c s, c ∈ contents -> CalculateHash c = Ok s -> tight s) ->
  tight_items contents.
Proof.
  intros H c Hc. unfold item_hash. destruct (CalculateHash c) as [s| |] eqn:E;
    [now apply (H c s) | exact I | exact I].
Qed.

(** The hashes of the leaves when the last item of an odd number of
    items is given once more. *)
Lemma leaf_hashes_last_twice (contents : list T) (c : T) :
  list.last contents = Some c -> len contents mod 2 = 1 ->
  leaf_hashes (contents ++ [c]) = leaf_hashes contents.
Proof.
  intros Hl Hodd. unfold leaf_hashes. rewrite map_app. cbn [map].
  rewrite len_app. change (len [item_hash c]) with 1.
  unfold len. rewrite length_map. fold (len contents).
  rewrite !rem2_mod by (unfold len; lia).
  replace ((len contents + 1) mod 2) with 0
    by (pose proof (Z.div_mod (len contents) 2 ltac:(lia));
        rewrite <- Z.add_mod_idemp_l, Hodd by lia; reflexivity).
  rewrite Hodd. cbn [Z.eqb Pos.eqb].
  change (map item_hash contents) with (item_hash <$> contents).
  now rewrite fmap_last, Hl.
Qed.

(** [VerifyNode] on nodes with the tree of a heap whose hashes are in
    order, when no hash has room after it: the call writes to no array
    and returns the bytes of the hash that the heap keeps for the node,
    whatever hashes the nodes it runs on hold. *)
Lemma VerifyNode_Hash cs m h h' :
  heap_ok cs m h -> ordered h ->
  (forall p n, h !! p = Some n -> tight (Hash n)) ->
  same_tree h h' ->
  forall (fuel : nat) (p : nat) (n : Node T),
    h !! p = Some n -> (p < fuel)%nat ->
    exists s, VerifyNode fuel h' p m = (Ok s, m) /\
              view m s = view m (Hash n) /\ tight s.
Proof.
  intros Hok Hord Ht [_ Hsame]. induction fuel as [|fuel IH]; intros p n Hp Hlt; [lia|].
  cbn [GraphMore.VerifyNode].
  destruct (Hsame p n Hp) as (n' & Hp' & HL & HR & Hleaf & HI). rewrite Hp'.
  pose proof (Hok p n Hp) as Hn. unfold GraphSpec.node_ok in Hn.
  rewrite Hleaf, HI, HL, HR. destruct (leaf n) eqn:El.
  - destruct Hn as (c & _ & Hi & Hc). rewrite Hi, Hc. exists (Hash n).
    split; [reflexivity|]. split; [reflexivity | exact (Ht p n Hp)].
  - destruct Hn as (l & r & nl & nr & Hl & Hr & Hnl & Hnr & HH).
    rewrite Hl, Hr.
    pose proof (Hord p n l Hp (or_introl Hl)) as Hlp.
    pose proof (Hord p n r Hp (or_intror Hr)) as Hrp.
    destruct (IH l nl Hnl ltac:(lia)) as (sl & El' & Hvl & Htl). rewrite El'.
    destruct (IH r nr Hnr ltac:(lia)) as (sr & Er' & Hvr & _). rewrite Er'.
    destruct (bappend_tight sl sr m Htl) as [Hm Hv]. rewrite Hm, Hv, Hvl, Hvr.
    eexists. split; [reflexivity|]. split; [now rewrite HH | exact I].
Qed.

Lemma leaf_hashes_tight (contents : list T) :
  tight_items contents -> Forall tight (leaf_hashes contents).
Proof.
  intros Ht.
  assert (Hmap : Forall tight (map item_hash contents)).
  { apply list.Forall_forall. intros s Hs.
    change (map item_hash contents) with (item_hash <$> contents) in Hs.
    apply list_elem_of_fmap in Hs as (c & -> & Hc). now apply Ht. }
  unfold leaf_hashes. destruct (Z.rem (len (map item_hash contents)) 2 =? 1); [|exact Hmap].
  destruct (list.last (map item_hash contents)) as [s|] eqn:Hl; [|exact Hmap].
  apply Forall_app. split; [exact Hmap|]. apply Forall_singleton.
  rewrite last_lookup in Hl. apply list_elem_of_lookup_2 in Hl.
  exact (proj1 (list.Forall_forall _ _) Hmap s Hl).
Qed.

(** X8.  The Merkle root as a function of the bytes of the hashes: when
    the list of items is not empty, [CalculateHash] succeeds on each of
    them and none of the slices it returns has room after it
    ([len == cap]), [NewTree] writes to no array and returns a tree
    whose [MerkleRoot] shows [merkle_root] of the bytes of
    [leaf_hashes]: the hashes of the items in their order, the last one
    once more when their number is odd, hashed two by two, level after
    level, a node without neighbour being hashed with itself, until a
    level of two gives the root. *)
Theorem NewTree_MerkleRoot (contents : list T) (m0 : mem) :
  contents <> [] ->
  (forall c, c ∈ contents -> exists s, CalculateHash c = Ok s) ->
  (forall c s, c ∈ contents -> CalculateHash c = Ok s -> tight s) ->
  exists t h,
    NewTree contents (m0, []) = (Ok t, (m0, h)) /\
    MerkleRoot t
    = Fresh (merkle_root (length (leaf_hashes contents))
               (map (view m0) (leaf_hashes contents))).
Proof.
  intros Hne Hcalc Htight. apply tight_items_intro in Htight.
  destruct (NewTree_run Sum256 contents m0 Hne (Forall_has_hash contents Hcalc))
    as (root & node & m & h & E & Hroot & Hnl & _ & _ & _ & _ & _ & _ & Hrun & Ht).
  destruct (Ht Htight) as [Hm Hok _]. cbn [fst snd] in Hm, Hok. subst m.
  eexists _, h. split; [exact E|]. cbn [MerkleRoot merkleRoot].
  destruct (root_run_tight Sum256 (length (leaf_hashes contents)) m0 (leaf_hashes contents)
              (leaf_hashes_tight contents Htight)) as [_ Hv].
  rewrite <- Hrun in Hv. cbn [fst] in Hv.
  pose proof (Hok root node Hroot) as Hn. unfold GraphSpec.node_ok in Hn.
  rewrite Hnl in Hn. destruct Hn as (l & r & nl & nr & _ & _ & _ & _ & HH).
  rewrite HH in Hv. cbn [view] in Hv. now rewrite HH, Hv.
Qed.

(** X9.  The last item given twice: for an odd number of items that all
    have a hash, [NewTree] on the items and [NewTree] on the items
    followed by the last one again return trees with the same
    [MerkleRoot] and the same number of leaves; the Merkle root does not
    tell the two lists apart. *)
Theorem MerkleRoot_last_item_twice (contents : list T) (c : T) (m0 : mem) :
  list.last contents = Some c -> len contents mod 2 = 1 ->
  (forall c, c ∈ contents -> exists s, CalculateHash c = Ok s) ->
  exists t w t' w',
    NewTree contents (m0, []) = (Ok t, w) /\
    NewTree (contents ++ [c]) (m0, []) = (Ok t', w') /\
    MerkleRoot t = MerkleRoot t' /\
    length (Leaves t) = length (Leaves t').
Proof.
  intros Hl Hodd Hcalc.
  assert (Hne : contents <> []) by (intros ->; discriminate Hl).
  assert (Hin : c ∈ contents).
  { rewrite last_lookup in Hl. now apply list_elem_of_lookup_2 in Hl. }
  assert (Hall : Forall (fun c => exists s, CalculateHash c = Ok s) contents)
    by now apply Forall_has_hash.
  assert (Hall' : Forall (fun c => exists s, CalculateHash c = Ok s) (contents ++ [c])).
  { apply Forall_app. split; [exact Hall|]. apply Forall_singleton. now apply Hcalc. }
  destruct (NewTree_run Sum256 contents m0 Hne Hall)
    as (root & node & m & h & E & _ & _ & _ & _ & _ & _ & _ & _ & Hhash & _).
  destruct (NewTree_run Sum256 (contents ++ [c]) m0 ltac:(now destruct contents) Hall')
    as (root' & node' & m' & h' & E' & _ & _ & _ & _ & _ & _ & _ & _ & Hhash' & _).
  eexists _, (m, h), _, (m', h'). split; [exact E|]. split; [exact E'|].
  cbn [MerkleRoot merkleRoot Leaves].
  rewrite (leaf_hashes_last_twice contents c Hl Hodd) in Hhash'.
  split; [congruence|]. rewrite !length_seq.
  pose proof (length_leaf_heap contents) as H1.
  pose proof (length_leaf_heap (contents ++ [c])) as H2.
  rewrite len_app in H2. change (len [c]) with 1 in H2.
  replace ((len contents + 1) mod 2) with 0 in H2
    by (rewrite <- Z.add_mod_idemp_l, Hodd by lia; reflexivity).
  unfold len in *. lia.
Qed.

(** X10.  The links of the tree: in the heap that [NewTree] leaves, the
    root is the only node without [Parent]; the [Parent] of any other
    node is a later node that is not a leaf and has the node as its
    [Left] or [Right]; and a node that is not a leaf has both children,
    made before it, each with the node as its [Parent]. *)
Theorem NewTree_links (contents : list T) (m0 : mem) :
  contents <> [] ->
  (forall c, c ∈ contents -> exists s, CalculateHash c = Ok s) ->
  exists t m h (root : ptr),
    NewTree contents (m0, []) = (Ok t, (m, h)) /\ Root t = Some root /\
    forall (p : ptr) (n : Node T), h !! p = Some n ->
      (Parent n = None <-> p = root) /\
      (forall q, Parent n = Some q ->
         (p < q)%nat /\
         exists nq, h !! q = Some nq /\ leaf nq = false /\
                    (Left nq = Some p \/ Right nq = Some p)) /\
      (leaf n = false ->
         exists l r nl nr,
           Left n = Some l /\ Right n = Some r /\ (l < p)%nat /\ (r < p)%nat /\
           h !! l = Some nl /\ h !! r = Some nr /\
           Parent nl = Some p /\ Parent nr = Some p).
Proof.
  intros Hne Hcalc.
  destruct (NewTree_run Sum256 contents m0 Hne (Forall_has_hash contents Hcalc))
    as (root & node & m & h & E & Hroot & Hnl & _ & Hsh & Hord & Hpar & Hch & Horph & _).
  eexists _, m, h, root. split; [exact E|]. split; [reflexivity|].
  intros p n Hp. split; [|split].
  - rewrite (Horph p n Hp). apply list_elem_of_singleton.
  - intros q Hq. destruct (Hpar p n q Hp Hq) as (nq & Hm & Hleaf & Hchild).
    split; [exact (Hord q nq p Hm Hchild)|]. now exists nq.
  - intros Hleaf. pose proof (Hsh p n Hp) as Hn.
    rewrite Hleaf in Hn. destruct Hn as (l & r & nl & nr & HL & HR & Hl & Hr).
    destruct (Hch p n l Hp (or_introl HL)) as (nl' & Hl' & HPl).
    destruct (Hch p n r Hp (or_intror HR)) as (nr' & Hr' & HPr).
    exists l, r, nl, nr.
    split; [exact HL|]. split; [exact HR|].
    split; [exact (Hord p n l Hp (or_introl HL))|].
    split; [exact (Hord p n r Hp (or_intror HR))|].
    split; [exact Hl|]. split; [exact Hr|]. split; congruence.
Qed.

(** X11.  The leaves of the tree: [Leaves] holds one node for each item,
    in the order of the items, and one more when the number of items is
    odd, so that its length is always even; the nodes are all different;
    each is a leaf without children whose [Hash] is the very slice that
    [CalculateHash] returns for its [Item]; the node of an item has
    [dup] false, and the added node has [dup] true and the last item.
    When none of the slices has room after it, [NewTree] has written to
    no array, so each of them still shows the bytes it showed when
    [CalculateHash] returned it. *)
Theorem NewTree_Leaves (contents : list T) (m0 : mem) :
  contents <> [] ->
  (forall c, c ∈ contents -> exists s, CalculateHash c = Ok s) ->
  exists t m h,
    NewTree contents (m0, []) = (Ok t, (m, h)) /\
    len (Leaves t) = len contents + len contents mod 2 /\
    NoDup (Leaves t) /\
    (forall (i : nat) (p : ptr), Leaves t !! i = Some p ->
       exists n c,
         h !! p = Some n /\ leaf n = true /\ Left n = None /\ Right n = None /\
         Item n = Some c /\ CalculateHash c = Ok (Hash n) /\
         if decide (i < length contents)%nat
         then dup n = false /\ contents !! i = Some c
         else dup n = true /\ list.last contents = Some c) /\
    ((forall c s, c ∈ contents -> CalculateHash c = Ok s -> tight s) -> m = m0).
Proof.
  intros Hne Hcalc.
  destruct (NewTree_run Sum256 contents m0 Hne (Forall_has_hash contents Hcalc))
    as (root & node & m & h & E & _ & _ & Hext & _ & _ & _ & _ & _ & _ & Ht).
  eexists _, m, h. split; [exact E|]. cbn [Leaves].
  split; [unfold len at 1; rewrite length_seq; apply length_leaf_heap|].
  split; [apply NoDup_seq|]. split.
  - intros i p Hi. apply lookup_seq in Hi as [-> Hlt]. cbn [Nat.add].
    destruct (lookup_lt_is_Some_2 _ _ Hlt) as [n0 Hn0].
    destruct (Hext i n0 Hn0) as (n & Hn & (HL & HR & Hleaf & Hdup & HH & HI)).
    destruct (leaf_heap_lookup contents i n0 Hn0) as [c Hc].
    assert (Hin : c ∈ contents).
    { case_decide; destruct Hc as [Hc _].
      - now apply list_elem_of_lookup_2 in Hc.
      - rewrite last_lookup in Hc. now apply list_elem_of_lookup_2 in Hc. }
    destruct (Hcalc c Hin) as [s Hs].
    assert (Hs' : item_hash c = s) by (unfold item_hash; now rewrite Hs).
    exists n, c. split; [exact Hn|].
    case_decide; destruct Hc as [Hc ->]; cbn in HL, HR, Hleaf, Hdup, HH, HI;
      (split; [congruence|]); (split; [congruence|]); (split; [congruence|]);
      (split; [congruence|]); (split; [congruence|]); split; congruence.
  - intros Htight. destruct (Ht (tight_items_intro contents Htight)) as [Hm _ _].
    exact Hm.
Qed.

(** X12.  [VerifyNode] computes the hashes again, from the items: when
    no slice that [CalculateHash] returns has room after it, then on
    the nodes that [NewTree] leaves, and on any nodes with the same
    tree (the same children, [leaf] flags and items) whatever hashes
    they hold, [VerifyNode] on the root writes to no array and returns
    the bytes of [MerkleRoot], and on any node it returns the bytes of
    the [Hash] that [NewTree] gave that node.  Changing a stored hash
    does not change what [VerifyNode] returns. *)
Theorem VerifyNode_recomputes (contents : list T) (m0 : mem) :
  contents <> [] ->
  (forall c, c ∈ contents -> exists s, CalculateHash c = Ok s) ->
  (forall c s, c ∈ contents -> CalculateHash c = Ok s -> tight s) ->
  exists t h (root : ptr),
    NewTree contents (m0, []) = (Ok t, (m0, h)) /\ Root t = Some root /\
    forall h', same_tree h h' ->
      (exists s, VerifyNode (length h) h' root m0 = (Ok s, m0) /\
                 view m0 s = view m0 (MerkleRoot t)) /\
      (forall (p : ptr) (n : Node T), h !! p = Some n ->
         exists s, VerifyNode (length h) h' p m0 = (Ok s, m0) /\
                   view m0 s = view m0 (Hash n)).
Proof.
  intros Hne Hcalc Htight. apply tight_items_intro in Htight.
  destruct (NewTree_run Sum256 contents m0 Hne (Forall_has_hash contents Hcalc))
    as (root & node & m & h & E & Hroot & _ & _ & _ & Hord & _ & _ & _ & _ & Ht).
  destruct (Ht Htight) as [Hm Hok Htt]. cbn [fst snd] in Hm, Hok, Htt. subst m.
  eexists _, h, root. split; [exact E|]. split; [reflexivity|].
  intros h' Hsame.
  assert (Hall : forall (p : ptr) (n : Node T), h !! p = Some n ->
                   exists s, VerifyNode (length h) h' p m0 = (Ok s, m0) /\
                             view m0 s = view m0 (Hash n)).
  { intros p n Hp.
    destruct (VerifyNode_Hash contents m0 h h' Hok Hord Htt Hsame (length h) p n Hp)
      as (s & Es & Hv & _); [now apply lookup_lt_Some in Hp|].
    now exists s. }
  split; [exact (Hall root node Hroot) | exact Hall].
Qed.

(** X13.  The errors of [NewTree]: when [CalculateHash] fails on an item
    and succeeds on all the items before it, [NewTree] returns the error
    of that item, whatever follows it; no tree is returned.  Without any
    item it returns the error "cannot make a merkle tree without any
    contents" and leaves the arrays and the heap as they were. *)
Theorem NewTree_first_error (pre post : list T) (c : T) (e : error)
    (w : mem * list (Node T)) :
  (forall c0, c0 ∈ pre -> exists s, CalculateHash c0 = Ok s) ->
  CalculateHash c = Err e ->
  fst (NewTree (pre ++ c :: post) w) = Err e /\
  NewTree [] w
  = (Err (Errorf "error: cannot make a merkle tree without any contents." []), w).
Proof.
  intros Hpre He. split; [|reflexivity]. destruct w as [m h].
  unfold Graph.NewTree.
  assert (Hlen : len (pre ++ c :: post) <> 0).
  { unfold len. rewrite length_app. cbn [length]. lia. }
  destruct (len (pre ++ c :: post) =? 0) eqn:E0; [lia|].
  unfold Graph.buildTree.
  rewrite (bind_Err _ _ (m, h) e (m, h ++ map leaf_node pre)); [reflexivity|].
  apply bind_Err.
  apply (make_leaves_error pre post c e [] m h (Forall_has_hash pre Hpre) He).
Qed.

(** X14.  The digests of the node-graph tree, when no hash has room
    after it: if the list of items is not empty, [CalculateHash]
    succeeds on each of them and none of the slices it returns has room
    after it ([len == cap]), then [NewTree] writes to no array and
    leaves a tree in which every node that is not a leaf holds the
    digest of the bytes of its left child's hash followed by the bytes
    of its right child's hash, with no byte before them, and every leaf
    holds the slice that [CalculateHash] returns for its item, as it
    is; the Merkle root is the hash of the root node, which is not a
    leaf.  The flat engine, by contrast, puts the byte 0x01 before the
    children of an internal node and 0x00 before a block. *)
Theorem NewTree_digests_tight (contents : list T) (m0 : mem) :
  contents <> [] ->
  (forall c, c ∈ contents -> exists s, CalculateHash c = Ok s) ->
  (forall c s, c ∈ contents -> CalculateHash c = Ok s -> tight s) ->
  exists t h,
    NewTree contents (m0, []) = (Ok t, (m0, h)) /\
    (forall p n, h !! p = Some n -> leaf n = false ->
       exists l r nl nr,
         Left n = Some l /\ Right n = Some r /\
         h !! l = Some nl /\ h !! r = Some nr /\
         Hash n = Fresh (Sum256 (view m0 (Hash nl) ++ view m0 (Hash nr)))) /\
    (forall p n, h !! p = Some n -> leaf n = true ->
       exists c, c ∈ contents /\ Item n = Some c /\ CalculateHash c = Ok (Hash n)) /\
    (exists r n,
       Root t = Some r /\ h !! r = Some n /\ leaf n = false /\ MerkleRoot t = Hash n) /\
    (forall data : slice,
       Flat.hashNode Sum256 data true = Some (Sum256 (x01 :: content data)) /\
       Flat.hashNode Sum256 data false = Some (Sum256 (x00 :: content data))).
Proof.
  intros Hne Hcalc Htight. apply tight_items_intro in Htight.
  destruct (NewTree_run Sum256 contents m0 Hne (Forall_has_hash contents Hcalc))
    as (root & node & m & h & E & Hroot & Hnl & _ & _ & _ & _ & _ & _ & _ & Ht).
  destruct (Ht Htight) as [Hm Hok _]. cbn [fst snd] in Hm, Hok. subst m.
  eexists _, h. split; [exact E|].
  split.
  { intros p n Hp Hleaf. pose proof (Hok p n Hp) as Hn.
    unfold GraphSpec.node_ok in Hn. now rewrite Hleaf in Hn. }
  split.
  { intros p n Hp Hleaf. pose proof (Hok p n Hp) as Hn.
    unfold GraphSpec.node_ok in Hn. now rewrite Hleaf in Hn. }
  split; [exists root, node; now repeat split|].
  intros data. split; reflexivity.
Qed.

End Builder.

End GraphMoreFacts.

(** ** More runs on concrete inputs *)

Module MoreRuns.

Import Flat FlatSpec FlatTest GraphTest.

Lemma Insert_each_is_constructor_witness :
  FlatMore.Insert_each [block "Hi"; block "Hey"] (NewMerkleTree [block "Hello"])
  = (Ok tt, NewMerkleTree ([block "Hello"] ++ [block "Hi"; block "Hey"])) /\
  FlatMore.Insert_each ([block "Hi"; block "Hey"] ++ None :: [block "Hola"])
    (NewMerkleTree [block "Hello"])
  = (Err ErrNilBlock, NewMerkleTree ([block "Hello"] ++ [block "Hi"; block "Hey"])).
Proof.
  apply (FlatMoreFacts.Insert_each_is_constructor
           [block "Hello"] [block "Hi"; block "Hey"] [block "Hola"]).
  repeat constructor.
Defined.

Lemma absent_block_not_found_witness :
  Flat.Proof (finalized_tree blocks3) (block "Hola")
  = Err (Errorf "block does not exist: %v"
           [ArgString (hex_EncodeToString (list_byte_of_string "Hola"))]) /\
  Verify SHA256.Sum256 (finalized_tree blocks3) (block "Hola") []
  = Err (Errorf "block does not exist: %v"
           [ArgString (hex_EncodeToString (list_byte_of_string "Hola"))]).
Proof.
  destruct (FlatMoreFacts.absent_block_not_found SHA256.Sum256 blocks3
              (finalized_tree blocks3) (list_byte_of_string "Hola") [])
    as (HP & HV & _).
  - apply Runs.built_finalized_tree.
  - vm_compute. reflexivity.
  - apply (proj1 (list.Forall_forall _ _)). repeat constructor.
  - split; [exact HP | exact HV].
Defined.

Lemma nodes_are_digests_witness :
  RootHash (finalized_tree blocks3) = Ok (FlatMore.root_digest SHA256.Sum256 blocks3).
Proof.
  apply (FlatMoreFacts.nodes_are_digests SHA256.Sum256 blocks3 (finalized_tree blocks3)).
  - apply Runs.built_finalized_tree.
  - vm_compute. reflexivity.
Defined.

Lemma proof_reconstructs_root_witness :
  exists leaf p r,
    findLeaf (finalized_tree blocks3) (block "Hey") = Ok leaf /\
    Flat.Proof (finalized_tree blocks3) (block "Hey") = Ok p /\
    RootHash (finalized_tree blocks3) = Ok r /\
    FlatMore.reconstruct SHA256.Sum256
      (hashNode SHA256.Sum256 (block "Hey") false) leaf p = r.
Proof.
  apply (FlatMoreFacts.proof_reconstructs_root SHA256.Sum256 blocks3
           (finalized_tree blocks3) (block "Hey") (list_byte_of_string "Hey")).
  - apply Runs.built_finalized_tree.
  - vm_compute. reflexivity.
  - repeat constructor.
  - vm_compute. reflexivity.
Defined.

Lemma Verify_reports_first_mismatch_witness :
  exists got want,
    Verify SHA256.Sum256 (finalized_tree blocks3) (block "Hey") [None]
    = Err (Errorf "invalid proof at index %d for block %X; got: %X, want: %X"
             [ArgInt 0; ArgBytes (block "Hey"); ArgBytes got; ArgBytes want]).
Proof.
  destruct (FlatMoreFacts.Verify_reports_first_mismatch SHA256.Sum256 blocks3
              (finalized_tree blocks3) (block "Hey") (list_byte_of_string "Hey"))
    as (leaf & full & Hleaf & Hfull & Hk).
  - apply Runs.built_finalized_tree.
  - vm_compute. reflexivity.
  - repeat constructor.
  - vm_compute. reflexivity.
  - vm_compute in Hleaf. injection Hleaf as <-.
    vm_compute in Hfull. injection Hfull as <-.
    eexists _, _. apply (Hk 0%nat None []).
    + cbn [length]. lia.
    + vm_compute. reflexivity.
Defined.

Lemma Proof_length_bounds_witness :
  exists p,
    Flat.Proof (finalized_tree blocks3) (block "Hey") = Ok p /\
    1 <= len p /\
    Z.log2 (len (blocks (finalized_tree blocks3))) <= len p
      <= Z.log2 (len (blocks (finalized_tree blocks3))) + 1 /\
    len p <= Z.log2 (len (nodes (finalized_tree blocks3))).
Proof.
  apply (FlatMoreFacts.Proof_length_bounds SHA256.Sum256 blocks3
           (finalized_tree blocks3) (block "Hey") (list_byte_of_string "Hey")).
  - apply Runs.built_finalized_tree.
  - vm_compute. reflexivity.
  - repeat constructor.
  - vm_compute. reflexivity.
Defined.

Lemma NewTree_MerkleRoot_witness :
  exists t h,
    Graph.NewTree SHA256.Sum256 contents1 ([], []) = (Ok t, ([], h)) /\
    Graph.MerkleRoot t
    = Slices.Fresh
        (GraphSpec.merkle_root SHA256.Sum256 (length (GraphSpec.leaf_hashes contents1))
           (map (Slices.view []) (GraphSpec.leaf_hashes contents1))).
Proof.
  apply (GraphMoreFacts.NewTree_MerkleRoot SHA256.Sum256 contents1 []).
  - discriminate.
  - intros c _. eexists. reflexivity.
  - intros c s _ H. injection H as <-. exact I.
Defined.

Lemma MerkleRoot_last_item_twice_witness :
  exists t w t' w',
    Graph.NewTree SHA256.Sum256 contents1 ([], []) = (Ok t, w) /\
    Graph.NewTree SHA256.Sum256 (contents1 ++ [mkContent "Hey"]) ([], []) = (Ok t', w') /\
    Graph.MerkleRoot t = Graph.MerkleRoot t' /\
    length (Graph.Leaves t) = length (Graph.Leaves t').
Proof.
  apply (GraphMoreFacts.MerkleRoot_last_item_twice SHA256.Sum256 contents1
           (mkContent "Hey") []).
  - reflexivity.
  - reflexivity.
  - intros c _. eexists. reflexivity.
Defined.

Lemma NewTree_links_witness :
  exists t m h (root : nat),
    Graph.NewTree SHA256.Sum256 shared_items (buf, []) = (Ok t, (m, h)) /\
    Graph.Root t = Some root /\
    exists n, h !! root = Some n /\ Graph.Parent n = None.
Proof.
  destruct (GraphMoreFacts.NewTree_links SHA256.Sum256 shared_items buf)
    as (t & m & h & root & E & HR & Hall).
  - discriminate.
  - intros c _. eexists. reflexivity.
  - exists t, m, h, root. split; [exact E|]. split; [exact HR|].
    destruct (h !! root) as [n|] eqn:Hn.
    + exists n. split; [reflexivity|]. now apply (Hall root n Hn).
    + exfalso. vm_compute in E. injection E as <- <- <-. vm_compute in HR.
      injection HR as <-. discriminate Hn.
Defined.

Lemma NewTree_Leaves_witness :
  exists t m h,
    Graph.NewTree SHA256.Sum256 contents1 ([], []) = (Ok t, (m, h)) /\
    len (Graph.Leaves t) = 4 /\ NoDup (Graph.Leaves t) /\ m = [].
Proof.
  destruct (GraphMoreFacts.NewTree_Leaves SHA256.Sum256 contents1 [])
    as (t & m & h & E & Hlen & Hnd & _ & Hm).
  - discriminate.
  - intros c _. eexists. reflexivity.
  - exists t, m, h. split; [exact E|]. split; [exact Hlen|]. split; [exact Hnd|].
    apply Hm. intros c s _ H. injection H as <-. exact I.
Defined.

Lemma VerifyNode_recomputes_witness :
  exists t h (root : nat),
    Graph.NewTree SHA256.Sum256 contents1 ([], []) = (Ok t, ([], h)) /\
    Graph.Root t = Some root /\
    exists s,
      GraphMore.VerifyNode SHA256.Sum256 (length h)
        (map (fun n => Graph.mkNode (Graph.Left n) (Graph.Right n) None (Graph.leaf n)
                         false Slices.Nil (Graph.Item n)) h) root []
      = (Ok s, []) /\
      Slices.view [] s = Slices.view [] (Graph.MerkleRoot t).
Proof.
  destruct (GraphMoreFacts.VerifyNode_recomputes SHA256.Sum256 contents1 [])
    as (t & h & root & E & HR & HV).
  - discriminate.
  - intros c _. eexists. reflexivity.
  - intros c s _ H. injection H as <-. exact I.
  - exists t, h, root. split; [exact E|]. split; [exact HR|].
    apply (HV (map (fun n => Graph.mkNode (Graph.Left n) (Graph.Right n) None
                               (Graph.leaf n) false Slices.Nil (Graph.Item n)) h)).
    split; [apply length_map|]. intros p n Hp. eexists. split.
    + change (map ?f h) with (f <$> h). rewrite list_lookup_fmap, Hp. reflexivity.
    + now repeat split.
Defined.

Lemma NewTree_first_error_witness :
  fst (Graph.NewTree (ST := GraphMoreTest.option_Storable) SHA256.Sum256
         ([Some "Hello"%string] ++ None :: [Some "Hi"%string]) ([], []))
  = Err (Errorf "item without text" []) /\
  Graph.NewTree (ST := GraphMoreTest.option_Storable) SHA256.Sum256 [] ([], [])
  = (Err (Errorf "error: cannot make a merkle tree without any contents." []), ([], [])).
Proof.
  apply (GraphMoreFacts.NewTree_first_error (ST := GraphMoreTest.option_Storable)
           SHA256.Sum256 [Some "Hello"%string] [Some "Hi"%string] None
           (Errorf "item without text" []) ([], [])).
  - intros c0 Hc. apply list_elem_of_singleton in Hc. subst c0. eexists. reflexivity.
  - reflexivity.
Defined.

Lemma NewTree_digests_tight_witness :
  exists t h,
    Graph.NewTree SHA256.Sum256 contents0 ([], []) = (Ok t, ([], h)) /\
    exists r n,
      Graph.Root t = Some r /\ h !! r = Some n /\ Graph.leaf n = false /\
      Graph.MerkleRoot t = Graph.Hash n.
Proof.
  destruct (GraphMoreFacts.NewTree_digests_tight SHA256.Sum256 contents0 [])
    as (t & h & E & _ & _ & Hroot & _).
  - discriminate.
  - intros c _. eexists. reflexivity.
  - intros c s _ H. injection H as <-. exact I.
  - exists t, h. split; [exact E | exact Hroot].
Defined.

End MoreRuns.
